(** * DisposableBrowser: the input-translation pipeline of the remote-session client

    A shallow embedding of [DisposableBrowser] (the React component whose
    source is the second document of [src/app/layout.tsx]) and the
    properties its specification states about it.

    Conventions of the embedding.
    - A JavaScript string is the list of its UTF-16 code units ([jsstring]).
    - A JavaScript number is a binary64 value, held as the rational it
      denotes ([Q]); a product, a quotient or a difference is rounded to the
      nearest value with a 53-bit significand, ties to even ([fl]).  The
      exponent range is not bounded: overflow and underflow, which need
      magnitudes above [2^1024] or below [2^-1022], are not part of the
      model.  Integers that the code only adds, subtracts and compares
      ([Date.now()], timer delays, the results of [Math.round]) are in [Z].
      A non-finite result (a division by a zero width) is [None], which is
      what [JSON.stringify] turns it into ([null]).
    - React state ([useState]) and refs ([useRef]) are fields of [World];
      everything the component does to the outside (requests, clipboard,
      console, [preventDefault], timers) is appended to [trace].
    - What the outside answers (does a request resolve, what is on the
      clipboard) is read from an [Env]. *)

From Stdlib Require Import ZArith NArith QArith Qround Qabs Qpower.
From Stdlib Require Import List String Ascii Bool Lia Lqa.
Import ListNotations.

Local Open Scope Z_scope.

(* ================================================================== *)
(** ** JavaScript values *)

(** A string, as its UTF-16 code units. *)
Definition jsstring := list N.

(** An ASCII literal as a JavaScript string. *)
Definition js (s : string) : jsstring :=
  List.map N_of_ascii (list_ascii_of_string s).

Definition cu_eqb (a b : N) : bool := N.eqb a b.

Fixpoint jsstring_eqb (a b : jsstring) : bool :=
  match a, b with
  | [], [] => true
  | x :: a', y :: b' => cu_eqb x y && jsstring_eqb a' b'
  | _, _ => false
  end.

(** [s.startsWith(p)] *)
Fixpoint startsWith (s p : jsstring) : bool :=
  match p, s with
  | [], _ => true
  | c :: p', d :: s' => cu_eqb c d && startsWith s' p'
  | _ :: _, [] => false
  end.

(** ECMAScript WhiteSpace and LineTerminator code points, the ones
    [String.prototype.trim] strips. *)
Definition is_js_whitespace (c : N) : bool :=
  ((9 <=? c) && (c <=? 13) || (c =? 32) || (c =? 160) || (c =? 5760)
   || (8192 <=? c) && (c <=? 8202) || (c =? 8232) || (c =? 8233)
   || (c =? 8239) || (c =? 8287) || (c =? 12288) || (c =? 65279))%N.

Fixpoint trimStart (s : jsstring) : jsstring :=
  match s with
  | c :: s' => if is_js_whitespace c then trimStart s' else s
  | [] => []
  end.

(** [s.trim()] *)
Definition trim (s : jsstring) : jsstring :=
  rev (trimStart (rev (trimStart s))).

(** [!s] for a value of type [string | null]: [null] and the empty string
    are falsy. *)
Definition falsy (s : option jsstring) : bool :=
  match s with
  | None => true
  | Some [] => true
  | Some (_ :: _) => false
  end.

(** [Math.round]: the nearest integer, a half rounding towards +infinity. *)
Definition Math_round (q : Q) : Z := Qfloor (q + (1 # 2)).

(** [a < b] on numbers. *)
Definition Qltb (a b : Q) : bool := negb (Qle_bool b a).

(* ================================================================== *)
(** ** binary64 arithmetic *)

Definition pow2 (e : Z) : Q := (2 ^ e)%Q.

(** [floor (log2 q)] for a positive [q]. *)
Definition ilog2 (q : Q) : Z :=
  let l := Z.log2 (Qnum q) - Z.log2 (Zpos (Qden q)) in
  if Qle_bool (pow2 l) q then l else l - 1.

(** The nearest integer, a tie going to the even one. *)
Definition round_half_even (y : Q) : Z :=
  let f := Qfloor y in
  match (y - inject_Z f ?= 1 # 2)%Q with
  | Lt => f
  | Gt => f + 1
  | Eq => if Z.even f then f else f + 1
  end.

(** A positive number rounded to a 53-bit significand. *)
Definition round53 (q : Q) : Q :=
  let e := ilog2 q - 52 in
  Qred (inject_Z (round_half_even (q * pow2 (- e))) * pow2 e).

(** The binary64 value nearest to [q]. *)
Definition fl (q : Q) : Q :=
  match (q ?= 0)%Q with
  | Eq => 0%Q
  | Gt => round53 q
  | Lt => (- round53 (- q))%Q
  end.

(** [a * b], [a / b] and [a - b] as the program computes them. *)
Definition fmul (a b : Q) : Q := fl (a * b).
Definition fdiv (a b : Q) : Q := fl (a / b).
Definition fsub (a b : Q) : Q := fl (a - b).

Arguments fl : simpl never.
Arguments fmul : simpl never.
Arguments fdiv : simpl never.
Arguments fsub : simpl never.

(** The largest relative error of one operation: [2^-53]. *)
Definition unit_roundoff : Q := pow2 (-53).

(* ================================================================== *)
(** ** Regular expressions

    The fragment of ECMAScript regular expressions that [handleSubmit]
    uses: character classes, concatenation, alternation, [?], [+], [*].
    A pattern anchored by [^] and [$] (no [m] flag) passes [test] when the
    whole input is in its language; [matches] decides that with Brzozowski
    derivatives. *)

Inductive regex : Type :=
| Fail                                (* matches nothing *)
| Eps                                 (* the empty string *)
| Cls (p : N -> bool)                 (* one code unit of a class *)
| Seq (r1 r2 : regex)
| Alt (r1 r2 : regex)
| Star (r : regex).

Definition Opt (r : regex) : regex := Alt r Eps.
Definition Plus (r : regex) : regex := Seq r (Star r).
Definition Chr (c : string) : regex :=
  match js c with
  | [k] => Cls (cu_eqb k)
  | _ => Fail
  end.
Fixpoint Lit (s : jsstring) : regex :=
  match s with
  | [] => Eps
  | c :: s' => Seq (Cls (cu_eqb c)) (Lit s')
  end.

(** The language of a pattern. *)
Inductive lang : regex -> jsstring -> Prop :=
| lang_eps : lang Eps []
| lang_cls p c : p c = true -> lang (Cls p) [c]
| lang_seq r1 r2 s1 s2 : lang r1 s1 -> lang r2 s2 -> lang (Seq r1 r2) (s1 ++ s2)
| lang_alt_l r1 r2 s : lang r1 s -> lang (Alt r1 r2) s
| lang_alt_r r1 r2 s : lang r2 s -> lang (Alt r1 r2) s
| lang_star_nil r : lang (Star r) []
| lang_star_app r s1 s2 : lang r s1 -> lang (Star r) s2 -> lang (Star r) (s1 ++ s2).

Fixpoint nullable (r : regex) : bool :=
  match r with
  | Fail => false
  | Eps => true
  | Cls _ => false
  | Seq r1 r2 => nullable r1 && nullable r2
  | Alt r1 r2 => nullable r1 || nullable r2
  | Star _ => true
  end.

(** Constructors that drop the branches which can no longer match, so that
    derivatives stay small. *)
Definition mkSeq (r1 r2 : regex) : regex :=
  match r1 with
  | Fail => Fail
  | Eps => r2
  | _ => Seq r1 r2
  end.

Definition mkAlt (r1 r2 : regex) : regex :=
  match r1, r2 with
  | Fail, _ => r2
  | _, Fail => r1
  | _, _ => Alt r1 r2
  end.

Fixpoint deriv (c : N) (r : regex) : regex :=
  match r with
  | Fail => Fail
  | Eps => Fail
  | Cls p => if p c then Eps else Fail
  | Seq r1 r2 =>
      mkAlt (mkSeq (deriv c r1) r2) (if nullable r1 then deriv c r2 else Fail)
  | Alt r1 r2 => mkAlt (deriv c r1) (deriv c r2)
  | Star r1 => mkSeq (deriv c r1) (Star r1)
  end.

(** [/^r$/.test(s)] *)
Fixpoint matches (r : regex) (s : jsstring) : bool :=
  match s with
  | [] => nullable r
  | c :: s' => matches (deriv c r) s'
  end.

(** [\w] *)
Definition is_word (c : N) : bool :=
  ((48 <=? c) && (c <=? 57) || (65 <=? c) && (c <=? 90)
   || (97 <=? c) && (c <=? 122) || (c =? 95))%N.

(** [[\w-]] *)
Definition is_label_char (c : N) : bool := is_word c || (c =? 45)%N.

(** [[\w- ./?%&=]]: a class escape next to [-] makes the [-] literal. *)
Definition is_path_char (c : N) : bool :=
  (is_word c || (c =? 45) || (c =? 32) || (c =? 46) || (c =? 47)
   || (c =? 63) || (c =? 37) || (c =? 38) || (c =? 61))%N.

(** The pattern literal of [handleSubmit]: an optional [https?:\/\/], one or
    more labels [[\w-]+\.], a last label [[\w-]+], and an optional path, a
    [\/] followed by any number of [[\w- ./?%&=]]; anchored at both ends. *)
Definition url_pattern : regex :=
  Seq (Opt (Seq (Lit (js "http")) (Seq (Opt (Chr "s")) (Lit (js "://")))))
   (Seq (Plus (Seq (Plus (Cls is_label_char)) (Chr ".")))
    (Seq (Plus (Cls is_label_char))
         (Opt (Seq (Chr "/") (Star (Cls is_path_char)))))).

(* ================================================================== *)
(** ** [encodeURIComponent] *)

Definition hex_digit (n : N) : N :=
  (if n <? 10 then 48 + n else 55 + n)%N.

(** [%XX] with upper-case digits. *)
Definition percent_byte (b : N) : jsstring :=
  [37%N; hex_digit (b / 16); hex_digit (b mod 16)].

(** The UTF-8 bytes of a code point. *)
Definition utf8 (cp : N) : list N :=
  (if cp <? 128 then [cp]
   else if cp <? 2048 then [192 + cp / 64; 128 + cp mod 64]
   else if cp <? 65536 then
     [224 + cp / 4096; 128 + (cp / 64) mod 64; 128 + cp mod 64]
   else [240 + cp / 262144; 128 + (cp / 4096) mod 64;
         128 + (cp / 64) mod 64; 128 + cp mod 64])%N.

(** The characters [encodeURIComponent] leaves alone:
    [A-Z a-z 0-9 - _ . ! ~ * ' ( )]. *)
Definition is_uri_unreserved (c : N) : bool :=
  ((48 <=? c) && (c <=? 57) || (65 <=? c) && (c <=? 90)
   || (97 <=? c) && (c <=? 122) || (c =? 45) || (c =? 95) || (c =? 46)
   || (c =? 33) || (c =? 126) || (c =? 42) || (c =? 39) || (c =? 40)
   || (c =? 41))%N.

Definition is_high_surrogate (c : N) : bool := ((55296 <=? c) && (c <=? 56319))%N.
Definition is_low_surrogate (c : N) : bool := ((56320 <=? c) && (c <=? 57343))%N.

(** [encodeURIComponent(s)]; [None] is the [URIError] it throws on a lone
    surrogate. *)
Fixpoint encodeURIComponent (s : jsstring) : option jsstring :=
  match s with
  | [] => Some []
  | c :: s' =>
      if is_uri_unreserved c then option_map (cons c) (encodeURIComponent s')
      else if is_low_surrogate c then None
      else if is_high_surrogate c then
        match s' with
        | d :: s'' =>
            if is_low_surrogate d then
              option_map
                (app (flat_map percent_byte
                        (utf8 ((c - 55296) * 1024 + (d - 56320) + 65536)%N)))
                (encodeURIComponent s'')
            else None
        | [] => None
        end
      else option_map (app (flat_map percent_byte (utf8 c)))
                      (encodeURIComponent s')
  end.

(* ================================================================== *)
(** ** The body of a [POST /event] request *)

Inductive NavAction : Type := back | forward.

(** The object handed to [JSON.stringify], without its [session_id]. *)
Inductive EventBody : Type :=
| MouseMove (x y : option Z)                  (* type: 'mouse', x, y *)
| MouseClick (x y : option Z) (button : Z)    (* ... click: true, button, clickCount: 1 *)
| Scroll (deltaY : Q) (isTrackpad : bool)     (* type: 'scroll' *)
| Navigate (url : jsstring)                   (* type: 'navigate', url *)
| NavigateAction (action : NavAction)         (* type: 'navigate', action *)
| ClipboardCopy                               (* type: 'clipboard', action: 'copy' *)
| ClipboardPaste (text : jsstring)            (* type: 'clipboard', action: 'paste', text *)
| Keyboard (key : jsstring) (ctrl alt shift meta : bool)
| TextInput (text : jsstring).                (* type: 'keyboard', text *)

Record Request : Type := mkRequest {
  session_id : option jsstring;               (* [None] is [null] *)
  body : EventBody }.

(* ================================================================== *)
(** ** Events delivered to the component *)

Record DOMRect : Type := mkRect {
  rect_left : Q; rect_top : Q; rect_width : Q; rect_height : Q }.

Record MouseEv : Type := mkMouse { clientX : Q; clientY : Q; button : Z }.

Record KeyEv : Type := mkKey {
  key : jsstring; ctrlKey : bool; altKey : bool; shiftKey : bool; metaKey : bool }.

Record WheelEv : Type := mkWheel { deltaY : Q }.

(* ================================================================== *)
(** ** The component's state and what it does to the outside *)

Inductive Effect : Type :=
| PreventDefault                              (* e.preventDefault() *)
| FetchEvent (r : Request)                    (* fetch(`${apiUrl}/event`, {method: 'POST', ...}) *)
| SetIsLoading (b : bool)
| SetUrl (u : jsstring)
| ClipboardReadText                           (* navigator.clipboard.readText() *)
| ClipboardWriteText (t : jsstring)           (* navigator.clipboard.writeText(t) *)
| ConsoleError (msg : string)
| SetTimeout (id : positive) (delay : Z)
| ClearTimeout (id : positive).

(** A pending timer.  The only callback the component ever schedules is the
    one of [handleWheelEvent], which sends a request it closed over. *)
Record Timer : Type := mkTimer {
  timer_id : positive; timer_due : Z; timer_request : Request }.

Record World : Type := mkWorld {
  sessionId : option jsstring;                (* useState<string | null>(null) *)
  url : jsstring;                             (* useState('https://www.google.com') *)
  isLoading : bool;                           (* useState(false) *)
  scrollTimeout : option positive;            (* useRef<NodeJS.Timeout>() *)
  lastScrollTime : Z;                         (* useRef<number>(0) *)
  clock : Z;                                  (* what Date.now() returns, in ms *)
  timers : list Timer;                        (* the event loop's pending timers *)
  next_timer_id : positive;
  trace : list Effect }.                      (* oldest first *)

(** The answer to a request. *)
Inductive Response : Type :=
| NotAnObject                                 (* response.json() rejects, or reading .text of it throws *)
| Json (text : option jsstring).              (* an object; [text] is its .text, [None] when absent *)

Inductive FetchResult : Type :=
| Rejects                                     (* the promise rejects: the request failed *)
| Resolves (r : Response).                    (* the promise resolves, whatever the status *)

Record Env : Type := mkEnv {
  fetch : Request -> FetchResult;
  video : option DOMRect;                     (* videoRef.current and its getBoundingClientRect() *)
  clipboard_readText : option jsstring;       (* [None]: the read rejects *)
  clipboard_writeText : jsstring -> bool }.   (* [false]: the write rejects *)

Definition initial_world (t0 : Z) : World :=
  {| sessionId := None; url := js "https://www.google.com"; isLoading := false;
     scrollTimeout := None; lastScrollTime := 0; clock := t0; timers := [];
     next_timer_id := 1%positive; trace := [] |}.

Definition with_sessionId (v : option jsstring) (w : World) : World :=
  mkWorld v (url w) (isLoading w) (scrollTimeout w) (lastScrollTime w)
          (clock w) (timers w) (next_timer_id w) (trace w).
Definition with_url (v : jsstring) (w : World) : World :=
  mkWorld (sessionId w) v (isLoading w) (scrollTimeout w) (lastScrollTime w)
          (clock w) (timers w) (next_timer_id w) (trace w).
Definition with_isLoading (v : bool) (w : World) : World :=
  mkWorld (sessionId w) (url w) v (scrollTimeout w) (lastScrollTime w)
          (clock w) (timers w) (next_timer_id w) (trace w).
Definition with_scrollTimeout (v : option positive) (w : World) : World :=
  mkWorld (sessionId w) (url w) (isLoading w) v (lastScrollTime w)
          (clock w) (timers w) (next_timer_id w) (trace w).
Definition with_lastScrollTime (v : Z) (w : World) : World :=
  mkWorld (sessionId w) (url w) (isLoading w) (scrollTimeout w) v
          (clock w) (timers w) (next_timer_id w) (trace w).
Definition with_clock (v : Z) (w : World) : World :=
  mkWorld (sessionId w) (url w) (isLoading w) (scrollTimeout w)
          (lastScrollTime w) v (timers w) (next_timer_id w) (trace w).
Definition with_timers (v : list Timer) (w : World) : World :=
  mkWorld (sessionId w) (url w) (isLoading w) (scrollTimeout w)
          (lastScrollTime w) (clock w) v (next_timer_id w) (trace w).
Definition with_next_timer_id (v : positive) (w : World) : World :=
  mkWorld (sessionId w) (url w) (isLoading w) (scrollTimeout w)
          (lastScrollTime w) (clock w) (timers w) v (trace w).
Definition with_trace (v : list Effect) (w : World) : World :=
  mkWorld (sessionId w) (url w) (isLoading w) (scrollTimeout w)
          (lastScrollTime w) (clock w) (timers w) (next_timer_id w) v.

(* ================================================================== *)
(** ** Computations: state, an environment, and exceptions *)

Inductive Completion (A : Type) : Type :=
| Normal (a : A)
| Throws.
Arguments Normal {A} a.
Arguments Throws {A}.

Definition M (A : Type) : Type := Env -> World -> Completion A * World.

Definition ret {A} (a : A) : M A := fun _ w => (Normal a, w).

Definition bind {A B} (m : M A) (k : A -> M B) : M B :=
  fun env w =>
    match m env w with
    | (Normal a, w') => k a env w'
    | (Throws, w') => (Throws, w')
    end.

Definition throw {A} : M A := fun _ w => (Throws, w).

(** [try { m } catch (error) { h }] *)
Definition try_catch {A} (m h : M A) : M A :=
  fun env w =>
    match m env w with
    | (Normal a, w') => (Normal a, w')
    | (Throws, w') => h env w'
    end.

(** [m] followed by [f] whether or not [m] threw: [try {..} finally { f }]. *)
Definition try_finally {A} (m : M A) (f : M unit) : M A :=
  fun env w =>
    match m env w with
    | (c, w') =>
        match f env w' with
        | (Normal _, w'') => (c, w'')
        | (Throws, w'') => (Throws, w'')
        end
    end.

Declare Scope m_scope.
Delimit Scope m_scope with M.
Notation "x <- m ;; k" := (bind m (fun x => k))
  (at level 61, m at next level, right associativity) : m_scope.
Notation "m ;; k" := (bind m (fun _ => k))
  (at level 61, right associativity) : m_scope.
Local Open Scope m_scope.

Definition read {A} (f : World -> A) : M A := fun _ w => (Normal (f w), w).
Definition ask {A} (f : Env -> A) : M A := fun env w => (Normal (f env), w).
Definition update (f : World -> World) : M unit := fun _ w => (Normal tt, f w).
Definition emit (e : Effect) : M unit :=
  update (fun w => with_trace (trace w ++ [e]) w).

Definition preventDefault : M unit := emit PreventDefault.
Definition console_error (msg : string) : M unit := emit (ConsoleError msg).
Definition setIsLoading (b : bool) : M unit :=
  emit (SetIsLoading b) ;; update (with_isLoading b).
Definition setUrl (u : jsstring) : M unit :=
  emit (SetUrl u) ;; update (with_url u).

(** [await fetch(`${apiUrl}/event`, { method: 'POST', ..., body: JSON.stringify(r) })] *)
Definition fetchEvent (r : Request) : M Response :=
  emit (FetchEvent r) ;;
  res <- ask (fun env => fetch env r) ;;
  match res with
  | Rejects => throw
  | Resolves resp => ret resp
  end.

(** [(await response.json()).text] *)
Definition response_text (resp : Response) : M (option jsstring) :=
  match resp with
  | NotAnObject => throw
  | Json t => ret t
  end.

(** [await navigator.clipboard.readText()] *)
Definition clipboardReadText : M jsstring :=
  emit ClipboardReadText ;;
  r <- ask clipboard_readText ;;
  match r with
  | Some t => ret t
  | None => throw
  end.

(** [await navigator.clipboard.writeText(t)] *)
Definition clipboardWriteText (t : jsstring) : M unit :=
  emit (ClipboardWriteText t) ;;
  ok <- ask (fun env => clipboard_writeText env t) ;;
  if ok then ret tt else throw.

(** [setTimeout(() => send r, delay)]: the handle is a positive integer. *)
Definition setTimeout (r : Request) (delay : Z) : M positive :=
  fun _ w =>
    let id := next_timer_id w in
    (Normal id,
     with_trace (trace w ++ [SetTimeout id delay])
       (with_next_timer_id (Pos.succ id)
          (with_timers (timers w ++ [mkTimer id (clock w + delay) r]) w))).

Definition clearTimeout (id : positive) : M unit :=
  emit (ClearTimeout id) ;;
  update (fun w =>
    with_timers (filter (fun tm => negb (Pos.eqb (timer_id tm) id)) (timers w)) w).

(* ================================================================== *)
(** ** Coordinate mapper *)

(** [a / b]; a zero divisor gives a non-finite number. *)
Definition js_div (a b : Q) : option Q :=
  if Qeq_bool b 0 then None else Some (fdiv a b).

(** [Math.round(x * (extent / size))], as it is serialised. *)
Definition to_virtual (x extent size : Q) : option Z :=
  match js_div extent size with
  | Some k => Some (Math_round (fmul x k))
  | None => None
  end.

(** The pair every pointer handler computes from a position relative to the
    surface's top-left corner and the surface's rendered size. *)
Definition mapper (x y w h : Q) : option Z * option Z :=
  (to_virtual x 1280 w, to_virtual y 720 h).

(* ================================================================== *)
(** ** Pointer handlers *)

Definition handleMouseMove (e : MouseEv) : M unit :=
  sid <- read sessionId ;;
  v <- ask video ;;
  match v with
  | None => ret tt
  | Some rect =>
      if falsy sid then ret tt else
      let x := fsub (clientX e) (rect_left rect) in
      let y := fsub (clientY e) (rect_top rect) in
      try_catch
        (fetchEvent
           (mkRequest sid
              (MouseMove (to_virtual x 1280 (rect_width rect))
                         (to_virtual y 720 (rect_height rect)))) ;;
         ret tt)
        (console_error "Failed to send mouse event:")
  end.

Definition handleClick (e : MouseEv) : M unit :=
  sid <- read sessionId ;;
  v <- ask video ;;
  match v with
  | None => ret tt
  | Some rect =>
      if falsy sid then ret tt else
      let x := fsub (clientX e) (rect_left rect) in
      let y := fsub (clientY e) (rect_top rect) in
      try_catch
        (fetchEvent
           (mkRequest sid
              (MouseClick (to_virtual x 1280 (rect_width rect))
                          (to_virtual y 720 (rect_height rect))
                          (button e))) ;;
         ret tt)
        (console_error "Failed to send click event:")
  end.

Definition handleContextMenu (e : MouseEv) : M unit :=
  preventDefault ;;
  sid <- read sessionId ;;
  v <- ask video ;;
  match v with
  | None => ret tt
  | Some rect =>
      if falsy sid then ret tt else
      let x := fsub (clientX e) (rect_left rect) in
      let y := fsub (clientY e) (rect_top rect) in
      try_catch
        (fetchEvent
           (mkRequest sid
              (MouseClick (to_virtual x 1280 (rect_width rect))
                          (to_virtual y 720 (rect_height rect))
                          2)) ;;
         ret tt)
        (console_error "Failed to send right-click event:")
  end.

(* ================================================================== *)
(** ** Scroll coalescer *)

Definition isTrackpad_of (e : WheelEv) : bool := Qltb (Qabs (deltaY e)) 50.

(** [let multiplier = isTrackpad ? 8 : 3; if (timeDiff < 100) multiplier *= 1.5] *)
Definition multiplier_of (isTrackpad : bool) (timeDiff : Z) : Q :=
  let multiplier : Q := (if isTrackpad then 8 else 3)%Q in
  if timeDiff <? 100 then fmul multiplier (3 # 2) else multiplier.

Definition handleWheelEvent (e : WheelEv) : M unit :=
  preventDefault ;;
  sid <- read sessionId ;;
  if falsy sid then ret tt else
  now <- read clock ;;
  last <- read lastScrollTime ;;
  let timeDiff := now - last in
  update (with_lastScrollTime now) ;;
  let isTrackpad := isTrackpad_of e in
  let multiplier := multiplier_of isTrackpad timeDiff in
  let scaled := fmul (deltaY e) multiplier in
  pending <- read scrollTimeout ;;
  match pending with
  | Some id => clearTimeout id
  | None => ret tt
  end ;;
  id <- setTimeout (mkRequest sid (Scroll scaled isTrackpad)) 16 ;;
  update (with_scrollTimeout (Some id)).

(** The callback of the timer: [fetch(...).catch(error => console.error(...))]. *)
Definition run_timer (tm : Timer) : M unit :=
  try_catch (fetchEvent (timer_request tm) ;; ret tt)
            (console_error "Failed to send scroll event:").

Fixpoint run_timers (tms : list Timer) : M unit :=
  match tms with
  | [] => ret tt
  | tm :: rest => run_timer tm ;; run_timers rest
  end.

Definition is_due (t : Z) (tm : Timer) : bool := timer_due tm <=? t.

(** Time passes until [t]: the timers whose delay has elapsed by then run,
    in the order they were scheduled. *)
Definition advance (t : Z) : M unit :=
  tms <- read timers ;;
  update (fun w => with_clock (Z.max (clock w) t)
                     (with_timers (filter (fun tm => negb (is_due t tm)) tms) w)) ;;
  run_timers (filter (is_due t) tms).

(** The cleanup of the effect that owns the wheel listener; it runs when
    [sessionId] changes and on unmount. *)
Definition scroll_effect_cleanup : M unit :=
  pending <- read scrollTimeout ;;
  match pending with
  | Some id => clearTimeout id
  | None => ret tt
  end.

(** [setSessionId(session_id)] at the end of the handshake, and the re-run
    of the effect that depends on [sessionId]. *)
Definition setSessionId (sid : option jsstring) : M unit :=
  update (with_sessionId sid) ;;
  scroll_effect_cleanup.

(* ================================================================== *)
(** ** Navigation controller *)

Definition navigate (targetUrl : jsstring) : M unit :=
  sid <- read sessionId ;;
  if falsy sid then ret tt else
  setIsLoading true ;;
  try_finally
    (try_catch
       (fetchEvent (mkRequest sid (Navigate targetUrl)) ;;
        setUrl targetUrl)
       (console_error "Navigation failed:"))
    (setIsLoading false).

Definition search_prefix : jsstring := js "https://www.google.com/search?q=".

Definition handleSubmit : M unit :=
  preventDefault ;;
  u <- read url ;;
  let input := trim u in
  let isUrl := matches url_pattern input in
  if isUrl then
    let urlWithProtocol :=
      if startsWith input (js "http") then input else js "https://" ++ input in
    navigate urlWithProtocol
  else
    match encodeURIComponent input with
    | Some q => navigate (search_prefix ++ q)
    | None => throw
    end.

(** The back button's [onClick]. *)
Definition onBackClick : M unit :=
  sid <- read sessionId ;;
  fetchEvent (mkRequest sid (NavigateAction back)) ;;
  ret tt.

(** The forward button's [onClick]. *)
Definition onForwardClick : M unit :=
  sid <- read sessionId ;;
  fetchEvent (mkRequest sid (NavigateAction forward)) ;;
  ret tt.

(** The reload button's [onClick]: [navigate(url)]; the button is disabled
    while [isLoading]. *)
Definition onReloadClick : M unit :=
  busy <- read isLoading ;;
  if busy then ret tt else
  u <- read url ;;
  navigate u.

(** The text field's [onChange]. *)
Definition onUrlChange (value : jsstring) : M unit := setUrl value.

(* ================================================================== *)
(** ** Keyboard and clipboard bridge *)

Definition send_keyboard (sid : option jsstring) (e : KeyEv) : M unit :=
  try_catch
    (fetchEvent
       (mkRequest sid
          (Keyboard (key e) (ctrlKey e) (altKey e) (shiftKey e) (metaKey e))) ;;
     ret tt)
    (console_error "Failed to send keyboard event:").

Definition copy_from_remote (sid : option jsstring) : M unit :=
  try_catch
    (response <- fetchEvent (mkRequest sid ClipboardCopy) ;;
     text <- response_text response ;;
     match text with
     | Some (c :: t) => clipboardWriteText (c :: t)
     | Some [] => ret tt
     | None => ret tt
     end)
    (console_error "Failed to copy:").

Definition paste_to_remote (sid : option jsstring) : M unit :=
  try_catch
    (text <- clipboardReadText ;;
     fetchEvent (mkRequest sid (ClipboardPaste text)) ;;
     ret tt)
    (console_error "Failed to paste:").

Definition handleKeyDown (e : KeyEv) : M unit :=
  sid <- read sessionId ;;
  if falsy sid then ret tt else
  if ctrlKey e || metaKey e then
    if jsstring_eqb (key e) (js "c") then copy_from_remote sid
    else if jsstring_eqb (key e) (js "v") then paste_to_remote sid
    else send_keyboard sid e
  else send_keyboard sid e.

Definition handleKeyPress (e : KeyEv) : M unit :=
  sid <- read sessionId ;;
  if falsy sid then ret tt else
  try_catch
    (fetchEvent (mkRequest sid (TextInput (key e))) ;; ret tt)
    (console_error "Failed to send keyboard event:").

(* ================================================================== *)
(** ** Everything that can happen to the component *)

Inductive Action : Type :=
| AMouseMove (e : MouseEv)
| AClick (e : MouseEv)
| AContextMenu (e : MouseEv)
| AWheel (e : WheelEv)
| AKeyDown (e : KeyEv)
| AKeyPress (e : KeyEv)
| ASubmit
| AReload
| ABack
| AForward
| AUrlChange (value : jsstring)
| ASession (sid : option jsstring)
| ATime (t : Z).

Definition dispatch (a : Action) : M unit :=
  match a with
  | AMouseMove e => handleMouseMove e
  | AClick e => handleClick e
  | AContextMenu e => handleContextMenu e
  | AWheel e => handleWheelEvent e
  | AKeyDown e => handleKeyDown e
  | AKeyPress e => handleKeyPress e
  | ASubmit => handleSubmit
  | AReload => onReloadClick
  | ABack => onBackClick
  | AForward => onForwardClick
  | AUrlChange v => onUrlChange v
  | ASession sid => setSessionId sid
  | ATime t => advance t
  end.

(** The world after an action; an exception that escapes a handler goes
    nowhere (an unhandled rejection). *)
Definition step (env : Env) (w : World) (a : Action) : World :=
  snd (dispatch a env w).

Definition run (env : Env) (w : World) (acts : list Action) : World :=
  fold_left (step env) acts w.

(** The requests a trace contains. *)
Fixpoint requests (tr : list Effect) : list Request :=
  match tr with
  | [] => []
  | FetchEvent r :: tr' => r :: requests tr'
  | _ :: tr' => requests tr'
  end.

(** The worlds the component can be in. *)
Inductive reachable : World -> Prop :=
| reachable_init t0 : reachable (initial_world t0)
| reachable_step env w a : reachable w -> reachable (step env w a).

(** The operations that translate a user's input into a request. *)
Definition is_input_event (a : Action) : bool :=
  match a with
  | AMouseMove _ | AClick _ | AContextMenu _ | AWheel _ | AKeyDown _
  | AKeyPress _ | ASubmit | AReload | ABack | AForward => true
  | AUrlChange _ | ASession _ | ATime _ => false
  end.

(** The handlers that start with the [if (!sessionId) return] guard. *)
Definition is_guarded (a : Action) : bool :=
  match a with
  | ABack | AForward => false
  | _ => is_input_event a
  end.

(** What the copy path appends to the trace after its request. *)
Definition copy_outcome (env : Env) (r : Request) : list Effect :=
  match fetch env r with
  | Rejects => [ConsoleError "Failed to copy:"]
  | Resolves NotAnObject => [ConsoleError "Failed to copy:"]
  | Resolves (Json None) => []
  | Resolves (Json (Some [])) => []
  | Resolves (Json (Some (c :: t))) =>
      ClipboardWriteText (c :: t)
        :: (if clipboard_writeText env (c :: t) then []
            else [ConsoleError "Failed to copy:"])
  end.

(** What the paste path appends to the trace after reading the clipboard. *)
Definition paste_outcome (env : Env) (sid : option jsstring) : list Effect :=
  match clipboard_readText env with
  | None => [ConsoleError "Failed to paste:"]
  | Some text =>
      FetchEvent (mkRequest sid (ClipboardPaste text))
        :: match fetch env (mkRequest sid (ClipboardPaste text)) with
           | Rejects => [ConsoleError "Failed to paste:"]
           | Resolves _ => []
           end
  end.

(** Is this a clipboard request? *)
Definition is_clipboard_request (r : Request) : bool :=
  match body r with
  | ClipboardCopy | ClipboardPaste _ => true
  | _ => false
  end.

(* ================================================================== *)
(** ** Notions the properties of the scroll coalescer are stated with *)

(** The request the timer callback of [handleWheelEvent] closes over, for a
    wheel event [e] that came [timeDiff] ms after the previous one. *)
Definition scroll_request (sid : option jsstring) (e : WheelEv) (timeDiff : Z) : Request :=
  mkRequest sid
    (Scroll (fmul (deltaY e) (multiplier_of (isTrackpad_of e) timeDiff))
            (isTrackpad_of e)).

(** At most one timer is pending, and it is the one [scrollTimeout] names. *)
Definition one_pending (w : World) : Prop :=
  timers w = []
  \/ exists tm, timers w = [tm] /\ scrollTimeout w = Some (timer_id tm).

(** A computation that leaves the pending timers and [scrollTimeout] as
    they are. *)
Definition keeps_timers {A} (m : M A) : Prop :=
  forall env w,
    timers (snd (m env w)) = timers w
    /\ scrollTimeout (snd (m env w)) = scrollTimeout w.

(** Wheel events with the times they arrive at. *)
Fixpoint burst (evs : list (Z * WheelEv)) : list Action :=
  match evs with
  | [] => []
  | (t, e) :: rest => ATime t :: AWheel e :: burst rest
  end.

(** Each event arrives less than 16 ms after the one before it, that is,
    before the emission the previous one scheduled. *)
Fixpoint in_window (prev : Z) (evs : list (Z * WheelEv)) : Prop :=
  match evs with
  | [] => True
  | (t, _) :: rest => prev <= t < prev + 16 /\ in_window t rest
  end.

(** The last event of a burst, its time, and the time since the event
    before it ([prev] is the time of the event before the burst). *)
Fixpoint last_event (prev t : Z) (e : WheelEv) (rest : list (Z * WheelEv))
  : Z * WheelEv * Z :=
  match rest with
  | [] => (t, e, t - prev)
  | (t', e') :: rest' => last_event t t' e' rest'
  end.

(* ================================================================== *)
(** ** Sample inputs *)

(** A network on which every request fails. *)
Definition env_offline : Env :=
  mkEnv (fun _ => Rejects) (Some (mkRect 0 0 200 100)) None (fun _ => false).

(** A network on which every request is answered with [{text: 'remote'}];
    the local clipboard holds ['local']. *)
Definition env_online : Env :=
  mkEnv (fun _ => Resolves (Json (Some (js "remote"))))
        (Some (mkRect 0 0 200 100)) (Some (js "local")) (fun _ => true).

(** The component after a handshake that returned [session_id = 'abc']. *)
Definition world_abc : World := with_sessionId (Some (js "abc")) (initial_world 1000).

Definition ctrl_c : KeyEv := mkKey (js "c") true false false false.
Definition ctrl_v : KeyEv := mkKey (js "v") true false false false.

(* ================================================================== *)
(** ** Notions the further properties are stated with *)

(** What a handler that sends [r] and logs a failure under [msg] appends to
    the trace. *)
Definition sent_and_logged (env : Env) (r : Request) (msg : string) : list Effect :=
  FetchEvent r
    :: match fetch env r with
       | Rejects => [ConsoleError msg]
       | Resolves _ => []
       end.

(** A request carries the session identifier [s]; when [s] is falsy it can
    only be a back or forward command. *)
Definition carries (s : option jsstring) (r : Request) : Prop :=
  session_id r = s
  /\ (falsy s = true -> exists n, body r = NavigateAction n).

(** [w'] comes after [w]: the session identifier is the same, the trace of
    [w] has only been extended, and every request added carries that
    identifier. *)
Definition extends (w w' : World) : Prop :=
  sessionId w' = sessionId w
  /\ exists tr, trace w' = trace w ++ tr
                /\ Forall (carries (sessionId w)) (requests tr).

(** A computation after which the world [extends] the one it started in,
    when it starts with session identifier [s]. *)
Definition extending (s : option jsstring) {A} (m : M A) : Prop :=
  forall env w, sessionId w = s -> extends w (snd (m env w)).

(** Every pending timer was scheduled under the current, truthy, session
    identifier. *)
Definition timers_tagged (w : World) : Prop :=
  Forall (fun tm => session_id (timer_request tm) = sessionId w
                    /\ falsy (sessionId w) = false) (timers w).

(** A computation that always completes normally. *)
Definition never_throws {A} (m : M A) : Prop :=
  forall env w, exists a, fst (m env w) = Normal a.

(** The handlers that call [e.preventDefault()] before anything else. *)
Definition prevents_default (a : Action) : bool :=
  match a with
  | AContextMenu _ | AWheel _ | ASubmit => true
  | _ => false
  end.

(** The position of a mouse event lies on the surface. *)
Definition on_surface (e : MouseEv) (rect : DOMRect) : Prop :=
  (rect_left rect <= clientX e /\ clientX e <= rect_left rect + rect_width rect
   /\ rect_top rect <= clientY e /\ clientY e <= rect_top rect + rect_height rect)%Q.

(** A mouse request whose coordinates are in the virtual resolution. *)
Definition in_virtual_range (r : Request) : Prop :=
  match body r with
  | MouseMove (Some x) (Some y) | MouseClick (Some x) (Some y) _ =>
      0 <= x <= 1280 /\ 0 <= y <= 720
  | _ => False
  end.

(** A host name: labels joined by dots. *)
Fixpoint hostname (first : jsstring) (rest : list jsstring) : jsstring :=
  match rest with
  | [] => first
  | l :: rest' => first ++ [46%N] ++ hostname l rest'
  end.

(** A label: one or more characters of [[\w-]]. *)
Definition is_label (l : jsstring) : Prop :=
  l <> [] /\ Forall (fun c => is_label_char c = true) l.

(** Well-formed UTF-16: every surrogate is half of a pair. *)
Inductive well_formed : jsstring -> Prop :=
| wf_nil : well_formed []
| wf_unit c s :
    is_high_surrogate c = false -> is_low_surrogate c = false ->
    well_formed s -> well_formed (c :: s)
| wf_pair h l s :
    is_high_surrogate h = true -> is_low_surrogate l = true ->
    well_formed s -> well_formed (h :: l :: s).

(** The first character, if there is one, is not white space. *)
Definition starts_clean (s : jsstring) : Prop :=
  match s with
  | [] => True
  | c :: _ => is_js_whitespace c = false
  end.

(** A character that needs no escaping in a query string: unreserved, or
    the [%] of an escape. *)
Definition is_query_safe (c : N) : Prop :=
  is_uri_unreserved c = true \/ c = 37%N.

(** A computation after which the world stands in relation [R] to the one
    it started in. *)
Definition respects (R : World -> World -> Prop) {A} (m : M A) : Prop :=
  forall env w, R w (snd (m env w)).

(** The navigation state is the same in both worlds. *)
Definition same_navigation (w w' : World) : Prop :=
  url w' = url w /\ isLoading w' = isLoading w.

(** The state of the scroll coalescer and of the event loop is the same in
    both worlds. *)
Definition same_scrolling (w w' : World) : Prop :=
  timers w' = timers w /\ scrollTimeout w' = scrollTimeout w
  /\ lastScrollTime w' = lastScrollTime w /\ clock w' = clock w
  /\ next_timer_id w' = next_timer_id w.

(** Every pending timer is an emission of the coalescer, due 16 ms after
    the last wheel event. *)
Definition timers_on_schedule (w : World) : Prop :=
  Forall (fun tm => timer_due tm = lastScrollTime w + 16
                    /\ exists d b, body (timer_request tm) = Scroll d b)
         (timers w).

(* ================================================================== *)
(** ** Signaling client and connection state

    The first effect of the component ([initBrowser] and its cleanup), the
    [onconnectionstatechange] handler it registers, and what the component
    renders.  The state these use that [World] does not have ([error],
    [isConnected], the [peerConnection] ref) is in [Client], next to the
    [World].  [initBrowser] is run in one piece: an unmount in the middle of
    the handshake is not part of the model, and neither is [ontrack]. *)

(** A thrown value: [error instanceof Error] with its [message], or
    anything else. *)
Inductive JsError : Type :=
| ErrorObject (message : string)
| OtherValue.

(** A session description: [{sdp, type}]. *)
Record Description : Type := mkDescription { sdp : jsstring; sdp_type : jsstring }.

(** The body of the answer to [POST /offer], once parsed. *)
Record OfferAnswer : Type := mkOfferAnswer {
  answer : Description;
  answer_session_id : option jsstring }.       (* [None]: no [session_id] in it *)

Record OfferResponse : Type := mkOfferResponse {
  response_ok : bool;                          (* response.ok *)
  response_json : JsError + OfferAnswer }.     (* await response.json() *)

(** What the platform and the backend answer during the handshake. *)
Record HandshakeEnv : Type := mkHandshakeEnv {
  new_RTCPeerConnection : option JsError;      (* [Some]: the constructor throws *)
  createOffer : JsError + Description;
  setLocalDescription : Description -> option JsError;
  fetch_offer : Description -> JsError + OfferResponse;
  setRemoteDescription : Description -> option JsError }.

Inductive PeerState : Type := peer_open | peer_closed.

(** [pc.connectionState] *)
Inductive ConnectionState : Type :=
| cs_new | cs_connecting | cs_connected | cs_disconnected | cs_failed | cs_closed.

Inductive SigEffect : Type :=
| NewPeerConnection                            (* new RTCPeerConnection({iceServers: ...}) *)
| CreateOffer                                  (* offerToReceiveVideo: true, offerToReceiveAudio: false *)
| SetLocalDescription (d : Description)
| PostOffer (d : Description)                  (* fetch(`${apiUrl}/offer`, ...) *)
| SetRemoteDescription (d : Description)
| LogEstablished                               (* console.log('WebRTC connection established') *)
| LogInitFailure                               (* console.error('Failed to initialize browser:', error) *)
| ClosePeerConnection.                         (* peerConnection.current.close() *)

Record Client : Type := mkClient {
  world : World;
  peerConnection : option PeerState;           (* useRef<RTCPeerConnection | null>(null) *)
  error : option string;                       (* useState<string | null>(null) *)
  isConnected : bool;                          (* useState(false) *)
  sig_trace : list SigEffect }.

Definition initial_client (t0 : Z) : Client :=
  mkClient (initial_world t0) None None false [].

(** Handshake computations: the client as state, exceptions with a value. *)
Definition Sig (A : Type) : Type := Client -> (JsError + A) * Client.

Definition hret {A} (a : A) : Sig A := fun c => (inr a, c).
Definition hthrow {A} (e : JsError) : Sig A := fun c => (inl e, c).
Definition hbind {A B} (m : Sig A) (k : A -> Sig B) : Sig B :=
  fun c =>
    match m c with
    | (inr a, c') => k a c'
    | (inl e, c') => (inl e, c')
    end.
Definition hcatch {A} (m : Sig A) (h : JsError -> Sig A) : Sig A :=
  fun c =>
    match m c with
    | (inr a, c') => (inr a, c')
    | (inl e, c') => h e c'
    end.

Declare Scope h_scope.
Delimit Scope h_scope with H.
Notation "x <- m ;; k" := (hbind m (fun x => k))
  (at level 61, m at next level, right associativity) : h_scope.
Notation "m ;; k" := (hbind m (fun _ => k))
  (at level 61, right associativity) : h_scope.

Definition sig_emit (e : SigEffect) : Sig unit :=
  fun c => (inr tt, mkClient (world c) (peerConnection c) (error c) (isConnected c)
                             (sig_trace c ++ [e])).

(** An awaited call that rejects with [Some e]. *)
Definition attempt (r : option JsError) : Sig unit :=
  match r with
  | Some e => hthrow e
  | None => hret tt
  end.

(** An awaited call that rejects or gives a value. *)
Definition await {A} (r : JsError + A) : Sig A :=
  match r with
  | inl e => hthrow e
  | inr a => hret a
  end.

Definition set_peerConnection (p : option PeerState) : Sig unit :=
  fun c => (inr tt, mkClient (world c) p (error c) (isConnected c) (sig_trace c)).

Definition setError (msg : string) : Sig unit :=
  fun c => (inr tt, mkClient (world c) (peerConnection c) (Some msg) (isConnected c)
                             (sig_trace c)).

Definition setIsConnected (b : bool) : Sig unit :=
  fun c => (inr tt, mkClient (world c) (peerConnection c) (error c) b (sig_trace c)).

(** A computation on the [World], run inside the client. *)
Definition on_world (env : Env) (m : M unit) : Sig unit :=
  fun c => (inr tt, mkClient (snd (m env (world c))) (peerConnection c) (error c)
                             (isConnected c) (sig_trace c)).

(** [error instanceof Error ? error.message : 'Unknown error'] *)
Definition message_of (e : JsError) : string :=
  match e with
  | ErrorObject message => message
  | OtherValue => "Unknown error"
  end.

Definition initBrowser (henv : HandshakeEnv) (env : Env) : Sig unit :=
  (hcatch
     (sig_emit NewPeerConnection ;;
      attempt (new_RTCPeerConnection henv) ;;
      set_peerConnection (Some peer_open) ;;
      sig_emit CreateOffer ;;
      offer <- await (createOffer henv) ;;
      sig_emit (SetLocalDescription offer) ;;
      attempt (setLocalDescription henv offer) ;;
      sig_emit (PostOffer offer) ;;
      response <- await (fetch_offer henv offer) ;;
      (if response_ok response then hret tt
       else hthrow (ErrorObject "Failed to send offer")) ;;
      a <- await (response_json response) ;;
      on_world env (setSessionId (answer_session_id a)) ;;
      sig_emit (SetRemoteDescription (answer a)) ;;
      attempt (setRemoteDescription henv (answer a)) ;;
      sig_emit LogEstablished)
     (fun e =>
        sig_emit LogInitFailure ;;
        setError (message_of e)))%H.

(** The cleanup of the first effect, on unmount. *)
Definition close_on_unmount : Sig unit :=
  fun c =>
    match peerConnection c with
    | Some _ =>
        (sig_emit ClosePeerConnection ;; set_peerConnection (Some peer_closed))%H c
    | None => (inr tt, c)
    end.

(** [pc.onconnectionstatechange]:
    [setIsConnected(pc.connectionState === 'connected')]. *)
Definition onconnectionstatechange (st : ConnectionState) : Sig unit :=
  setIsConnected (match st with cs_connected => true | _ => false end).

Definition notify (c : Client) (st : ConnectionState) : Client :=
  snd (onconnectionstatechange st c).

(** What is on the screen below the navigation bar. *)
Inductive Surface : Type :=
| ErrorMessage (msg : string)                  (* the red message *)
| Video (visible : bool).                      (* visibility: visible / hidden *)

Record View : Type := mkView {
  surface : Surface;
  connecting_overlay : bool }.                 (* the "Connecting..." layer *)

(** [error ? ... : ...]: [null] and the empty string are falsy. *)
Definition has_error (c : Client) : bool :=
  match error c with
  | Some (String _ _) => true
  | Some EmptyString => false
  | None => false
  end.

Definition render (c : Client) : View :=
  mkView
    (if has_error c
     then ErrorMessage (match error c with Some msg => msg | None => EmptyString end)
     else Video (isConnected c))
    (negb (isConnected c) && negb (has_error c)).

(** A handshake on which every call succeeds and the backend answers with
    the description [d] and the session identifier [sid]. *)
Definition handshake_ok (d : Description) (sid : option jsstring) : HandshakeEnv :=
  mkHandshakeEnv None (inr (mkDescription (js "v=0") (js "offer")))
    (fun _ => None)
    (fun _ => inr (mkOfferResponse true (inr (mkOfferAnswer d sid))))
    (fun _ => None).

(** Every character class of a pattern is within [P]. *)
Fixpoint classes_within (P : N -> Prop) (r : regex) : Prop :=
  match r with
  | Fail | Eps => True
  | Cls p => forall c, p c = true -> P c
  | Seq r1 r2 | Alt r1 r2 => classes_within P r1 /\ classes_within P r2
  | Star r1 => classes_within P r1
  end.

(** A character that can occur in a text taken for a URL: one of
    [[\w- ./?%&=]], or the colon of the scheme. *)
Definition is_url_char (c : N) : Prop := is_path_char c = true \/ c = 58%N.

(* ================================================================== *)
(** * Properties *)

(** ** Numbers *)

Lemma Math_round_comp (a b : Q) : (a == b)%Q -> Math_round a = Math_round b.
Proof.
  intro H. unfold Math_round. apply Qfloor_comp. rewrite H. reflexivity.
Qed.

Lemma Math_round_Z (z : Z) : Math_round (inject_Z z) = z.
Proof.
  unfold Math_round.
  assert (L : (z <= Qfloor (inject_Z z + (1 # 2)))%Z).
  { rewrite <- (Qfloor_Z z) at 1. apply Qfloor_resp_le.
    rewrite <- (Qplus_0_r (inject_Z z)) at 1.
    apply Qplus_le_r. discriminate. }
  assert (U : (Qfloor (inject_Z z + (1 # 2)) < z + 1)%Z).
  { rewrite Zlt_Qlt. eapply Qle_lt_trans; [apply Qfloor_le|].
    rewrite inject_Z_plus. apply Qplus_lt_r. reflexivity. }
  lia.
Qed.

(** A number less than a half away from an integer rounds to it. *)
Lemma Math_round_within (q : Q) (z : Z) :
  (inject_Z z - (1 # 2) <= q)%Q -> (q < inject_Z z + (1 # 2))%Q -> Math_round q = z.
Proof.
  intros Lo Hi. unfold Math_round.
  assert (A : (z <= Qfloor (q + (1 # 2)))%Z).
  { rewrite <- (Qfloor_Z z). apply Qfloor_resp_le. lra. }
  assert (B : (Qfloor (q + (1 # 2)) < z + 1)%Z).
  { rewrite Zlt_Qlt. eapply Qle_lt_trans; [apply Qfloor_le|].
    rewrite inject_Z_plus. change (inject_Z 1) with 1%Q. lra. }
  lia.
Qed.

(** [Math.round q] is the integer [n] with [n - 1/2 <= q < n + 1/2]: the
    nearest one, the upper one at a tie. *)
Lemma Math_round_spec (q : Q) :
  (inject_Z (Math_round q) - (1 # 2) <= q /\ q < inject_Z (Math_round q) + (1 # 2))%Q.
Proof.
  unfold Math_round.
  pose proof (Qfloor_le (q + (1 # 2))) as Lo. pose proof (Qlt_floor (q + (1 # 2))) as Hi.
  rewrite inject_Z_plus in Hi. change (inject_Z 1) with 1%Q in Hi. split; lra.
Qed.

Lemma Math_round_mono (a b : Q) : (a <= b)%Q -> Math_round a <= Math_round b.
Proof.
  intro L. unfold Math_round. apply Qfloor_resp_le. lra.
Qed.

Lemma Math_round_below (q : Q) (z : Z) :
  (q < inject_Z z + (1 # 2))%Q -> Math_round q <= z.
Proof.
  intro L. unfold Math_round.
  assert (B : (Qfloor (q + (1 # 2)) < z + 1)%Z).
  { rewrite Zlt_Qlt. eapply Qle_lt_trans; [apply Qfloor_le|].
    rewrite inject_Z_plus. change (inject_Z 1) with 1%Q. lra. }
  lia.
Qed.

Lemma Math_round_nonneg (q : Q) : (0 <= q)%Q -> 0 <= Math_round q.
Proof.
  intro L. rewrite <- (Math_round_Z 0). apply Math_round_mono. exact L.
Qed.

(** ** binary64 arithmetic *)

Lemma pow2_pos (e : Z) : (0 < pow2 e)%Q.
Proof. unfold pow2. apply Qpower_0_lt. reflexivity. Qed.

Lemma pow2_add (a b : Z) : (pow2 (a + b) == pow2 a * pow2 b)%Q.
Proof. unfold pow2. apply Qpower_plus. discriminate. Qed.

Lemma pow2_opp_cancel (e : Z) : (pow2 (- e) * pow2 e == 1)%Q.
Proof.
  rewrite <- pow2_add. replace (- e + e) with 0 by lia. reflexivity.
Qed.

Lemma pow2_inject (e : Z) : 0 <= e -> (pow2 e == inject_Z (2 ^ e))%Q.
Proof. intro H. unfold pow2. rewrite Zpower_Qpower by exact H. reflexivity. Qed.

Lemma pow2_lt_inv (a b : Z) : (pow2 a < pow2 b)%Q -> a < b.
Proof.
  intro H. destruct (Z_lt_le_dec a b) as [L|L]; [exact L|].
  exfalso. apply (Qlt_not_le _ _ H). unfold pow2.
  apply Qpower_le_compat_l; [exact L | discriminate].
Qed.

(** [round_half_even] is within a half of its argument. *)
Lemma round_half_even_error (y : Q) :
  (- (1 # 2) <= inject_Z (round_half_even y) - y
   /\ inject_Z (round_half_even y) - y <= 1 # 2)%Q.
Proof.
  unfold round_half_even.
  pose proof (Qfloor_le y) as Lo. pose proof (Qlt_floor y) as Hi.
  rewrite inject_Z_plus in Hi. change (inject_Z 1) with 1%Q in Hi.
  destruct (y - inject_Z (Qfloor y) ?= 1 # 2)%Q eqn:C.
  - apply Qeq_alt in C.
    destruct (Z.even (Qfloor y)); rewrite ?inject_Z_plus;
      change (inject_Z 1) with 1%Q; lra.
  - apply Qlt_alt in C. lra.
  - apply Qgt_alt in C. rewrite inject_Z_plus. change (inject_Z 1) with 1%Q. lra.
Qed.

Lemma round_half_even_Z (z : Z) : round_half_even (inject_Z z) = z.
Proof.
  unfold round_half_even. rewrite Qfloor_Z.
  assert (C : (inject_Z z - inject_Z z ?= 1 # 2)%Q = Lt).
  { apply Qlt_alt. setoid_replace (inject_Z z - inject_Z z)%Q with 0%Q by ring. reflexivity. }
  rewrite C. reflexivity.
Qed.

Lemma round_half_even_comp (a b : Q) : (a == b)%Q -> round_half_even a = round_half_even b.
Proof.
  intro E. unfold round_half_even. rewrite (Qfloor_comp _ _ E).
  assert (C : (a - inject_Z (Qfloor b) ?= 1 # 2)%Q = (b - inject_Z (Qfloor b) ?= 1 # 2)%Q).
  { rewrite E. reflexivity. }
  rewrite C. reflexivity.
Qed.

(** [2 ^ ilog2 q <= q] for a positive [q]. *)
Lemma ilog2_le (q : Q) : (0 < q)%Q -> (pow2 (ilog2 q) <= q)%Q.
Proof.
  intro P. unfold ilog2.
  set (a := Z.log2 (Qnum q)). set (b := Z.log2 (Zpos (Qden q))).
  destruct (Qle_bool (pow2 (a - b)) q) eqn:T; [apply Qle_bool_iff; exact T|].
  assert (Pn : 0 < Qnum q).
  { destruct q as [n d]. unfold Qlt in P. simpl in *. lia. }
  destruct (Z.log2_spec (Qnum q) Pn) as [An _]. fold a in An.
  destruct (Z.log2_spec (Zpos (Qden q)) (Pos2Z.is_pos _)) as [_ Bd]. fold b in Bd.
  assert (A0 : 0 <= a) by apply Z.log2_nonneg.
  assert (B0 : 0 <= b) by apply Z.log2_nonneg.
  replace (a - b - 1) with (a + - (b + 1)) by lia.
  rewrite pow2_add.
  assert (I : (pow2 (- (b + 1)) * pow2 (b + 1) == 1)%Q) by apply pow2_opp_cancel.
  rewrite (pow2_inject a A0).
  rewrite (pow2_inject (b + 1)) in I by lia.
  assert (Q1 : (inject_Z (2 ^ a) <= inject_Z (Qnum q))%Q) by (rewrite <- Zle_Qle; exact An).
  assert (Q2 : (inject_Z (Zpos (Qden q)) <= inject_Z (2 ^ (b + 1)))%Q)
    by (rewrite <- Zle_Qle; replace (b + 1) with (Z.succ b) by lia; lia).
  assert (Eq : (q == inject_Z (Qnum q) / inject_Z (Zpos (Qden q)))%Q)
    by (rewrite <- (Qmake_Qdiv (Qnum q) (Qden q)); destruct q; reflexivity).
  assert (Pd : (0 < inject_Z (Zpos (Qden q)))%Q) by reflexivity.
  assert (Pp : (0 < pow2 (- (b + 1)))%Q) by apply pow2_pos.
  set (n := inject_Z (Qnum q)) in *. set (d := inject_Z (Zpos (Qden q))) in *.
  set (A := inject_Z (2 ^ a)) in *. set (B := inject_Z (2 ^ (b + 1))) in *.
  set (r := pow2 (- (b + 1))) in *.
  rewrite Eq. apply Qle_shift_div_l; [exact Pd|].
  (* A * r * d <= n, with r * B == 1, d <= B, A <= n *)
  assert (PA : (0 <= A)%Q).
  { unfold A. change 0%Q with (inject_Z 0). rewrite <- Zle_Qle. apply Z.pow_nonneg. lia. }
  assert (S1 : (r * d <= 1)%Q).
  { rewrite <- I. apply Qmult_le_l; [exact Pp | exact Q2]. }
  assert (S2 : (A * (r * d) <= A * 1)%Q).
  { rewrite (Qmult_comm A (r * d)), (Qmult_comm A 1).
    apply Qmult_le_compat_r; assumption. }
  lra.
Qed.

Lemma round53_eq (q : Q) :
  (round53 q == inject_Z (round_half_even (q * pow2 (- (ilog2 q - 52)))) * pow2 (ilog2 q - 52))%Q.
Proof. unfold round53. apply Qred_correct. Qed.

(** The error of rounding a positive number to 53 bits is at most
    [2^-53] times the number. *)
Lemma round53_error (q : Q) :
  (0 < q)%Q ->
  (- (q * unit_roundoff) <= round53 q - q /\ round53 q - q <= q * unit_roundoff)%Q.
Proof.
  intro P. rewrite round53_eq.
  set (e := ilog2 q - 52).
  set (y := (q * pow2 (- e))%Q).
  destruct (round_half_even_error y) as [Lo Hi].
  set (m := inject_Z (round_half_even y)) in *.
  pose proof (pow2_pos e) as Pe.
  assert (Ey : (q == y * pow2 e)%Q).
  { unfold y. rewrite <- Qmult_assoc, pow2_opp_cancel. ring. }
  assert (B : (pow2 e * (1 # 2) <= q * unit_roundoff)%Q).
  { unfold unit_roundoff, e.
    replace (ilog2 q - 52) with (ilog2 q + - 52) by lia.
    rewrite pow2_add.
    pose proof (ilog2_le q P) as L.
    assert (C : (pow2 (- 52) * (1 # 2) == pow2 (- 53))%Q) by reflexivity.
    rewrite <- Qmult_assoc, C.
    apply Qmult_le_compat_r; [exact L | apply Qlt_le_weak, pow2_pos]. }
  assert (D : (m * pow2 e - q == (m - y) * pow2 e)%Q) by (rewrite Ey at 1; ring).
  assert (U : ((m - y) * pow2 e <= (1 # 2) * pow2 e)%Q)
    by (apply Qmult_le_compat_r; [exact Hi | apply Qlt_le_weak, Pe]).
  assert (V : (- (1 # 2) * pow2 e <= (m - y) * pow2 e)%Q)
    by (apply Qmult_le_compat_r; [exact Lo | apply Qlt_le_weak, Pe]).
  rewrite D. split; lra.
Qed.

Lemma unit_roundoff_small : (0 < unit_roundoff /\ unit_roundoff < 1)%Q.
Proof. split; reflexivity. Qed.

Lemma round53_pos (q : Q) : (0 < q)%Q -> (0 < round53 q)%Q.
Proof.
  intro P. destruct (round53_error q P) as [Lo _].
  destruct unit_roundoff_small as [_ S].
  assert (q * unit_roundoff < q * 1)%Q.
  { rewrite (Qmult_comm q unit_roundoff), (Qmult_comm q 1).
    apply Qmult_lt_compat_r; assumption. }
  lra.
Qed.

Lemma fl_error (q : Q) :
  (- (Qabs q * unit_roundoff) <= fl q - q /\ fl q - q <= Qabs q * unit_roundoff)%Q.
Proof.
  unfold fl. destruct (q ?= 0)%Q eqn:C.
  - apply Qeq_alt in C. rewrite C. simpl. split; discriminate.
  - apply Qlt_alt in C.
    assert (P : (0 < - q)%Q) by lra.
    destruct (round53_error (- q) P) as [Lo Hi].
    assert (A : (Qabs q == - q)%Q) by (apply Qabs_neg; lra).
    rewrite A. split; lra.
  - apply Qgt_alt in C.
    destruct (round53_error q C) as [Lo Hi].
    assert (A : (Qabs q == q)%Q) by (apply Qabs_pos; lra).
    rewrite A. split; lra.
Qed.

Lemma fl_sign (q : Q) :
  ((0 < q -> 0 < fl q) /\ (q < 0 -> fl q < 0) /\ (0 <= q -> 0 <= fl q))%Q.
Proof.
  unfold fl. destruct (q ?= 0)%Q eqn:C.
  - apply Qeq_alt in C. repeat split; intro H; lra.
  - apply Qlt_alt in C.
    assert (P : (0 < - q)%Q) by lra. pose proof (round53_pos _ P).
    repeat split; intro H'; lra.
  - apply Qgt_alt in C. pose proof (round53_pos _ C).
    repeat split; intro H'; lra.
Qed.

(** [q < 2 ^ (ilog2 q + 1)]: together with [ilog2_le], the significand
    [q * 2 ^ (52 - ilog2 q)] that [round53] rounds is in [[2^52, 2^53)]. *)
Lemma ilog2_lt (q : Q) : (0 < q)%Q -> (q < pow2 (ilog2 q + 1))%Q.
Proof.
  intro P. unfold ilog2.
  set (a := Z.log2 (Qnum q)). set (b := Z.log2 (Zpos (Qden q))).
  destruct (Qle_bool (pow2 (a - b)) q) eqn:T.
  2:{ replace (a - b - 1 + 1) with (a - b) by lia.
      apply Qnot_le_lt. intro L. apply Qle_bool_iff in L. congruence. }
  assert (Pn : 0 < Qnum q).
  { destruct q as [n d]. unfold Qlt in P. simpl in *. lia. }
  destruct (Z.log2_spec (Qnum q) Pn) as [_ An]. fold a in An.
  destruct (Z.log2_spec (Zpos (Qden q)) (Pos2Z.is_pos _)) as [Bd _]. fold b in Bd.
  assert (A0 : 0 <= a) by apply Z.log2_nonneg.
  assert (B0 : 0 <= b) by apply Z.log2_nonneg.
  replace (a - b + 1) with (a + 1 + - b) by lia.
  rewrite pow2_add.
  assert (I : (pow2 (- b) * pow2 b == 1)%Q) by apply pow2_opp_cancel.
  rewrite (pow2_inject (a + 1)) by lia.
  rewrite (pow2_inject b B0) in I.
  assert (Q1 : (inject_Z (Qnum q) < inject_Z (2 ^ (a + 1)))%Q)
    by (rewrite <- Zlt_Qlt; replace (a + 1) with (Z.succ a) by lia; exact An).
  assert (Q2 : (inject_Z (2 ^ b) <= inject_Z (Zpos (Qden q)))%Q)
    by (rewrite <- Zle_Qle; exact Bd).
  assert (Eq : (q == inject_Z (Qnum q) / inject_Z (Zpos (Qden q)))%Q)
    by (rewrite <- (Qmake_Qdiv (Qnum q) (Qden q)); destruct q; reflexivity).
  assert (Pd : (0 < inject_Z (Zpos (Qden q)))%Q) by reflexivity.
  assert (Pp : (0 < pow2 (- b))%Q) by apply pow2_pos.
  set (n := inject_Z (Qnum q)) in *. set (d := inject_Z (Zpos (Qden q))) in *.
  set (A := inject_Z (2 ^ (a + 1))) in *. set (B := inject_Z (2 ^ b)) in *.
  set (r := pow2 (- b)) in *.
  rewrite Eq. apply Qlt_shift_div_r; [exact Pd|].
  assert (S1 : (1 <= r * d)%Q).
  { rewrite <- I. apply Qmult_le_l; [exact Pp | exact Q2]. }
  assert (PA : (0 < A)%Q).
  { unfold A. change 0%Q with (inject_Z 0). rewrite <- Zlt_Qlt.
    apply Z.pow_pos_nonneg; lia. }
  assert (S2 : (A * 1 <= A * (r * d))%Q).
  { rewrite (Qmult_comm A (r * d)), (Qmult_comm A 1).
    apply Qmult_le_compat_r; [exact S1 | lra]. }
  lra.
Qed.

(** A number with a significand of at most 53 bits is not changed. *)
Lemma round53_exact (q : Q) (z k : Z) :
  0 < z < 2 ^ 53 -> (q == inject_Z z * pow2 k)%Q -> (round53 q == q)%Q.
Proof.
  intros [Z0 Z1] E.
  assert (Pz : (0 < inject_Z z)%Q) by (change 0%Q with (inject_Z 0); rewrite <- Zlt_Qlt; exact Z0).
  pose proof (pow2_pos k) as Pk.
  assert (P : (0 < q)%Q).
  { rewrite E. apply Qmult_lt_0_compat; assumption. }
  rewrite round53_eq. set (e := ilog2 q - 52).
  assert (Le : e <= k).
  { pose proof (ilog2_le q P) as L.
    assert (U : (q < pow2 (53 + k))%Q).
    { rewrite E, pow2_add, (pow2_inject 53) by lia.
      apply Qmult_lt_compat_r; [exact Pk|]. rewrite <- Zlt_Qlt. exact Z1. }
    assert (ilog2 q < 53 + k) by (apply pow2_lt_inv; lra). unfold e. lia. }
  assert (Y : (q * pow2 (- e) == inject_Z (z * 2 ^ (k - e)))%Q).
  { rewrite inject_Z_mult, <- (pow2_inject (k - e)) by lia.
    replace (k - e) with (k + - e) by lia. rewrite pow2_add, E. ring. }
  rewrite (round_half_even_comp _ _ Y), round_half_even_Z.
  rewrite inject_Z_mult, <- (pow2_inject (k - e)) by lia.
  rewrite E, <- Qmult_assoc, <- pow2_add.
  replace (k - e + e) with k by lia. reflexivity.
Qed.

Lemma fl_exact (q : Q) (z k : Z) :
  Z.abs z < 2 ^ 53 -> (q == inject_Z z * pow2 k)%Q -> (fl q == q)%Q.
Proof.
  intros Az E. pose proof (pow2_pos k) as Pk.
  unfold fl. destruct (q ?= 0)%Q eqn:C.
  - apply Qeq_alt in C. rewrite C. reflexivity.
  - apply Qlt_alt in C.
    assert (Nz : z < 0).
    { destruct (Z_lt_le_dec z 0) as [L|L]; [exact L|]. exfalso.
      assert ((0 <= inject_Z z)%Q) by (change 0%Q with (inject_Z 0); rewrite <- Zle_Qle; exact L).
      assert ((0 <= inject_Z z * pow2 k)%Q) by (apply Qmult_le_0_compat; lra).
      lra. }
    rewrite (round53_exact (- q) (- z) k); [ring | lia |].
    rewrite E, inject_Z_opp. ring.
  - apply Qgt_alt in C.
    assert (Pz : 0 < z).
    { destruct (Z_lt_le_dec 0 z) as [L|L]; [exact L|]. exfalso.
      assert ((inject_Z z <= 0)%Q) by (change 0%Q with (inject_Z 0); rewrite <- Zle_Qle; exact L).
      assert ((inject_Z z * pow2 k <= 0 * pow2 k)%Q)
        by (apply Qmult_le_compat_r; lra).
      lra. }
    apply (round53_exact q z k); [lia | exact E].
Qed.

(** An integer below [2^53] in size is a binary64 value. *)
Lemma fl_Z (z : Z) : Z.abs z < 2 ^ 53 -> (fl (inject_Z z) == inject_Z z)%Q.
Proof.
  intro H. apply (fl_exact _ z 0 H). change (pow2 0) with 1%Q. ring.
Qed.

(** The rounded number has a significand of 53 bits. *)
Lemma round53_representable (q : Q) :
  (0 < q)%Q ->
  exists z, 2 ^ 52 <= z <= 2 ^ 53
            /\ (round53 q == inject_Z z * pow2 (ilog2 q - 52))%Q.
Proof.
  intro P. set (e := ilog2 q - 52).
  set (y := (q * pow2 (- e))%Q).
  exists (round_half_even y). split; [|apply round53_eq].
  destruct (round_half_even_error y) as [Lo Hi].
  pose proof (pow2_pos (- e)) as Pe.
  assert (L : (inject_Z (2 ^ 52) <= y)%Q).
  { rewrite <- (pow2_inject 52) by lia.
    replace 52 with (ilog2 q + - e) by (unfold e; lia).
    rewrite pow2_add. unfold y.
    apply Qmult_le_compat_r; [apply ilog2_le; exact P | apply Qlt_le_weak, Pe]. }
  assert (U : (y < inject_Z (2 ^ 53))%Q).
  { rewrite <- (pow2_inject 53) by lia.
    replace 53 with (ilog2 q + 1 + - e) by (unfold e; lia).
    rewrite pow2_add. unfold y.
    apply Qmult_lt_compat_r; [exact Pe | apply ilog2_lt; exact P]. }
  set (m := round_half_even y) in *.
  assert (A : (inject_Z (2 ^ 52 - 1) < inject_Z m)%Q).
  { replace (2 ^ 52 - 1) with (2 ^ 52 + -1) by lia.
    rewrite inject_Z_plus. change (inject_Z (-1)) with (-1)%Q. lra. }
  assert (B : (inject_Z m < inject_Z (2 ^ 53 + 1))%Q).
  { rewrite inject_Z_plus. change (inject_Z 1) with 1%Q. lra. }
  rewrite <- Zlt_Qlt in A, B. lia.
Qed.

Lemma fl_representable (q : Q) :
  exists z k, Z.abs z <= 2 ^ 53 /\ (fl q == inject_Z z * pow2 k)%Q.
Proof.
  unfold fl. destruct (q ?= 0)%Q eqn:C.
  - exists 0, 0. split; [discriminate | reflexivity].
  - apply Qlt_alt in C.
    assert (P : (0 < - q)%Q) by lra.
    destruct (round53_representable (- q) P) as (z & Bz & E).
    exists (- z), (ilog2 (- q) - 52). split; [lia|].
    rewrite E, inject_Z_opp. ring.
  - apply Qgt_alt in C.
    destruct (round53_representable q C) as (z & Bz & E).
    exists z, (ilog2 q - 52). split; [lia | exact E].
Qed.

(** The relative error of one rounding, on a number that is not negative. *)
Lemma fl_nonneg (q : Q) :
  (0 <= q)%Q ->
  (q * (1 - unit_roundoff) <= fl q /\ fl q <= q * (1 + unit_roundoff))%Q.
Proof.
  intro P. destruct (fl_error q) as [Lo Hi].
  assert (A : (Qabs q == q)%Q) by (apply Qabs_pos; exact P).
  rewrite A in Lo, Hi. split; lra.
Qed.

Lemma Qmult_le_mono (a b c d : Q) :
  (0 <= a)%Q -> (a <= b)%Q -> (0 <= c)%Q -> (c <= d)%Q -> (a * c <= b * d)%Q.
Proof.
  intros A0 Ab C0 Cd.
  apply Qle_trans with (b * c)%Q.
  - apply Qmult_le_compat_r; assumption.
  - rewrite (Qmult_comm b c), (Qmult_comm b d).
    apply Qmult_le_compat_r; [exact Cd | lra].
Qed.

(** [x * fl a], rounded: two roundings away from [x * a]. *)
Lemma two_roundings (x a : Q) :
  (0 <= x)%Q -> (0 <= a)%Q ->
  (x * a * ((1 - unit_roundoff) * (1 - unit_roundoff)) <= fmul x (fl a)
   /\ fmul x (fl a) <= x * a * ((1 + unit_roundoff) * (1 + unit_roundoff)))%Q.
Proof.
  intros X A. unfold fmul.
  destruct (fl_nonneg a A) as [Ka Kb].
  destruct unit_roundoff_small as [U0 U1].
  assert (K0 : (0 <= fl a)%Q) by (apply fl_sign; exact A).
  assert (T0 : (0 <= x * fl a)%Q) by (apply Qmult_le_0_compat; assumption).
  destruct (fl_nonneg (x * fl a) T0) as [Pa Pb].
  assert (M1 : (x * (a * (1 - unit_roundoff)) <= x * fl a)%Q)
    by (apply Qmult_le_mono; try lra; apply Qmult_le_0_compat; lra).
  assert (M2 : (x * fl a <= x * (a * (1 + unit_roundoff)))%Q)
    by (apply Qmult_le_mono; lra).
  assert (M3 : (x * (a * (1 - unit_roundoff)) * (1 - unit_roundoff)
                <= x * fl a * (1 - unit_roundoff))%Q)
    by (apply Qmult_le_compat_r; lra).
  assert (M4 : (x * fl a * (1 + unit_roundoff)
                <= x * (a * (1 + unit_roundoff)) * (1 + unit_roundoff))%Q)
    by (apply Qmult_le_compat_r; lra).
  split.
  - eapply Qle_trans; [|exact Pa]. eapply Qle_trans; [|exact M3].
    apply Qle_lteq. right. ring.
  - eapply Qle_trans; [exact Pb|]. eapply Qle_trans; [exact M4|].
    apply Qle_lteq. right. ring.
Qed.

(** The size of a rounded number, against the size of the number. *)
Lemma fl_abs_bounds (q : Q) :
  (Qabs q * (1 - unit_roundoff) <= Qabs (fl q)
   /\ Qabs (fl q) <= Qabs q * (1 + unit_roundoff))%Q.
Proof.
  destruct (fl_error q) as [Lo Hi]. destruct (fl_sign q) as (_ & Ng & Ps).
  destruct (Qlt_le_dec q 0) as [N|P].
  - specialize (Ng N).
    assert (A : (Qabs q == - q)%Q) by (apply Qabs_neg; lra).
    assert (B : (Qabs (fl q) == - fl q)%Q) by (apply Qabs_neg; lra).
    rewrite A in *. rewrite B.
    assert (D1 : (- q * (1 - unit_roundoff) == - q - - q * unit_roundoff)%Q) by ring.
    assert (D2 : (- q * (1 + unit_roundoff) == - q + - q * unit_roundoff)%Q) by ring.
    rewrite D1, D2. set (qu := (- q * unit_roundoff)%Q) in *. split; lra.
  - specialize (Ps P).
    assert (A : (Qabs q == q)%Q) by (apply Qabs_pos; lra).
    assert (B : (Qabs (fl q) == fl q)%Q) by (apply Qabs_pos; lra).
    rewrite A in *. rewrite B.
    assert (D1 : (q * (1 - unit_roundoff) == q - q * unit_roundoff)%Q) by ring.
    assert (D2 : (q * (1 + unit_roundoff) == q + q * unit_roundoff)%Q) by ring.
    rewrite D1, D2. set (qu := (q * unit_roundoff)%Q) in *. split; lra.
Qed.

(** Sample values: [0.1] is not a binary64 value and is rounded; a tie goes
    to the even significand ([2^53 + 1] down, [2^53 + 3] up); an integer
    below [2^53] is kept. *)
Lemma fl_examples :
  fl (1 # 10) = (3602879701896397 # 36028797018963968)%Q
  /\ fl 9007199254740993 = 9007199254740992%Q
  /\ fl 9007199254740995 = 9007199254740996%Q
  /\ fl (-9007199254740993) = (-9007199254740992)%Q
  /\ fl 9007199254740991 = 9007199254740991%Q
  /\ fmul 95 (fdiv 720 608) = (7916483719987199 # 70368744177664)%Q.
Proof. repeat split; vm_compute; reflexivity. Qed.

(** ** Coordinate mapper *)

Lemma js_div_pos (a b : Q) : (0 < b)%Q -> js_div a b = Some (fdiv a b).
Proof.
  intro H. unfold js_div.
  destruct (Qeq_bool b 0) eqn:E; [|reflexivity].
  apply Qeq_bool_iff in E. rewrite E in H. discriminate H.
Qed.

Lemma to_virtual_pos (x extent size : Q) :
  (0 < size)%Q ->
  to_virtual x extent size = Some (Math_round (fmul x (fdiv extent size))).
Proof.
  intro H. unfold to_virtual. rewrite (js_div_pos _ _ H). reflexivity.
Qed.

(** The quotient and the product are each rounded once; on an extent of at
    most 1280 and a position that is at most one rounding outside the
    surface, the two roundings move the product by less than [2^-30]. *)
Lemma scaled_close (x size : Q) (E : Z) :
  (0 < size)%Q -> 0 <= E <= 1280 ->
  (0 <= x)%Q -> (x <= size * (1 + unit_roundoff))%Q ->
  (0 <= x * inject_Z E / size
   /\ x * inject_Z E / size <= inject_Z E * (1 + unit_roundoff)
   /\ x * inject_Z E / size - pow2 (-30) <= fmul x (fdiv (inject_Z E) size)
   /\ fmul x (fdiv (inject_Z E) size) <= x * inject_Z E / size + pow2 (-30)
   /\ 0 <= fmul x (fdiv (inject_Z E) size))%Q.
Proof.
  intros Hs [E0 E1] X0 X1.
  assert (Ns : ~ (size == 0)%Q) by (intro Z; rewrite Z in Hs; discriminate Hs).
  assert (I0 : (0 <= inject_Z E)%Q)
    by (change 0%Q with (inject_Z 0); rewrite <- Zle_Qle; exact E0).
  assert (I1 : (inject_Z E <= 1280)%Q)
    by (change 1280%Q with (inject_Z 1280); rewrite <- Zle_Qle; exact E1).
  assert (A0 : (0 <= inject_Z E / size)%Q).
  { apply Qle_shift_div_l; [exact Hs|]. lra. }
  destruct unit_roundoff_small as [U0 U1].
  assert (Eq : (x * inject_Z E / size == x * (inject_Z E / size))%Q) by (field; exact Ns).
  assert (Q0 : (0 <= x * (inject_Z E / size))%Q) by (apply Qmult_le_0_compat; assumption).
  assert (Q1 : (x * (inject_Z E / size) <= inject_Z E * (1 + unit_roundoff))%Q).
  { apply Qle_trans with (size * (1 + unit_roundoff) * (inject_Z E / size))%Q.
    - apply Qmult_le_compat_r; assumption.
    - apply Qle_lteq. right. field. exact Ns. }
  assert (Q2 : (x * (inject_Z E / size) <= 2560)%Q).
  { eapply Qle_trans; [exact Q1|].
    setoid_replace 2560%Q with (1280 * 2)%Q by reflexivity.
    apply Qmult_le_mono; lra. }
  destruct (two_roundings x (inject_Z E / size) X0 A0) as [Lo Hi].
  change (fl (inject_Z E / size)) with (fdiv (inject_Z E) size) in Lo, Hi.
  assert (N1 : ((1 + unit_roundoff) * (1 + unit_roundoff) <= 1 + pow2 (-51))%Q)
    by (apply Qle_bool_iff; vm_compute; reflexivity).
  assert (N2 : (1 - pow2 (-51) <= (1 - unit_roundoff) * (1 - unit_roundoff))%Q)
    by (apply Qle_bool_iff; vm_compute; reflexivity).
  assert (N3 : (0 <= 1 - pow2 (-51))%Q)
    by (apply Qle_bool_iff; vm_compute; reflexivity).
  assert (N4 : (2560 * pow2 (-51) <= pow2 (-30))%Q)
    by (apply Qle_bool_iff; vm_compute; reflexivity).
  assert (N5 : (0 <= pow2 (-51))%Q) by (apply Qlt_le_weak, pow2_pos).
  set (q := (x * (inject_Z E / size))%Q) in *.
  set (p := fmul x (fdiv (inject_Z E) size)) in *.
  set (u := unit_roundoff) in *.
  assert (H1 : (q * ((1 + u) * (1 + u)) <= q * (1 + pow2 (-51)))%Q)
    by (apply Qmult_le_mono; lra).
  assert (H2 : (q * (1 - pow2 (-51)) <= q * ((1 - u) * (1 - u)))%Q)
    by (apply Qmult_le_mono; lra).
  assert (H3 : (q * pow2 (-51) <= 2560 * pow2 (-51))%Q)
    by (apply Qmult_le_compat_r; assumption).
  set (d := pow2 (-51)) in *. set (t := pow2 (-30)) in *.
  assert (H4 : (q * (1 + d) == q + q * d)%Q) by ring.
  assert (H5 : (q * (1 - d) == q - q * d)%Q) by ring.
  set (qd := (q * d)%Q) in *.
  rewrite Eq.
  repeat split; try lra.
  apply Qle_trans with (q * ((1 - u) * (1 - u)))%Q; [|exact Lo].
  apply Qmult_le_0_compat; [exact Q0|]. lra.
Qed.

(** The mapped coordinate of a position on the surface (or one rounding
    outside it) is in range. *)
Lemma to_virtual_in_range (x size : Q) (E : Z) :
  (0 < size)%Q -> 0 <= E <= 1280 ->
  (0 <= x)%Q -> (x <= size * (1 + unit_roundoff))%Q ->
  exists X, to_virtual x (inject_Z E) size = Some X /\ 0 <= X <= E.
Proof.
  intros Hs HE X0 X1.
  rewrite (to_virtual_pos _ _ _ Hs). eexists. split; [reflexivity|].
  destruct (scaled_close x size E Hs HE X0 X1) as (Q0 & Q1 & Lo & Hi & P0).
  split; [apply Math_round_nonneg; exact P0|].
  apply Math_round_below.
  assert (I1 : (inject_Z E <= 1280)%Q)
    by (change 1280%Q with (inject_Z 1280); rewrite <- Zle_Qle; lia).
  assert (I0 : (0 <= inject_Z E)%Q)
    by (change 0%Q with (inject_Z 0); rewrite <- Zle_Qle; lia).
  assert (N : (1280 * unit_roundoff + pow2 (-30) < 1 # 2)%Q) by reflexivity.
  destruct unit_roundoff_small as [U0 U1].
  assert (M : (inject_Z E * unit_roundoff <= 1280 * unit_roundoff)%Q)
    by (apply Qmult_le_compat_r; lra).
  set (u := unit_roundoff) in *. set (t := pow2 (-30)) in *.
  set (p := fmul x (fdiv (inject_Z E) size)) in *.
  set (q := (x * inject_Z E / size)%Q) in *.
  assert (D : (inject_Z E * (1 + u) == inject_Z E + inject_Z E * u)%Q) by ring.
  set (eu := (inject_Z E * u)%Q) in *.
  lra.
Qed.

(** The far edge of the surface is mapped to the full extent. *)
Lemma to_virtual_edge (size : Q) (E : Z) :
  (0 < size)%Q -> 0 <= E <= 1280 ->
  to_virtual size (inject_Z E) size = Some E.
Proof.
  intros Hs HE.
  assert (Ns : ~ (size == 0)%Q) by (intro Z; rewrite Z in Hs; discriminate Hs).
  destruct unit_roundoff_small as [U0 U1].
  assert (X1 : (size <= size * (1 + unit_roundoff))%Q).
  { rewrite <- (Qmult_1_r size) at 1.
    rewrite (Qmult_comm size 1), (Qmult_comm size (1 + unit_roundoff)).
    apply Qmult_le_compat_r; lra. }
  destruct (scaled_close size size E Hs HE (Qlt_le_weak _ _ Hs) X1) as (_ & _ & Lo & Hi & _).
  rewrite (to_virtual_pos _ _ _ Hs). f_equal.
  assert (Eq : (size * inject_Z E / size == inject_Z E)%Q) by (field; exact Ns).
  rewrite Eq in Lo, Hi.
  assert (N : (pow2 (-30) < 1 # 2)%Q) by reflexivity.
  apply Math_round_within; lra.
Qed.

Lemma to_virtual_origin (extent size : Q) :
  (0 < size)%Q -> to_virtual 0 extent size = Some 0.
Proof.
  intro Hs. rewrite (to_virtual_pos _ _ _ Hs). reflexivity.
Qed.

(** The position relative to the surface, [e.clientX - rect.left], is a
    rounded difference: for a pointer on the surface it is at most one
    rounding beyond the surface's size. *)
Lemma offset_on_surface (c o size : Q) :
  (o <= c)%Q -> (c <= o + size)%Q ->
  (0 <= fsub c o /\ fsub c o <= size * (1 + unit_roundoff))%Q.
Proof.
  intros L R. unfold fsub.
  assert (D0 : (0 <= c - o)%Q) by lra.
  destruct (fl_nonneg (c - o) D0) as [_ Hi].
  destruct unit_roundoff_small as [U0 _].
  split; [apply fl_sign; exact D0|].
  eapply Qle_trans; [exact Hi|].
  apply Qmult_le_compat_r; lra.
Qed.

Lemma within_surface (x size : Q) :
  (0 < size)%Q -> (x <= size)%Q -> (x <= size * (1 + unit_roundoff))%Q.
Proof.
  intros Hs Hx. destruct unit_roundoff_small as [U0 _].
  assert (M : (0 <= size * unit_roundoff)%Q) by (apply Qmult_le_0_compat; lra).
  assert (D : (size * (1 + unit_roundoff) == size + size * unit_roundoff)%Q) by ring.
  set (su := (size * unit_roundoff)%Q) in *. lra.
Qed.

(** One coordinate of the mapper, on a surface of positive size and a
    position inside it. *)
Lemma to_virtual_spec (x size : Q) (E : Z) :
  (0 < size)%Q -> 0 <= E <= 1280 -> (0 <= x)%Q -> (x <= size)%Q ->
  exists X,
    to_virtual x (inject_Z E) size = Some X
    /\ (inject_Z X - (1 # 2) <= fmul x (fdiv (inject_Z E) size)
        /\ fmul x (fdiv (inject_Z E) size) < inject_Z X + (1 # 2))%Q
    /\ (Qabs (fmul x (fdiv (inject_Z E) size) - x * inject_Z E / size) <= pow2 (-30))%Q
    /\ Math_round (x * inject_Z E / size - pow2 (-30)) <= X
       <= Math_round (x * inject_Z E / size + pow2 (-30))
    /\ 0 <= X <= E.
Proof.
  intros Hs HE X0 X1.
  pose proof (within_surface x size Hs X1) as X2.
  destruct (to_virtual_in_range x size E Hs HE X0 X2) as (X & TX & RX).
  destruct (scaled_close x size E Hs HE X0 X2) as (_ & _ & Lo & Hi & _).
  exists X. split; [exact TX|].
  rewrite (to_virtual_pos _ _ _ Hs) in TX. injection TX as <-.
  split; [apply Math_round_spec|].
  split; [apply Qabs_Qle_condition; split; lra|].
  split; [|exact RX].
  split; apply Math_round_mono; lra.
Qed.

(** C2 (corrected).  On a surface of positive width [w] and height [h], a
    position [(x, y)] inside it is mapped to [(X, Y)], where [X] is the
    integer nearest to the binary64 product [x * (1280 / w)] (the quotient is
    rounded to binary64 first, then the product; a tie goes up) and [Y]
    likewise with [720] and [h].  The rounded product is within [2^-30] of the
    exact [x * 1280 / w], so [X] is [round (x * 1280 / w)] unless that value is
    within [2^-30] of a tie; [(X, Y)] is in [[0,1280] x [0,720]], the
    top-left corner goes to [(0, 0)] and the bottom-right one to
    [(1280, 720)]. *)
Theorem mapper_spec (x y w h : Q) :
  (0 < w)%Q -> (0 < h)%Q -> (0 <= x)%Q -> (x <= w)%Q -> (0 <= y)%Q -> (y <= h)%Q ->
  exists X Y,
    mapper x y w h = (Some X, Some Y)
    /\ (inject_Z X - (1 # 2) <= fmul x (fdiv 1280 w)
        /\ fmul x (fdiv 1280 w) < inject_Z X + (1 # 2))%Q
    /\ (inject_Z Y - (1 # 2) <= fmul y (fdiv 720 h)
        /\ fmul y (fdiv 720 h) < inject_Z Y + (1 # 2))%Q
    /\ (Qabs (fmul x (fdiv 1280 w) - x * 1280 / w) <= pow2 (-30))%Q
    /\ (Qabs (fmul y (fdiv 720 h) - y * 720 / h) <= pow2 (-30))%Q
    /\ Math_round (x * 1280 / w - pow2 (-30)) <= X
       <= Math_round (x * 1280 / w + pow2 (-30))
    /\ Math_round (y * 720 / h - pow2 (-30)) <= Y
       <= Math_round (y * 720 / h + pow2 (-30))
    /\ 0 <= X <= 1280 /\ 0 <= Y <= 720
    /\ mapper 0 0 w h = (Some 0, Some 0)
    /\ mapper w h w h = (Some 1280, Some 720).
Proof.
  intros Hw Hh Hx0 Hx1 Hy0 Hy1.
  destruct (to_virtual_spec x w 1280 Hw ltac:(lia) Hx0 Hx1) as (X & TX & NX & CX & MX & RX).
  destruct (to_virtual_spec y h 720 Hh ltac:(lia) Hy0 Hy1) as (Y & TY & NY & CY & MY & RY).
  change (inject_Z 1280) with 1280%Q in *. change (inject_Z 720) with 720%Q in *.
  exists X, Y. unfold mapper. rewrite TX, TY.
  repeat (split; [assumption || reflexivity|]).
  rewrite !to_virtual_origin by assumption.
  pose proof (to_virtual_edge w 1280 Hw ltac:(lia)) as EW.
  pose proof (to_virtual_edge h 720 Hh ltac:(lia)) as EH.
  change (inject_Z 1280) with 1280%Q in EW. change (inject_Z 720) with 720%Q in EH.
  rewrite EW, EH. split; reflexivity.
Qed.

Lemma mapper_spec_witness :
  exists X Y,
    mapper 100 95 200 608 = (Some X, Some Y)
    /\ (inject_Z X - (1 # 2) <= fmul 100 (fdiv 1280 200)
        /\ fmul 100 (fdiv 1280 200) < inject_Z X + (1 # 2))%Q
    /\ (inject_Z Y - (1 # 2) <= fmul 95 (fdiv 720 608)
        /\ fmul 95 (fdiv 720 608) < inject_Z Y + (1 # 2))%Q
    /\ (Qabs (fmul 100 (fdiv 1280 200) - 100 * 1280 / 200) <= pow2 (-30))%Q
    /\ (Qabs (fmul 95 (fdiv 720 608) - 95 * 720 / 608) <= pow2 (-30))%Q
    /\ Math_round (100 * 1280 / 200 - pow2 (-30)) <= X
       <= Math_round (100 * 1280 / 200 + pow2 (-30))
    /\ Math_round (95 * 720 / 608 - pow2 (-30)) <= Y
       <= Math_round (95 * 720 / 608 + pow2 (-30))
    /\ 0 <= X <= 1280 /\ 0 <= Y <= 720
    /\ mapper 0 0 200 608 = (Some 0, Some 0)
    /\ mapper 200 608 200 608 = (Some 1280, Some 720).
Proof.
  apply (mapper_spec 100 95 200 608); vm_compute; (reflexivity || discriminate).
Defined.

(** C2, the input that refutes the exact formula: on a surface 608 high the
    position [y = 95] is inside it; [95 * 720 / 608] is [112.5], which rounds
    to [113], but the binary64 quotient [720 / 608] is just below the exact
    one, the product is just below [112.5], and the mapper returns [112]. *)
Lemma mapper_rounds_the_quotient_first :
  (0 < 608)%Q /\ (0 <= 95)%Q /\ (95 <= 608)%Q
  /\ mapper 0 95 1280 608 = (Some 0, Some 112)
  /\ (95 * 720 / 608 == 225 # 2)%Q
  /\ Math_round (95 * 720 / 608) = 113
  /\ (fmul 95 (fdiv 720 608) < 225 # 2)%Q
  /\ mapper 0 95 1280 608
     <> (Some (Math_round (0 * 1280 / 1280)), Some (Math_round (95 * 720 / 608))).
Proof.
  repeat split; try (vm_compute; (reflexivity || discriminate)).
Qed.

(** ** Running handlers *)

(** Unfold a handler down to the world it returns and split on everything
    it branches on. *)
Ltac unfold_m :=
  unfold step, dispatch, handleMouseMove, handleClick, handleContextMenu,
    handleWheelEvent, handleKeyDown, handleKeyPress, handleSubmit,
    onReloadClick, onBackClick, onForwardClick, onUrlChange, setSessionId,
    scroll_effect_cleanup, navigate, copy_from_remote, paste_to_remote,
    send_keyboard, run_timer, clipboardReadText, clipboardWriteText,
    response_text, fetchEvent, setTimeout, clearTimeout, setIsLoading,
    setUrl, preventDefault, console_error, emit, update, read, ask,
    try_finally, try_catch, throw, bind, ret in *.

Ltac split_m :=
  repeat match goal with
         | |- context [match ?x with _ => _ end] =>
             let E := fresh "E" in destruct x eqn:E; simpl in *
         end.

Ltac run_m := unfold_m; simpl in *; split_m.

Lemma requests_app (a b : list Effect) : requests (a ++ b) = requests a ++ requests b.
Proof.
  induction a as [|e a IH]; simpl; [reflexivity|].
  destruct e; simpl; rewrite IH; reflexivity.
Qed.

(** ** Navigation controller *)

(** C10.  Without a session identifier [navigate] does nothing at all: the
    world it returns is the world it got, so no request is issued and the
    loading flag and the URL are what they were. *)
Theorem navigate_without_session (env : Env) (w : World) (targetUrl : jsstring) :
  falsy (sessionId w) = true ->
  navigate targetUrl env w = (Normal tt, w)
  /\ requests (trace (snd (navigate targetUrl env w))) = requests (trace w)
  /\ isLoading (snd (navigate targetUrl env w)) = isLoading w
  /\ url (snd (navigate targetUrl env w)) = url w.
Proof.
  intro H.
  assert (E : navigate targetUrl env w = (Normal tt, w)).
  { unfold navigate, bind, read, ret. rewrite H. reflexivity. }
  rewrite E. simpl. repeat split.
Qed.

Lemma navigate_without_session_witness :
  navigate (js "https://example.com") env_online (initial_world 0)
    = (Normal tt, initial_world 0)
  /\ requests (trace (snd (navigate (js "https://example.com") env_online (initial_world 0))))
     = requests (trace (initial_world 0))
  /\ isLoading (snd (navigate (js "https://example.com") env_online (initial_world 0)))
     = isLoading (initial_world 0)
  /\ url (snd (navigate (js "https://example.com") env_online (initial_world 0)))
     = url (initial_world 0).
Proof.
  apply (navigate_without_session env_online (initial_world 0) (js "https://example.com")).
  reflexivity.
Defined.

(** What [navigate] appends to the trace between setting and clearing the
    loading flag. *)
Lemma navigate_with_session (env : Env) (w : World) (targetUrl : jsstring) :
  falsy (sessionId w) = false ->
  let r := mkRequest (sessionId w) (Navigate targetUrl) in
  navigate targetUrl env w =
    (Normal tt,
     match fetch env r with
     | Resolves _ =>
         with_isLoading false
           (with_url targetUrl
              (with_trace (trace w ++ [SetIsLoading true; FetchEvent r;
                                       SetUrl targetUrl; SetIsLoading false]) w))
     | Rejects =>
         with_isLoading false
           (with_trace (trace w ++ [SetIsLoading true; FetchEvent r;
                                    ConsoleError "Navigation failed:";
                                    SetIsLoading false]) w)
     end).
Proof.
  intros H r. unfold navigate, bind, read. rewrite H.
  unfold_m. simpl. fold r.
  destruct (fetch env r); simpl; unfold with_isLoading, with_url, with_trace;
    simpl; rewrite <- !app_assoc; reflexivity.
Qed.

(** C3, as the code has it.  With a session, [navigate targetUrl] sets the
    loading flag, sends one [Navigate] request, and clears the loading flag
    whatever happened; the URL becomes [targetUrl] when the request promise
    resolves and is left as it was when the request fails, in which case
    the error is logged to the console.  The call does exactly this, in
    this order, and never throws. *)
Theorem navigate_spec (env : Env) (w : World) (targetUrl : jsstring) :
  falsy (sessionId w) = false ->
  let r := mkRequest (sessionId w) (Navigate targetUrl) in
  let w' := snd (navigate targetUrl env w) in
  fst (navigate targetUrl env w) = Normal tt
  /\ trace w' = trace w ++ [SetIsLoading true; FetchEvent r]
                        ++ match fetch env r with
                           | Resolves _ => [SetUrl targetUrl]
                           | Rejects => [ConsoleError "Navigation failed:"]
                           end
                        ++ [SetIsLoading false]
  /\ requests (trace w') = requests (trace w) ++ [r]
  /\ isLoading w' = false
  /\ url w' = match fetch env r with
              | Resolves _ => targetUrl
              | Rejects => url w
              end.
Proof.
  intros H r w'. subst w'. rewrite (navigate_with_session env w targetUrl H).
  fold r. simpl. split; [reflexivity|].
  destruct (fetch env r); simpl;
    (split; [reflexivity|]); (split; [|split; reflexivity]);
    rewrite requests_app; reflexivity.
Qed.

Lemma navigate_spec_witness :
  let r := mkRequest (sessionId world_abc) (Navigate (js "https://example.com")) in
  let w' := snd (navigate (js "https://example.com") env_offline world_abc) in
  fst (navigate (js "https://example.com") env_offline world_abc) = Normal tt
  /\ trace w' = trace world_abc ++ [SetIsLoading true; FetchEvent r]
                        ++ match fetch env_offline r with
                           | Resolves _ => [SetUrl (js "https://example.com")]
                           | Rejects => [ConsoleError "Navigation failed:"]
                           end
                        ++ [SetIsLoading false]
  /\ requests (trace w') = requests (trace world_abc) ++ [r]
  /\ isLoading w' = false
  /\ url w' = match fetch env_offline r with
              | Resolves _ => js "https://example.com"
              | Rejects => url world_abc
              end.
Proof.
  apply (navigate_spec env_offline world_abc (js "https://example.com")).
  reflexivity.
Defined.

(** The claim that the URL is updated also when the request fails does not
    hold: on a network that rejects the request the URL stays what it was. *)
Lemma navigate_failure_keeps_url :
  falsy (sessionId world_abc) = false
  /\ url (snd (navigate (js "https://example.com") env_offline world_abc))
     = js "https://www.google.com"
  /\ url (snd (navigate (js "https://example.com") env_offline world_abc))
     <> js "https://example.com".
Proof.
  split; [reflexivity|]. split; [reflexivity|]. vm_compute. discriminate.
Qed.

(** ** Input event channel *)

(** Without a session identifier a guarded handler sends nothing and
    schedules nothing. *)
Lemma guarded_drops_without_session (env : Env) (w : World) (a : Action) :
  is_guarded a = true ->
  falsy (sessionId w) = true ->
  requests (trace (step env w a)) = requests (trace w)
  /\ timers (step env w a) = timers w.
Proof.
  intros G H.
  destruct a; try discriminate G; clear G;
    unfold_m; simpl;
    repeat (simpl; rewrite ?H; simpl;
            match goal with
            | |- context [match ?x with _ => _ end] => destruct x eqn:?
            end);
    simpl; rewrite ?H; simpl; rewrite ?requests_app; simpl; rewrite ?app_nil_r;
    split; reflexivity.
Qed.

(** C1.  The back and forward buttons have no session guard: each click
    sends its request, with whatever [sessionId] holds.  Before the
    handshake that is [null], and the request goes out all the same. *)
Theorem back_forward_send_without_session :
  (forall env w,
      requests (trace (step env w ABack))
        = requests (trace w) ++ [mkRequest (sessionId w) (NavigateAction back)]
      /\ requests (trace (step env w AForward))
        = requests (trace w) ++ [mkRequest (sessionId w) (NavigateAction forward)])
  /\ falsy (sessionId (initial_world 0)) = true
  /\ requests (trace (step env_online (initial_world 0) ABack))
     = [mkRequest None (NavigateAction back)]
  /\ requests (trace (step env_online (initial_world 0) AForward))
     = [mkRequest None (NavigateAction forward)].
Proof.
  split; [|repeat split].
  intros env w. split; unfold_m; simpl;
    match goal with
    | |- context [fetch env ?r] => destruct (fetch env r)
    end; simpl; rewrite requests_app; reflexivity.
Qed.

(** ** Keyboard and clipboard bridge *)

Lemma jsstring_eqb_refl (s : jsstring) : jsstring_eqb s s = true.
Proof.
  induction s as [|c s IH]; simpl; [reflexivity|].
  unfold cu_eqb. rewrite N.eqb_refl. exact IH.
Qed.

Lemma handleKeyDown_copy (env : Env) (w : World) (e : KeyEv) :
  falsy (sessionId w) = false ->
  ctrlKey e || metaKey e = true ->
  key e = js "c" ->
  let r := mkRequest (sessionId w) ClipboardCopy in
  handleKeyDown e env w
    = (Normal tt, with_trace (trace w ++ FetchEvent r :: copy_outcome env r) w).
Proof.
  intros H C K r. unfold handleKeyDown, bind, read. rewrite H, C, K. simpl.
  unfold copy_from_remote, copy_outcome. unfold_m. simpl. fold r.
  destruct (fetch env r) as [|[|[[|c t]|]]]; simpl;
    try destruct (clipboard_writeText env (c :: t)); simpl;
    unfold with_trace; simpl; rewrite <- ?app_assoc; reflexivity.
Qed.

Lemma handleKeyDown_paste (env : Env) (w : World) (e : KeyEv) :
  falsy (sessionId w) = false ->
  ctrlKey e || metaKey e = true ->
  key e = js "v" ->
  handleKeyDown e env w
    = (Normal tt,
       with_trace (trace w ++ ClipboardReadText :: paste_outcome env (sessionId w)) w).
Proof.
  intros H C K. unfold handleKeyDown, bind, read. rewrite H, C, K. simpl.
  unfold paste_to_remote, paste_outcome. unfold_m. simpl.
  destruct (clipboard_readText env) as [text|]; simpl;
    [destruct (fetch env _); simpl|];
    unfold with_trace; simpl; rewrite <- ?app_assoc; reflexivity.
Qed.

Lemma copy_outcome_requests (env : Env) (r : Request) : requests (copy_outcome env r) = [].
Proof.
  unfold copy_outcome.
  destruct (fetch env r) as [|[|[[|c t]|]]]; simpl; try reflexivity.
  destruct (clipboard_writeText env (c :: t)); reflexivity.
Qed.

Lemma copy_outcome_writes (env : Env) (r : Request) (t : jsstring) :
  In (ClipboardWriteText t) (copy_outcome env r)
  <-> fetch env r = Resolves (Json (Some t)) /\ t <> [].
Proof.
  unfold copy_outcome.
  destruct (fetch env r) as [|[|[[|c t']|]]]; simpl.
  - split; [intros [H|[]]; discriminate H | intros [H _]; discriminate H].
  - split; [intros [H|[]]; discriminate H | intros [H _]; discriminate H].
  - split; [intros [] | intros [H N]; inversion H; subst; apply N; reflexivity].
  - split.
    + intros [H|H].
      * inversion H; subst. split; [reflexivity | discriminate].
      * destruct (clipboard_writeText env (c :: t')); simpl in H;
          [destruct H | destruct H as [H|[]]; discriminate H].
    + intros [H _]. inversion H; subst. left. reflexivity.
  - split; [intros [] | intros [H _]; discriminate H].
Qed.

Lemma copy_outcome_no_preventDefault (env : Env) (r : Request) :
  ~ In PreventDefault (copy_outcome env r).
Proof.
  unfold copy_outcome.
  destruct (fetch env r) as [|[|[[|c t]|]]]; simpl;
    try destruct (clipboard_writeText env (c :: t)); simpl;
    intuition discriminate.
Qed.

Lemma paste_outcome_requests (env : Env) (sid : option jsstring) :
  requests (paste_outcome env sid)
  = match clipboard_readText env with
    | Some text => [mkRequest sid (ClipboardPaste text)]
    | None => []
    end.
Proof.
  unfold paste_outcome.
  destruct (clipboard_readText env) as [text|]; simpl; [|reflexivity].
  destruct (fetch env _); reflexivity.
Qed.

Lemma paste_outcome_no_preventDefault (env : Env) (sid : option jsstring) :
  ~ In PreventDefault (paste_outcome env sid).
Proof.
  unfold paste_outcome.
  destruct (clipboard_readText env) as [text|]; simpl;
    [destruct (fetch env _); simpl|]; intuition discriminate.
Qed.

(** C7, as the code has it.  On a key-down with ctrl or meta and key [c] or
    [v], with a session: the copy path sends the copy request and writes the
    text of the answer to the local clipboard exactly when the answer
    carries a non-empty text; the paste path reads the local clipboard and,
    when the read succeeds, sends the paste request with that text.  A
    failure (the request rejected, an answer that is not an object, the
    clipboard write or read refused) is logged to the console, once, as
    [Failed to copy:] or [Failed to paste:], and goes no further: both paths
    return normally, touch nothing but the trace, and never call
    [preventDefault]. *)
Theorem clipboard_bridge_spec (env : Env) (w : World) (e : KeyEv) :
  falsy (sessionId w) = false ->
  ctrlKey e || metaKey e = true ->
  (key e = js "c" ->
   let r := mkRequest (sessionId w) ClipboardCopy in
   let tail :=
     match fetch env r with
     | Rejects => [ConsoleError "Failed to copy:"]
     | Resolves NotAnObject => [ConsoleError "Failed to copy:"]
     | Resolves (Json None) => []
     | Resolves (Json (Some [])) => []
     | Resolves (Json (Some (c :: t))) =>
         ClipboardWriteText (c :: t)
           :: (if clipboard_writeText env (c :: t) then []
               else [ConsoleError "Failed to copy:"])
     end in
   handleKeyDown e env w
     = (Normal tt, with_trace (trace w ++ FetchEvent r :: tail) w)
   /\ requests tail = []
   /\ (forall t, In (ClipboardWriteText t) tail
                 <-> fetch env r = Resolves (Json (Some t)) /\ t <> [])
   /\ ~ In PreventDefault (FetchEvent r :: tail))
  /\ (key e = js "v" ->
      let tail :=
        match clipboard_readText env with
        | None => [ConsoleError "Failed to paste:"]
        | Some text =>
            FetchEvent (mkRequest (sessionId w) (ClipboardPaste text))
              :: match fetch env (mkRequest (sessionId w) (ClipboardPaste text)) with
                 | Rejects => [ConsoleError "Failed to paste:"]
                 | Resolves _ => []
                 end
        end in
      handleKeyDown e env w
        = (Normal tt, with_trace (trace w ++ ClipboardReadText :: tail) w)
      /\ requests tail
         = match clipboard_readText env with
           | Some text => [mkRequest (sessionId w) (ClipboardPaste text)]
           | None => []
           end
      /\ ~ In PreventDefault (ClipboardReadText :: tail)).
Proof.
  intros H C. split; intro K.
  - intros r tail. change tail with (copy_outcome env r). clear tail.
    split; [apply handleKeyDown_copy; assumption|].
    split; [apply copy_outcome_requests|].
    split; [intro t; apply copy_outcome_writes|].
    intros [F|F]; [discriminate F | exact (copy_outcome_no_preventDefault _ _ F)].
  - intro tail. change tail with (paste_outcome env (sessionId w)). clear tail.
    split; [apply handleKeyDown_paste; assumption|].
    split; [apply paste_outcome_requests|].
    intros [F|F]; [discriminate F | exact (paste_outcome_no_preventDefault _ _ F)].
Qed.

(** The handler never suppresses the browser's own handling of the key: on
    ctrl+c and on ctrl+v, with a session, no [preventDefault] is in the
    trace. *)
Lemma clipboard_keys_not_suppressed :
  falsy (sessionId world_abc) = false
  /\ ~ In PreventDefault (trace (step env_online world_abc (AKeyDown ctrl_c)))
  /\ ~ In PreventDefault (trace (step env_online world_abc (AKeyDown ctrl_v))).
Proof.
  split; [reflexivity|]. split; vm_compute; intuition discriminate.
Qed.

(** C9, as the code has it.  On a key-down with ctrl or meta and key [c] or
    [v], with a session, the requests sent are: the copy request on the copy
    path; on the paste path the paste request when the clipboard could be
    read and nothing when it could not.  No keyboard request is among them. *)
Theorem clipboard_keydown_requests (env : Env) (w : World) (e : KeyEv) :
  falsy (sessionId w) = false ->
  ctrlKey e || metaKey e = true ->
  key e = js "c" \/ key e = js "v" ->
  exists sent,
    requests (trace (step env w (AKeyDown e))) = requests (trace w) ++ sent
    /\ forallb is_clipboard_request sent = true
    /\ (key e = js "c" -> sent = [mkRequest (sessionId w) ClipboardCopy])
    /\ (key e = js "v" ->
        sent = match clipboard_readText env with
               | Some text => [mkRequest (sessionId w) (ClipboardPaste text)]
               | None => []
               end).
Proof.
  intros H C [K|K].
  - exists [mkRequest (sessionId w) ClipboardCopy].
    unfold step, dispatch. rewrite handleKeyDown_copy by assumption. simpl.
    rewrite requests_app. simpl. rewrite copy_outcome_requests.
    repeat split. intro V. rewrite K in V. discriminate V.
  - exists (match clipboard_readText env with
            | Some text => [mkRequest (sessionId w) (ClipboardPaste text)]
            | None => []
            end).
    unfold step, dispatch. rewrite handleKeyDown_paste by assumption. simpl.
    rewrite requests_app. simpl. rewrite paste_outcome_requests.
    repeat split.
    + destruct (clipboard_readText env); reflexivity.
    + intro V. rewrite K in V. discriminate V.
Qed.

(** On ctrl+v with a clipboard that cannot be read, no clipboard request is
    sent at all. *)
Lemma paste_unreadable_sends_nothing :
  falsy (sessionId world_abc) = false
  /\ ctrlKey ctrl_v || metaKey ctrl_v = true
  /\ key ctrl_v = js "v"
  /\ requests (trace (step env_offline world_abc (AKeyDown ctrl_v))) = [].
Proof. repeat split. Qed.

(** ** Scroll coalescer *)

Lemma handleWheelEvent_no_session (env : Env) (w : World) (e : WheelEv) :
  falsy (sessionId w) = true ->
  handleWheelEvent e env w = (Normal tt, with_trace (trace w ++ [PreventDefault]) w).
Proof.
  intro H. unfold handleWheelEvent, bind, preventDefault, emit, update, read. simpl.
  rewrite H. reflexivity.
Qed.

(** With a session: the time is recorded, the timer [scrollTimeout] names
    is cancelled, and a new one is scheduled 16 ms ahead. *)
Lemma handleWheelEvent_session (env : Env) (w : World) (e : WheelEv) :
  falsy (sessionId w) = false ->
  let id := next_timer_id w in
  let r := scroll_request (sessionId w) e (clock w - lastScrollTime w) in
  handleWheelEvent e env w =
    (Normal tt,
     mkWorld (sessionId w) (url w) (isLoading w) (Some id) (clock w) (clock w)
       (match scrollTimeout w with
        | Some old => filter (fun tm => negb (Pos.eqb (timer_id tm) old)) (timers w)
        | None => timers w
        end ++ [mkTimer id (clock w + 16) r])
       (Pos.succ id)
       (trace w ++ PreventDefault
          :: match scrollTimeout w with
             | Some old => [ClearTimeout old]
             | None => []
             end ++ [SetTimeout id 16])).
Proof.
  intros H id r. unfold handleWheelEvent, bind, preventDefault, emit, update, read.
  simpl. rewrite H. unfold_m. simpl.
  destruct (scrollTimeout w) as [old|]; simpl;
    unfold with_scrollTimeout, with_trace, with_timers, with_next_timer_id; simpl;
    rewrite <- ?app_assoc; reflexivity.
Qed.

(** C8.  Whatever the world, with a session or without one, the first
    thing the wheel handler does is [preventDefault]. *)
Theorem wheel_default_suppressed (env : Env) (w : World) (e : WheelEv) :
  exists rest,
    trace (snd (handleWheelEvent e env w)) = trace w ++ PreventDefault :: rest
    /\ (falsy (sessionId w) = true -> rest = []).
Proof.
  destruct (falsy (sessionId w)) eqn:H.
  - rewrite handleWheelEvent_no_session by exact H. simpl.
    exists []. split; reflexivity.
  - rewrite handleWheelEvent_session by exact H. simpl.
    eexists. split; [reflexivity | discriminate].
Qed.

Lemma Qltb_lt (a b : Q) : Qltb a b = true <-> (a < b)%Q.
Proof.
  unfold Qltb. rewrite negb_true_iff. split.
  - intro H. apply Qnot_le_lt. intro L. apply Qle_bool_iff in L. congruence.
  - intro H. destruct (Qle_bool b a) eqn:E; [|reflexivity].
    apply Qle_bool_iff in E. exfalso. exact (Qlt_not_le _ _ H E).
Qed.

(** The timer callback sends the request it closed over, and swallows a
    failure. *)
Lemma run_timer_spec (env : Env) (w : World) (tm : Timer) :
  run_timer tm env w =
    (Normal tt,
     with_trace (trace w ++ FetchEvent (timer_request tm)
                   :: match fetch env (timer_request tm) with
                      | Rejects => [ConsoleError "Failed to send scroll event:"]
                      | Resolves _ => []
                      end) w).
Proof.
  unfold_m. simpl. destruct (fetch env (timer_request tm)); simpl;
    unfold with_trace; simpl; rewrite <- ?app_assoc; reflexivity.
Qed.

(** *** The event loop *)

Lemma run_timers_spec (env : Env) (tms : list Timer) (w : World) :
  exists tr,
    run_timers tms env w = (Normal tt, with_trace (trace w ++ tr) w)
    /\ requests tr = map timer_request tms.
Proof.
  revert w. induction tms as [|tm tms IH]; intro w; simpl.
  - exists []. unfold ret. rewrite app_nil_r. destruct w; split; reflexivity.
  - unfold bind. rewrite run_timer_spec.
    destruct (IH (with_trace
                    (trace w ++ FetchEvent (timer_request tm)
                       :: match fetch env (timer_request tm) with
                          | Rejects => [ConsoleError "Failed to send scroll event:"]
                          | Resolves _ => []
                          end) w)) as [tr [E R]].
    rewrite E. simpl.
    eexists. split.
    + unfold with_trace. simpl. rewrite <- app_assoc. reflexivity.
    + simpl. rewrite requests_app, R.
      destruct (fetch env (timer_request tm)); reflexivity.
Qed.

(** Time passing runs the timers that are due and keeps the others. *)
Lemma advance_spec (env : Env) (w : World) (t : Z) :
  exists tr,
    step env w (ATime t)
      = mkWorld (sessionId w) (url w) (isLoading w) (scrollTimeout w)
          (lastScrollTime w) (Z.max (clock w) t)
          (filter (fun tm => negb (is_due t tm)) (timers w))
          (next_timer_id w) (trace w ++ tr)
    /\ requests tr = map timer_request (filter (is_due t) (timers w)).
Proof.
  unfold step, dispatch, advance, bind, read, update. simpl.
  destruct (run_timers_spec env (filter (is_due t) (timers w))
              (with_clock (Z.max (clock w) t)
                 (with_timers (filter (fun tm => negb (is_due t tm)) (timers w)) w)))
    as [tr [E R]].
  rewrite E. simpl. exists tr. split; [reflexivity | exact R].
Qed.

(** *** Handlers that leave the timers alone *)

Section KeepsTimers.

Lemma keeps_ret {A} (a : A) : keeps_timers (ret a).
Proof. intros env w. split; reflexivity. Qed.

Lemma keeps_throw {A} : keeps_timers (@throw A).
Proof. intros env w. split; reflexivity. Qed.

Lemma keeps_read {A} (f : World -> A) : keeps_timers (read f).
Proof. intros env w. split; reflexivity. Qed.

Lemma keeps_ask {A} (f : Env -> A) : keeps_timers (ask f).
Proof. intros env w. split; reflexivity. Qed.

Lemma keeps_update (f : World -> World) :
  (forall w, timers (f w) = timers w /\ scrollTimeout (f w) = scrollTimeout w) ->
  keeps_timers (update f).
Proof. intros H env w. apply H. Qed.

Lemma keeps_emit (e : Effect) : keeps_timers (emit e).
Proof. apply keeps_update. intro w. split; reflexivity. Qed.

Lemma keeps_bind {A B} (m : M A) (k : A -> M B) :
  keeps_timers m -> (forall a, keeps_timers (k a)) -> keeps_timers (bind m k).
Proof.
  intros Hm Hk env w. unfold bind.
  specialize (Hm env w). destruct (m env w) as [[a|] w1]; simpl in Hm.
  - specialize (Hk a env w1). destruct Hk as [T S], Hm as [T' S'].
    split; congruence.
  - simpl. exact Hm.
Qed.

Lemma keeps_try_catch {A} (m h : M A) :
  keeps_timers m -> keeps_timers h -> keeps_timers (try_catch m h).
Proof.
  intros Hm Hh env w. unfold try_catch.
  specialize (Hm env w). destruct (m env w) as [[a|] w1]; simpl in Hm.
  - simpl. exact Hm.
  - specialize (Hh env w1). destruct Hh as [T S], Hm as [T' S'].
    split; congruence.
Qed.

Lemma keeps_try_finally {A} (m : M A) (f : M unit) :
  keeps_timers m -> keeps_timers f -> keeps_timers (try_finally m f).
Proof.
  intros Hm Hf env w. unfold try_finally.
  specialize (Hm env w). destruct (m env w) as [c w1]; simpl in Hm.
  specialize (Hf env w1). destruct (f env w1) as [[[]|] w2]; simpl in *;
    destruct Hf as [T S], Hm as [T' S']; split; congruence.
Qed.

End KeepsTimers.

Ltac keeps_step :=
  first
    [ apply keeps_ret | apply keeps_throw | apply keeps_read | apply keeps_ask
    | apply keeps_emit
    | apply keeps_update; intro; split; reflexivity
    | apply keeps_bind; [|intro]
    | apply keeps_try_catch
    | apply keeps_try_finally
    | match goal with
      | |- keeps_timers (match ?x with _ => _ end) => destruct x
      end ].

Ltac keeps :=
  unfold handleMouseMove, handleClick, handleContextMenu, handleKeyDown,
    handleKeyPress, handleSubmit, onReloadClick, onBackClick, onForwardClick,
    onUrlChange, navigate, copy_from_remote, paste_to_remote, send_keyboard,
    clipboardReadText, clipboardWriteText, response_text, fetchEvent,
    setIsLoading, setUrl, preventDefault, console_error;
  repeat keeps_step.

Lemma timers_frame (a : Action) :
  match a with
  | AWheel _ | ASession _ | ATime _ => False
  | _ => True
  end ->
  keeps_timers (dispatch a).
Proof. intro G. destruct a; try destruct G; simpl; keeps. Qed.

Lemma one_pending_filter (w : World) (f : Timer -> bool) (w' : World) :
  one_pending w ->
  timers w' = filter f (timers w) ->
  scrollTimeout w' = scrollTimeout w ->
  one_pending w'.
Proof.
  intros [E|[tm [E S]]] T S'; unfold one_pending; rewrite T, E; simpl.
  - left. reflexivity.
  - destruct (f tm); [right; exists tm; split; [reflexivity | congruence] | left; reflexivity].
Qed.

(** Cancelling the timer [scrollTimeout] names leaves no timer pending. *)
Lemma cancel_pending (w : World) :
  one_pending w ->
  match scrollTimeout w with
  | Some old => filter (fun tm => negb (Pos.eqb (timer_id tm) old)) (timers w)
  | None => timers w
  end = [].
Proof.
  intros [E|[tm [E S]]]; rewrite E.
  - destruct (scrollTimeout w); reflexivity.
  - rewrite S. simpl. rewrite Pos.eqb_refl. reflexivity.
Qed.

Lemma one_pending_step (env : Env) (w : World) (a : Action) :
  one_pending w -> one_pending (step env w a).
Proof.
  intro I.
  assert (F : forall a', match a' with
                         | AWheel _ | ASession _ | ATime _ => False
                         | _ => True
                         end -> one_pending (step env w a')).
  { intros a' G. destruct (timers_frame a' G env w) as [T S].
    unfold step. destruct I as [E|[tm [E S']]].
    - left. congruence.
    - right. exists tm. split; congruence. }
  destruct a; try (apply F; exact Logic.I).
  - (* wheel *)
    unfold step, dispatch. destruct (falsy (sessionId w)) eqn:H.
    + rewrite handleWheelEvent_no_session by exact H. exact I.
    + rewrite handleWheelEvent_session by exact H. simpl.
      right. eexists. unfold one_pending. simpl.
      rewrite (cancel_pending w I). simpl. split; reflexivity.
  - (* the session identifier arrives *)
    left. unfold step, dispatch, setSessionId, scroll_effect_cleanup.
    unfold_m. simpl.
    pose proof (cancel_pending w I) as C.
    destruct (scrollTimeout w); simpl; exact C.
  - (* time passes *)
    destruct (advance_spec env w t) as [tr [E _]]. rewrite E.
    eapply one_pending_filter; [exact I | reflexivity | reflexivity].
Qed.

(** In every world the component can be in, at most one timer is pending. *)
Lemma reachable_one_pending (w : World) : reachable w -> one_pending w.
Proof.
  induction 1 as [t0|env w a R IH].
  - left. reflexivity.
  - apply one_pending_step. exact IH.
Qed.

(** *** A burst of wheel events *)

Lemma filter_none {A} (f : A -> bool) (l : list A) :
  (forall x, In x l -> f x = false) -> filter f l = [].
Proof.
  induction l as [|x l IH]; intro H; simpl; [reflexivity|].
  rewrite (H x (or_introl eq_refl)). apply IH. intros y Hy. apply H. right. exact Hy.
Qed.

Lemma filter_all {A} (f : A -> bool) (l : list A) :
  (forall x, In x l -> f x = true) -> filter f l = l.
Proof.
  induction l as [|x l IH]; intro H; simpl; [reflexivity|].
  rewrite (H x (or_introl eq_refl)). f_equal. apply IH. intros y Hy. apply H. right. exact Hy.
Qed.

(** Time passing up to [t] does nothing but move the clock when no timer
    is due by [t]. *)
Lemma advance_idle (env : Env) (w : World) (t : Z) :
  clock w <= t ->
  (forall tm, In tm (timers w) -> t < timer_due tm) ->
  exists tr,
    step env w (ATime t)
      = mkWorld (sessionId w) (url w) (isLoading w) (scrollTimeout w)
          (lastScrollTime w) t (timers w) (next_timer_id w) (trace w ++ tr)
    /\ requests tr = [].
Proof.
  intros C D. destruct (advance_spec env w t) as [tr [E R]].
  exists tr. rewrite E. split.
  - rewrite Z.max_r by exact C. f_equal.
    apply filter_all. intros tm I. unfold is_due.
    apply negb_true_iff, Z.leb_gt, D, I.
  - rewrite R, filter_none; [reflexivity|].
    intros tm I. unfold is_due. apply Z.leb_gt, D, I.
Qed.

(** A wheel event arriving at [t], before anything pending is due: the
    pending emission is replaced by this event's, due at [t + 16], and
    nothing is sent. *)
Lemma wheel_arrives (env : Env) (w : World) (t : Z) (e : WheelEv) :
  falsy (sessionId w) = false ->
  clock w <= t ->
  one_pending w ->
  (forall tm, In tm (timers w) -> t < timer_due tm) ->
  let w2 := step env (step env w (ATime t)) (AWheel e) in
  sessionId w2 = sessionId w
  /\ clock w2 = t
  /\ lastScrollTime w2 = t
  /\ timers w2 = [mkTimer (next_timer_id w) (t + 16)
                    (scroll_request (sessionId w) e (t - lastScrollTime w))]
  /\ scrollTimeout w2 = Some (next_timer_id w)
  /\ requests (trace w2) = requests (trace w).
Proof.
  intros H C I D w2. subst w2.
  destruct (advance_idle env w t C D) as [tr [E R]]. rewrite E.
  set (w1 := mkWorld _ _ _ _ _ _ _ _ _).
  assert (I1 : one_pending w1) by exact I.
  pose proof (cancel_pending w1 I1) as CP.
  unfold step, dispatch.
  rewrite (handleWheelEvent_session env w1 e H).
  subst w1. cbn [sessionId clock lastScrollTime timers scrollTimeout trace snd
                   next_timer_id] in *.
  rewrite CP. simpl.
  repeat split.
  rewrite !requests_app, R. simpl.
  destruct (scrollTimeout w); simpl; rewrite ?app_nil_r; reflexivity.
Qed.

(** When the time of the pending emission has come, it is sent. *)
Lemma emission_fires (env : Env) (w : World) (tm : Timer) (T : Z) :
  timers w = [tm] -> timer_due tm <= T ->
  requests (trace (step env w (ATime T))) = requests (trace w) ++ [timer_request tm]
  /\ timers (step env w (ATime T)) = [].
Proof.
  intros E D. destruct (advance_spec env w T) as [tr [S R]]. rewrite S. simpl.
  rewrite E in *. simpl in *. unfold is_due in *.
  apply Z.leb_le in D. rewrite D in *. simpl in *.
  rewrite requests_app, R. split; reflexivity.
Qed.

Lemma run_app (env : Env) (w : World) (l1 l2 : list Action) :
  run env w (l1 ++ l2) = run env (run env w l1) l2.
Proof. unfold run. apply fold_left_app. Qed.

(** A burst in which every event arrives before the emission of the one
    before it leads to a single emission, that of its last event. *)
Lemma burst_emits_last (env : Env) (rest : list (Z * WheelEv)) :
  forall (w : World) (t : Z) (e : WheelEv) (T : Z),
    falsy (sessionId w) = false ->
    clock w <= t ->
    one_pending w ->
    (forall tm, In tm (timers w) -> t < timer_due tm) ->
    in_window t rest ->
    fst (fst (last_event (lastScrollTime w) t e rest)) + 16 <= T ->
    requests (trace (run env w (burst ((t, e) :: rest) ++ [ATime T])))
    = requests (trace w)
        ++ [scroll_request (sessionId w)
              (snd (fst (last_event (lastScrollTime w) t e rest)))
              (snd (last_event (lastScrollTime w) t e rest))].
Proof.
  induction rest as [|[t' e'] rest IH]; intros w t e T H C I D W L.
  - simpl in *.
    destruct (wheel_arrives env w t e H C I D) as [_ [_ [_ [Tm [_ R]]]]].
    destruct (emission_fires env _ _ T Tm L) as [F _].
    unfold run. simpl. rewrite F, R. reflexivity.
  - destruct (wheel_arrives env w t e H C I D) as [S [Ck [Ls [Tm [St R]]]]].
    set (w2 := step env (step env w (ATime t)) (AWheel e)) in *.
    destruct W as [[W1 W2] W3].
    assert (I2 : one_pending w2).
    { right. eexists. split; [exact Tm | exact St]. }
    assert (D2 : forall tm, In tm (timers w2) -> t' < timer_due tm).
    { intros tm J. rewrite Tm in J. destruct J as [J|[]]. subst tm. simpl. lia. }
    assert (H2 : falsy (sessionId w2) = false) by (rewrite S; exact H).
    assert (C2 : clock w2 <= t') by (rewrite Ck; exact W1).
    specialize (IH w2 t' e' T H2 C2 I2 D2 W3).
    rewrite Ls, S, R in IH.
    change (run env w (burst ((t, e) :: (t', e') :: rest) ++ [ATime T]))
      with (run env w2 (burst ((t', e') :: rest) ++ [ATime T])).
    apply IH. exact L.
Qed.

(** *** The scaled delta *)

(** The multiplier is one of four numbers: [8 * 1.5] and [3 * 1.5] are
    computed without rounding error. *)
Lemma multiplier_of_cases (isTrackpad : bool) (t : Z) :
  multiplier_of isTrackpad t
  = (if isTrackpad then (if t <? 100 then 12 else 8)
     else (if t <? 100 then 9 # 2 else 3))%Q.
Proof.
  unfold multiplier_of. destruct isTrackpad, (t <? 100); vm_compute; reflexivity.
Qed.

(** An integer delta below [2^49] in size is scaled without rounding error. *)
Lemma scaled_exact (d : Q) (z : Z) (isTrackpad : bool) (t : Z) :
  (d == inject_Z z)%Q -> Z.abs z < 2 ^ 49 ->
  (fmul d (multiplier_of isTrackpad t) == d * multiplier_of isTrackpad t)%Q.
Proof.
  intros E B. rewrite multiplier_of_cases. unfold fmul.
  change (2 ^ 49) with 562949953421312 in B.
  destruct isTrackpad, (t <? 100).
  - apply (fl_exact _ (z * 12) 0).
    + change (2 ^ 53) with 9007199254740992. lia.
    + rewrite E, inject_Z_mult. change (pow2 0) with 1%Q.
      change (inject_Z 12) with 12%Q. ring.
  - apply (fl_exact _ (z * 8) 0).
    + change (2 ^ 53) with 9007199254740992. lia.
    + rewrite E, inject_Z_mult. change (pow2 0) with 1%Q.
      change (inject_Z 8) with 8%Q. ring.
  - apply (fl_exact _ (z * 9) (-1)).
    + change (2 ^ 53) with 9007199254740992. lia.
    + rewrite E, inject_Z_mult. change (pow2 (-1)) with (1 # 2)%Q.
      change (inject_Z 9) with 9%Q. ring.
  - apply (fl_exact _ (z * 3) 0).
    + change (2 ^ 53) with 9007199254740992. lia.
    + rewrite E, inject_Z_mult. change (pow2 0) with 1%Q.
      change (inject_Z 3) with 3%Q. ring.
Qed.

Lemma fl_abs_error (q : Q) : (Qabs (fl q - q) <= Qabs q * unit_roundoff)%Q.
Proof.
  apply Qabs_Qle_condition. exact (fl_error q).
Qed.

(** C5 (corrected).  With a session, a wheel event with raw delta
    [deltaY e] that comes [t] ms after the previous one replaces whatever
    emission was pending by its own, and once 16 ms have passed the scroll
    message sent carries [isTrackpad] and [scaled], where [isTrackpad] is
    [|deltaY e| < 50], the multiplier is 8 for a trackpad and 3 otherwise,
    times 1.5 when [t < 100] (12 and 4.5, computed exactly), and [scaled] is
    the binary64 product of [deltaY e] and the multiplier: the exact product
    rounded once, so within a relative [2^-53] of it, and equal to it when
    [deltaY e] is an integer below [2^49] in size.  The time of the event
    is recorded for the next one.  A delta of 40 is a trackpad's, a delta of
    120 is not. *)
Theorem scroll_scaling (env : Env) (w : World) (e : WheelEv) (T : Z) :
  reachable w ->
  falsy (sessionId w) = false ->
  clock w + 16 <= T ->
  let t := clock w - lastScrollTime w in
  let w' := snd (handleWheelEvent e env w) in
  exists scaled isTrackpad m,
    timers w' = [mkTimer (next_timer_id w) (clock w + 16)
                   (mkRequest (sessionId w) (Scroll scaled isTrackpad))]
    /\ requests (trace w') = requests (trace w)
    /\ requests (trace (step env w' (ATime T)))
       = requests (trace w) ++ [mkRequest (sessionId w) (Scroll scaled isTrackpad)]
    /\ (isTrackpad = true <-> (Qabs (deltaY e) < 50)%Q)
    /\ (isTrackpad = true -> t < 100 -> m = 12%Q)
    /\ (isTrackpad = true -> 100 <= t -> m = 8%Q)
    /\ (isTrackpad = false -> t < 100 -> m = (9 # 2)%Q)
    /\ (isTrackpad = false -> 100 <= t -> m = 3%Q)
    /\ fmul 8 (3 # 2) = 12%Q /\ fmul 3 (3 # 2) = (9 # 2)%Q
    /\ scaled = fmul (deltaY e) m
    /\ (Qabs (scaled - deltaY e * m) <= Qabs (deltaY e * m) * unit_roundoff)%Q
    /\ (forall z, (deltaY e == inject_Z z)%Q -> Z.abs z < 2 ^ 49 ->
                  (scaled == deltaY e * m)%Q)
    /\ lastScrollTime w' = clock w
    /\ isTrackpad_of (mkWheel 40) = true
    /\ isTrackpad_of (mkWheel 120) = false.
Proof.
  intros R H L t w'.
  exists (fmul (deltaY e) (multiplier_of (isTrackpad_of e) t)), (isTrackpad_of e),
         (multiplier_of (isTrackpad_of e) t).
  assert (Tm : timers w' = [mkTimer (next_timer_id w) (clock w + 16)
                              (scroll_request (sessionId w) e t)]).
  { subst w'. rewrite handleWheelEvent_session by exact H. simpl.
    rewrite (cancel_pending w (reachable_one_pending w R)). reflexivity. }
  assert (Rq : requests (trace w') = requests (trace w)).
  { subst w'. rewrite handleWheelEvent_session by exact H. simpl.
    rewrite requests_app. simpl.
    destruct (scrollTimeout w); simpl; apply app_nil_r. }
  split; [exact Tm|]. split; [exact Rq|].
  split.
  { destruct (emission_fires env w' _ T Tm L) as [F _]. rewrite F, Rq. reflexivity. }
  split; [apply Qltb_lt|].
  rewrite multiplier_of_cases.
  split; [intros I B; rewrite I; apply Z.ltb_lt in B; rewrite B; reflexivity|].
  split; [intros I B; rewrite I; apply Z.ltb_ge in B; rewrite B; reflexivity|].
  split; [intros I B; rewrite I; apply Z.ltb_lt in B; rewrite B; reflexivity|].
  split; [intros I B; rewrite I; apply Z.ltb_ge in B; rewrite B; reflexivity|].
  split; [vm_compute; reflexivity|]. split; [vm_compute; reflexivity|].
  split; [reflexivity|].
  split; [apply fl_abs_error|].
  split.
  { intros z E B. rewrite <- multiplier_of_cases. apply (scaled_exact _ z); assumption. }
  split; [|split; reflexivity].
  subst w'. rewrite handleWheelEvent_session by exact H. reflexivity.
Qed.

(** C4.  In every world the component can be in at most one timer is
    pending.  A wheel event, with a session, cancels it and schedules the
    emission of its own scaled delta and device classification 16 ms
    ahead.  So a burst of wheel events, each arriving before the emission of
    the one before it, is followed by exactly one scroll message, the one
    of the last event; in particular two wheel events 10 ms apart give one
    message whose delta is the later event's, boosted by 1.5 (the products
    are binary64 products). *)
Theorem scroll_coalescing :
  (forall w, reachable w -> (List.length (timers w) <= 1)%nat)
  /\ (forall env w e,
         reachable w -> falsy (sessionId w) = false ->
         timers (step env w (AWheel e))
         = [mkTimer (next_timer_id w) (clock w + 16)
              (scroll_request (sessionId w) e (clock w - lastScrollTime w))])
  /\ (forall env w t e rest T,
         reachable w -> falsy (sessionId w) = false ->
         clock w <= t ->
         (forall tm, In tm (timers w) -> t < timer_due tm) ->
         in_window t rest ->
         fst (fst (last_event (lastScrollTime w) t e rest)) + 16 <= T ->
         requests (trace (run env w (burst ((t, e) :: rest) ++ [ATime T])))
         = requests (trace w)
             ++ [scroll_request (sessionId w)
                   (snd (fst (last_event (lastScrollTime w) t e rest)))
                   (snd (last_event (lastScrollTime w) t e rest))])
  /\ (forall env w t e1 e2,
         reachable w -> falsy (sessionId w) = false ->
         clock w <= t ->
         (forall tm, In tm (timers w) -> t < timer_due tm) ->
         requests (trace (run env w [ATime t; AWheel e1; ATime (t + 10); AWheel e2;
                                     ATime (t + 26)]))
         = requests (trace w)
             ++ [mkRequest (sessionId w)
                   (Scroll (fmul (deltaY e2)
                                 (fmul (if isTrackpad_of e2 then 8 else 3) (3 # 2)))
                           (isTrackpad_of e2))]).
Proof.
  split; [|split; [|split]].
  - intros w R. destruct (reachable_one_pending w R) as [E|[tm [E _]]];
      rewrite E; simpl; lia.
  - intros env w e R H. unfold step, dispatch.
    rewrite handleWheelEvent_session by exact H. simpl.
    rewrite (cancel_pending w (reachable_one_pending w R)). reflexivity.
  - intros env w t e rest T R H C D W L.
    apply burst_emits_last; try assumption. apply reachable_one_pending, R.
  - intros env w t e1 e2 R H C D.
    pose proof (burst_emits_last env [(t + 10, e2)] w t e1 (t + 26) H C
                  (reachable_one_pending w R) D) as B.
    cbn [burst app in_window last_event fst snd] in B.
    rewrite B; [|lia|lia].
    unfold scroll_request, multiplier_of.
    replace (t + 10 - t) with 10 by lia. reflexivity.
Qed.

Lemma reachable_world_abc : reachable world_abc.
Proof.
  change world_abc
    with (step env_online (initial_world 1000) (ASession (Some (js "abc")))).
  apply reachable_step, reachable_init.
Qed.

Lemma scroll_coalescing_witness :
  requests (trace (run env_online world_abc
                     [ATime 1000; AWheel (mkWheel 120); ATime (1000 + 10);
                      AWheel (mkWheel 40); ATime (1000 + 26)]))
  = requests (trace world_abc)
      ++ [mkRequest (sessionId world_abc)
            (Scroll (fmul (deltaY (mkWheel 40))
                          (fmul (if isTrackpad_of (mkWheel 40) then 8 else 3) (3 # 2)))
                    (isTrackpad_of (mkWheel 40)))].
Proof.
  apply (proj2 (proj2 (proj2 scroll_coalescing))
           env_online world_abc 1000 (mkWheel 120) (mkWheel 40)).
  - exact reachable_world_abc.
  - reflexivity.
  - simpl. lia.
  - intros tm [].
Defined.

(** ** Regular expressions: the matcher decides the language *)

Section Regex.

Lemma lang_fail_inv (s : jsstring) : ~ lang Fail s.
Proof. intro H. inversion H. Qed.

Lemma lang_eps_inv (s : jsstring) : lang Eps s -> s = [].
Proof. intro H. inversion H. reflexivity. Qed.

Lemma lang_cls_inv (p : N -> bool) (s : jsstring) :
  lang (Cls p) s -> exists c, s = [c] /\ p c = true.
Proof. intro H. inversion H; subst. eauto. Qed.

Lemma lang_seq_inv (r1 r2 : regex) (s : jsstring) :
  lang (Seq r1 r2) s -> exists s1 s2, s = s1 ++ s2 /\ lang r1 s1 /\ lang r2 s2.
Proof. intro H. inversion H; subst. eauto. Qed.

Lemma lang_alt_inv (r1 r2 : regex) (s : jsstring) :
  lang (Alt r1 r2) s -> lang r1 s \/ lang r2 s.
Proof. intro H. inversion H; subst; auto. Qed.

(** A non-empty match of [r*] starts with a non-empty match of [r]. *)
Lemma lang_star_cons_inv (r : regex) (c : N) (s : jsstring) :
  lang (Star r) (c :: s) ->
  exists s1 s2, s = s1 ++ s2 /\ lang r (c :: s1) /\ lang (Star r) s2.
Proof.
  assert (G : forall r' s', lang r' s' ->
              forall k t, r' = Star r -> s' = k :: t ->
              exists s1 s2, t = s1 ++ s2 /\ lang r (k :: s1) /\ lang (Star r) s2).
  { intros r' s' H.
    induction H as [|p0 c0 Hp|r1 r2 s1 s2 H1 _ H2 _|r1 r2 s0 H0 _|r1 r2 s0 H0 _
                   |r0|r0 s1 s2 H1 _ H2 IH2];
      intros k t Er Es; try discriminate Er.
    - discriminate Es.
    - inversion Er; subst r0. destruct s1 as [|d s1]; simpl in Es.
      + apply (IH2 k t eq_refl Es).
      + inversion Es; subst. exists s1, s2. auto. }
  intro H. apply (G _ _ H c s eq_refl eq_refl).
Qed.

Lemma nullable_lang (r : regex) : nullable r = true <-> lang r [].
Proof.
  induction r as [| |p|r1 IH1 r2 IH2|r1 IH1 r2 IH2|r IH]; simpl.
  - split; [discriminate | intro H; inversion H].
  - split; [constructor | reflexivity].
  - split; [discriminate | intro H; inversion H].
  - rewrite andb_true_iff, IH1, IH2. split.
    + intros [H1 H2]. apply (lang_seq _ _ [] [] H1 H2).
    + intro H. apply lang_seq_inv in H. destruct H as [s1 [s2 [E [H1 H2]]]].
      symmetry in E. apply app_eq_nil in E. destruct E; subst. auto.
  - rewrite orb_true_iff, IH1, IH2. split.
    + intros [H|H]; [apply lang_alt_l | apply lang_alt_r]; exact H.
    + apply lang_alt_inv.
  - split; [constructor | reflexivity].
Qed.

Lemma lang_mkSeq (r1 r2 : regex) (s : jsstring) :
  lang (mkSeq r1 r2) s <-> lang (Seq r1 r2) s.
Proof.
  destruct r1; simpl; try reflexivity.
  - split; intro H; [inversion H|].
    apply lang_seq_inv in H. destruct H as [s1 [s2 [_ [H _]]]]. inversion H.
  - split; intro H.
    + apply (lang_seq Eps r2 [] s lang_eps H).
    + apply lang_seq_inv in H. destruct H as [s1 [s2 [E [H1 H2]]]].
      apply lang_eps_inv in H1. subst. exact H2.
Qed.

Lemma lang_mkAlt (r1 r2 : regex) (s : jsstring) :
  lang (mkAlt r1 r2) s <-> lang (Alt r1 r2) s.
Proof.
  assert (L : lang r2 s <-> lang (Alt Fail r2) s).
  { split; intro H; [apply lang_alt_r; exact H|].
    apply lang_alt_inv in H. destruct H as [H|H]; [inversion H | exact H]. }
  assert (R : lang r1 s <-> lang (Alt r1 Fail) s).
  { split; intro H; [apply lang_alt_l; exact H|].
    apply lang_alt_inv in H. destruct H as [H|H]; [exact H | inversion H]. }
  destruct r1; simpl; try exact L; destruct r2; simpl;
    try exact R; reflexivity.
Qed.

Lemma deriv_lang (c : N) (r : regex) :
  forall s, lang (deriv c r) s <-> lang r (c :: s).
Proof.
  induction r as [| |p|r1 IH1 r2 IH2|r1 IH1 r2 IH2|r IH]; intro s; simpl.
  - split; intro H; inversion H.
  - split; intro H; inversion H.
  - destruct (p c) eqn:E.
    + split; intro H.
      * apply lang_eps_inv in H. subst. constructor. exact E.
      * apply lang_cls_inv in H. destruct H as [d [Es _]].
        inversion Es; subst. constructor.
    + split; intro H; [inversion H|].
      apply lang_cls_inv in H. destruct H as [d [Es Ed]].
      inversion Es; subst. congruence.
  - rewrite lang_mkAlt. split; intro H.
    + apply lang_alt_inv in H. destruct H as [H|H].
      * apply lang_mkSeq, lang_seq_inv in H.
        destruct H as [s1 [s2 [E [H1 H2]]]]. subst.
        apply IH1 in H1. apply (lang_seq r1 r2 (c :: s1) s2 H1 H2).
      * destruct (nullable r1) eqn:E; [|inversion H].
        apply nullable_lang in E. apply IH2 in H.
        apply (lang_seq r1 r2 [] (c :: s) E H).
    + apply lang_seq_inv in H. destruct H as [s1 [s2 [E [H1 H2]]]].
      destruct s1 as [|d s1]; simpl in E.
      * subst s2. apply lang_alt_r. apply nullable_lang in H1. rewrite H1.
        apply IH2. exact H2.
      * inversion E; subst. apply lang_alt_l, lang_mkSeq.
        apply lang_seq; [apply IH1; exact H1 | exact H2].
  - rewrite lang_mkAlt. split; intro H.
    + apply lang_alt_inv in H. destruct H as [H|H];
        [apply lang_alt_l, IH1 | apply lang_alt_r, IH2]; exact H.
    + apply lang_alt_inv in H. destruct H as [H|H];
        [apply lang_alt_l, IH1 | apply lang_alt_r, IH2]; exact H.
  - rewrite lang_mkSeq. split; intro H.
    + apply lang_seq_inv in H. destruct H as [s1 [s2 [E [H1 H2]]]]. subst.
      apply IH in H1. apply (lang_star_app r (c :: s1) s2 H1 H2).
    + apply lang_star_cons_inv in H. destruct H as [s1 [s2 [E [H1 H2]]]].
      subst. apply lang_seq; [apply IH; exact H1 | exact H2].
Qed.

(** [matches r s] holds exactly when the whole of [s] is in the language
    of [r]. *)
Lemma matches_lang (r : regex) (s : jsstring) :
  matches r s = true <-> lang r s.
Proof.
  revert r. induction s as [|c s IH]; intro r; simpl.
  - apply nullable_lang.
  - rewrite IH. apply deriv_lang.
Qed.

End Regex.

(** ** Submit disambiguation *)

(** What [handleSubmit] hands to [navigate]. *)
Lemma handleSubmit_spec (env : Env) (w : World) :
  let input := trim (url w) in
  let w1 := with_trace (trace w ++ [PreventDefault]) w in
  handleSubmit env w =
    if matches url_pattern input then
      navigate (if startsWith input (js "http") then input else js "https://" ++ input)
               env w1
    else
      match encodeURIComponent input with
      | Some q => navigate (search_prefix ++ q) env w1
      | None => (Throws, w1)
      end.
Proof.
  intros input w1. unfold handleSubmit, bind, preventDefault, emit, update, read.
  simpl. fold input. fold w1.
  destruct (matches url_pattern input); [reflexivity|].
  destruct (encodeURIComponent input); reflexivity.
Qed.

(** The two inputs the specification gives: [example.com] is a URL and gets
    the [https://] prefix; [buy milk] is a query and is percent-encoded. *)
Lemma handleSubmit_examples :
  requests (trace (step env_online (with_url (js "example.com") world_abc) ASubmit))
    = [mkRequest (Some (js "abc")) (Navigate (js "https://example.com"))]
  /\ requests (trace (step env_online (with_url (js "buy milk") world_abc) ASubmit))
    = [mkRequest (Some (js "abc"))
         (Navigate (js "https://www.google.com/search?q=buy%20milk"))].
Proof. split; vm_compute; reflexivity. Qed.

(** C6.  The text [httpbin.org] matches the pattern and so is a URL; it has
    no scheme; yet, because it starts with the letters [http], it is
    navigated to as it is, without the [https://] prefix. *)
Theorem submit_keeps_schemeless_http_host :
  let w := with_url (js "httpbin.org") world_abc in
  trim (url w) = js "httpbin.org"
  /\ matches url_pattern (js "httpbin.org") = true
  /\ startsWith (js "httpbin.org") (js "http://") = false
  /\ startsWith (js "httpbin.org") (js "https://") = false
  /\ requests (trace (step env_online w ASubmit))
     = [mkRequest (Some (js "abc")) (Navigate (js "httpbin.org"))]
  /\ url (step env_online w ASubmit) = js "httpbin.org".
Proof. repeat split; vm_compute; reflexivity. Qed.

(** ** End to end *)

(** With [session_id = 'abc'], a left click at [(100, 50)] on a 200 x 100
    surface is sent as a click at [(640, 360)]. *)
Lemma click_end_to_end :
  requests (trace (step env_online world_abc (AClick (mkMouse 100 50 0))))
  = [mkRequest (Some (js "abc")) (MouseClick (Some 640) (Some 360) 0)].
Proof. vm_compute. reflexivity. Qed.

(** The pointer handlers send what the mapper gives for the position
    relative to the surface. *)
Lemma handleClick_uses_mapper (env : Env) (w : World) (e : MouseEv) (rect : DOMRect) :
  falsy (sessionId w) = false ->
  video env = Some rect ->
  let p := mapper (fsub (clientX e) (rect_left rect)) (fsub (clientY e) (rect_top rect))
                  (rect_width rect) (rect_height rect) in
  requests (trace (step env w (AClick e)))
    = requests (trace w) ++ [mkRequest (sessionId w) (MouseClick (fst p) (snd p) (button e))]
  /\ requests (trace (step env w (AMouseMove e)))
    = requests (trace w) ++ [mkRequest (sessionId w) (MouseMove (fst p) (snd p))]
  /\ requests (trace (step env w (AContextMenu e)))
    = requests (trace w) ++ [mkRequest (sessionId w) (MouseClick (fst p) (snd p) 2)].
Proof.
  intros H V p. subst p. unfold mapper. simpl.
  repeat split; unfold_m; simpl; rewrite V, H; simpl;
    match goal with
    | |- context [fetch env ?r] => destruct (fetch env r)
    end; simpl; rewrite !requests_app; simpl; rewrite ?app_nil_r; reflexivity.
Qed.

(** ** The theorems at sample inputs *)

Lemma scroll_scaling_witness :
  let w := world_abc in
  let e := mkWheel 40 in
  let T := 1016 in
  let t := clock w - lastScrollTime w in
  let w' := snd (handleWheelEvent e env_online w) in
  exists scaled isTrackpad m,
    timers w' = [mkTimer (next_timer_id w) (clock w + 16)
                   (mkRequest (sessionId w) (Scroll scaled isTrackpad))]
    /\ requests (trace w') = requests (trace w)
    /\ requests (trace (step env_online w' (ATime T)))
       = requests (trace w) ++ [mkRequest (sessionId w) (Scroll scaled isTrackpad)]
    /\ (isTrackpad = true <-> (Qabs (deltaY e) < 50)%Q)
    /\ (isTrackpad = true -> t < 100 -> m = 12%Q)
    /\ (isTrackpad = true -> 100 <= t -> m = 8%Q)
    /\ (isTrackpad = false -> t < 100 -> m = (9 # 2)%Q)
    /\ (isTrackpad = false -> 100 <= t -> m = 3%Q)
    /\ fmul 8 (3 # 2) = 12%Q /\ fmul 3 (3 # 2) = (9 # 2)%Q
    /\ scaled = fmul (deltaY e) m
    /\ (Qabs (scaled - deltaY e * m) <= Qabs (deltaY e * m) * unit_roundoff)%Q
    /\ (forall z, (deltaY e == inject_Z z)%Q -> Z.abs z < 2 ^ 49 ->
                  (scaled == deltaY e * m)%Q)
    /\ lastScrollTime w' = clock w
    /\ isTrackpad_of (mkWheel 40) = true
    /\ isTrackpad_of (mkWheel 120) = false.
Proof.
  apply (scroll_scaling env_online world_abc (mkWheel 40) 1016).
  - exact reachable_world_abc.
  - reflexivity.
  - vm_compute. discriminate.
Defined.

(** C5, the input that refutes the exact product: the binary64 value nearest
    to [0.1], arriving 10 ms after another wheel event.  It is a
    trackpad's, the multiplier is [12], and the message sent carries
    [1.2000000000000002], the product rounded to binary64, which is not
    [deltaY * 12]. *)
Lemma scaled_delta_is_rounded :
  let tenth := (3602879701896397 # 36028797018963968)%Q in
  fl (1 # 10) = tenth
  /\ requests (trace (run env_online world_abc
                        [AWheel (mkWheel 40); ATime 1010; AWheel (mkWheel tenth);
                         ATime 1026]))
     = [mkRequest (Some (js "abc"))
          (Scroll (1351079888211149 # 1125899906842624) true)]
  /\ ~ (1351079888211149 # 1125899906842624 == tenth * (8 * (3 # 2)))%Q
  /\ (tenth * (8 * (3 # 2)) < 1351079888211149 # 1125899906842624)%Q.
Proof.
  repeat split; try (vm_compute; (reflexivity || discriminate)).
Qed.

Lemma clipboard_bridge_spec_witness :
  let r := mkRequest (sessionId world_abc) ClipboardCopy in
  let tail :=
    match fetch env_online r with
    | Rejects => [ConsoleError "Failed to copy:"]
    | Resolves NotAnObject => [ConsoleError "Failed to copy:"]
    | Resolves (Json None) => []
    | Resolves (Json (Some [])) => []
    | Resolves (Json (Some (c :: t))) =>
        ClipboardWriteText (c :: t)
          :: (if clipboard_writeText env_online (c :: t) then []
              else [ConsoleError "Failed to copy:"])
    end in
  handleKeyDown ctrl_c env_online world_abc
    = (Normal tt, with_trace (trace world_abc ++ FetchEvent r :: tail) world_abc)
  /\ requests tail = []
  /\ (forall t, In (ClipboardWriteText t) tail
                <-> fetch env_online r = Resolves (Json (Some t)) /\ t <> [])
  /\ ~ In PreventDefault (FetchEvent r :: tail).
Proof.
  apply (proj1 (clipboard_bridge_spec env_online world_abc ctrl_c eq_refl eq_refl)).
  reflexivity.
Defined.

Lemma clipboard_keydown_requests_witness :
  exists sent,
    requests (trace (step env_online world_abc (AKeyDown ctrl_v)))
      = requests (trace world_abc) ++ sent
    /\ forallb is_clipboard_request sent = true
    /\ (key ctrl_v = js "c" -> sent = [mkRequest (sessionId world_abc) ClipboardCopy])
    /\ (key ctrl_v = js "v" ->
        sent = match clipboard_readText env_online with
               | Some text => [mkRequest (sessionId world_abc) (ClipboardPaste text)]
               | None => []
               end).
Proof.
  apply (clipboard_keydown_requests env_online world_abc ctrl_v).
  - reflexivity.
  - reflexivity.
  - right. reflexivity.
Defined.


(* ================================================================== *)
(** * Further properties *)

(** ** Sending with a logged failure *)

Lemma try_send (r : Request) (msg : string) (env : Env) (w : World) :
  try_catch (fetchEvent r ;; ret tt)%M (console_error msg) env w
  = (Normal tt, with_trace (trace w ++ sent_and_logged env r msg) w).
Proof.
  unfold sent_and_logged. unfold_m. simpl.
  destruct (fetch env r); simpl; unfold with_trace; simpl;
    rewrite <- ?app_assoc; reflexivity.
Qed.

Lemma requests_sent_and_logged (env : Env) (r : Request) (msg : string) :
  requests (sent_and_logged env r msg) = [r].
Proof. unfold sent_and_logged. simpl. destruct (fetch env r); reflexivity. Qed.

(** ** Worlds that extend one another *)

Lemma extends_refl (w : World) : extends w w.
Proof.
  split; [reflexivity|]. exists []. rewrite app_nil_r. split; [reflexivity|constructor].
Qed.

Lemma extends_trans (w1 w2 w3 : World) : extends w1 w2 -> extends w2 w3 -> extends w1 w3.
Proof.
  intros [S1 [t1 [E1 F1]]] [S2 [t2 [E2 F2]]]. split; [congruence|].
  exists (t1 ++ t2). split.
  - rewrite E2, E1, app_assoc. reflexivity.
  - rewrite requests_app. apply Forall_app. split; [exact F1|].
    rewrite S1 in F2. exact F2.
Qed.

(** Adding to the trace something that is not a request, or a request that
    carries the session identifier. *)
Lemma extends_emit (w : World) (e : Effect) :
  match e with
  | FetchEvent r => carries (sessionId w) r
  | _ => True
  end ->
  extends w (with_trace (trace w ++ [e]) w).
Proof.
  intro H. split; [reflexivity|]. exists [e]. split; [reflexivity|].
  destruct e; simpl; try constructor; [exact H | constructor].
Qed.

Lemma extending_ret {A} (s : option jsstring) (a : A) : extending s (ret a).
Proof. intros env w _. apply extends_refl. Qed.

Lemma extending_throw {A} (s : option jsstring) : extending s (@throw A).
Proof. intros env w _. apply extends_refl. Qed.

Lemma extending_read {A} (s : option jsstring) (f : World -> A) : extending s (read f).
Proof. intros env w _. apply extends_refl. Qed.

Lemma extending_ask {A} (s : option jsstring) (f : Env -> A) : extending s (ask f).
Proof. intros env w _. apply extends_refl. Qed.

Lemma extending_update (s : option jsstring) (f : World -> World) :
  (forall w, sessionId (f w) = sessionId w /\ trace (f w) = trace w) ->
  extending s (update f).
Proof.
  intros H env w _. destruct (H w) as [S T]. split; [exact S|].
  exists []. simpl. rewrite T, app_nil_r. split; [reflexivity|constructor].
Qed.

Lemma extending_emit (s : option jsstring) (e : Effect) :
  match e with
  | FetchEvent r => carries s r
  | _ => True
  end ->
  extending s (emit e).
Proof. intros H env w E. subst s. apply extends_emit. exact H. Qed.

Lemma extending_bind {A B} (s : option jsstring) (m : M A) (k : A -> M B) :
  extending s m -> (forall a, extending s (k a)) -> extending s (bind m k).
Proof.
  intros Hm Hk env w E. unfold bind.
  specialize (Hm env w E). destruct (m env w) as [[a|] w1]; simpl in Hm.
  - apply (extends_trans _ _ _ Hm). apply Hk. destruct Hm as [S _]. congruence.
  - exact Hm.
Qed.

(** The continuation of a read of [sessionId] only matters at [s]. *)
Lemma extending_bind_session {B} (s : option jsstring) (k : option jsstring -> M B) :
  extending s (k s) -> extending s (bind (read sessionId) k).
Proof. intros Hk env w E. unfold bind, read. rewrite E. apply Hk. exact E. Qed.

Lemma extending_try_catch {A} (s : option jsstring) (m h : M A) :
  extending s m -> extending s h -> extending s (try_catch m h).
Proof.
  intros Hm Hh env w E. unfold try_catch.
  specialize (Hm env w E). destruct (m env w) as [[a|] w1]; simpl in Hm.
  - exact Hm.
  - apply (extends_trans _ _ _ Hm). apply Hh. destruct Hm as [S _]. congruence.
Qed.

Lemma extending_try_finally {A} (s : option jsstring) (m : M A) (f : M unit) :
  extending s m -> extending s f -> extending s (try_finally m f).
Proof.
  intros Hm Hf env w E. unfold try_finally.
  specialize (Hm env w E). destruct (m env w) as [c w1]; simpl in Hm.
  assert (E1 : sessionId w1 = s) by (destruct Hm as [S _]; congruence).
  specialize (Hf env w1 E1). destruct (f env w1) as [[[]|] w2]; simpl in *;
    apply (extends_trans _ _ _ Hm Hf).
Qed.

Lemma extending_fetchEvent (s : option jsstring) (r : Request) :
  carries s r -> extending s (fetchEvent r).
Proof.
  intro H. unfold fetchEvent.
  apply extending_bind; [apply extending_emit; exact H | intros _].
  apply extending_bind; [apply extending_ask | intros [|resp]];
    [apply extending_throw | apply extending_ret].
Qed.

Lemma extending_setTimeout (s : option jsstring) (r : Request) (delay : Z) :
  extending s (setTimeout r delay).
Proof.
  intros env w _. split; [reflexivity|].
  exists [SetTimeout (next_timer_id w) delay]. split; [reflexivity|constructor].
Qed.

(** A request built with a truthy [s] carries it. *)
Lemma carries_truthy (s : option jsstring) (b : EventBody) :
  falsy s = false -> carries s (mkRequest s b).
Proof. intro H. split; [reflexivity|]. intro F. congruence. Qed.

Ltac extending_step :=
  first
    [ apply extending_ret | apply extending_throw | apply extending_ask
    | apply extending_bind_session
    | apply extending_read
    | apply extending_setTimeout
    | apply extending_fetchEvent;
        first [ apply carries_truthy; assumption
              | split; [reflexivity | intros _; eexists; reflexivity] ]
    | apply extending_emit; exact I
    | apply extending_update; intro; split; reflexivity
    | apply extending_bind; [|intro]
    | apply extending_try_catch
    | apply extending_try_finally
    | match goal with
      | |- extending ?s (if falsy ?s then _ else _) => destruct (falsy s) eqn:?
      | |- extending _ (match ?x with _ => _ end) => destruct x
      end ].

Ltac extending_auto :=
  unfold handleMouseMove, handleClick, handleContextMenu, handleWheelEvent,
    handleKeyDown, handleKeyPress, handleSubmit, onReloadClick, onBackClick,
    onForwardClick, onUrlChange, navigate, copy_from_remote, paste_to_remote,
    send_keyboard, clipboardReadText, clipboardWriteText, response_text,
    clearTimeout, setIsLoading, setUrl, preventDefault, console_error;
  repeat extending_step.

(** Every handler extends the world it runs in. *)
Lemma handlers_extending (s : option jsstring) (a : Action) :
  match a with
  | ASession _ | ATime _ => False
  | _ => True
  end ->
  extending s (dispatch a).
Proof. intro G. destruct a; try destruct G; simpl; extending_auto. Qed.

(** ** What every request carries *)

Lemma timers_tagged_step (env : Env) (w : World) (a : Action) :
  one_pending w -> timers_tagged w -> timers_tagged (step env w a).
Proof.
  intros I T.
  assert (F : forall a', match a' with
                         | AWheel _ | ASession _ | ATime _ => False
                         | _ => True
                         end -> timers_tagged (step env w a')).
  { intros a' G. destruct (timers_frame a' G env w) as [Tm _].
    assert (G' : match a' with ASession _ | ATime _ => False | _ => True end)
      by (destruct a'; try exact Logic.I; destruct G).
    destruct (handlers_extending (sessionId w) a' G' env w eq_refl) as [S _].
    unfold timers_tagged, step. rewrite Tm, S. exact T. }
  destruct a; try (apply F; exact Logic.I).
  - (* wheel *)
    unfold step, dispatch. destruct (falsy (sessionId w)) eqn:H.
    + rewrite handleWheelEvent_no_session by exact H. exact T.
    + rewrite handleWheelEvent_session by exact H. unfold timers_tagged. simpl.
      rewrite (cancel_pending w I). simpl. constructor; [|constructor].
      split; [reflexivity | exact H].
  - (* the session identifier arrives *)
    unfold timers_tagged, step, dispatch, setSessionId, scroll_effect_cleanup.
    unfold_m. simpl. pose proof (cancel_pending w I) as C.
    destruct (scrollTimeout w); simpl; rewrite C; constructor.
  - (* time passes *)
    destruct (advance_spec env w t) as [tr [E _]]. rewrite E.
    unfold timers_tagged in *. simpl.
    apply Forall_forall. intros tm J. apply filter_In in J. destruct J as [J _].
    rewrite Forall_forall in T. apply T, J.
Qed.

Lemma reachable_timers_tagged (w : World) : reachable w -> timers_tagged w.
Proof.
  induction 1 as [t0|env w a R IH].
  - constructor.
  - apply timers_tagged_step; [apply reachable_one_pending; exact R | exact IH].
Qed.

(** X1.  Whatever happens to the component, in a world it can be in, the
    trace is only extended, and every request sent carries the session
    identifier the component holds at that moment; a request can go out
    with a falsy identifier only if it is a back or forward command. *)
Theorem requests_carry_session (env : Env) (w : World) (a : Action) :
  reachable w ->
  exists tr,
    trace (step env w a) = trace w ++ tr
    /\ Forall (fun r => session_id r = sessionId w
                        /\ (falsy (sessionId w) = true ->
                            exists n, body r = NavigateAction n))
              (requests tr).
Proof.
  intro R.
  assert (G : forall a', match a' with ASession _ | ATime _ => False | _ => True end ->
              exists tr, trace (step env w a') = trace w ++ tr
                         /\ Forall (carries (sessionId w)) (requests tr)).
  { intros a' G. destruct (handlers_extending (sessionId w) a' G env w eq_refl) as [_ E].
    exact E. }
  destruct a; try (apply G; exact Logic.I).
  - (* the session identifier arrives: nothing is sent *)
    unfold step, dispatch, setSessionId, scroll_effect_cleanup. unfold_m. simpl.
    destruct (scrollTimeout w) as [id|]; simpl.
    + exists [ClearTimeout id]. split; [reflexivity | constructor].
    + exists []. rewrite app_nil_r. split; [reflexivity | constructor].
  - (* time passes: the pending timers send what they were scheduled with *)
    destruct (advance_spec env w t) as [tr [E Rq]]. rewrite E. simpl.
    exists tr. split; [reflexivity|]. rewrite Rq.
    pose proof (reachable_timers_tagged w R) as T. unfold timers_tagged in T.
    rewrite Forall_forall in *. intros r J.
    apply in_map_iff in J. destruct J as [tm [Er J]]. subst r.
    apply filter_In in J. destruct J as [J _].
    destruct (T tm J) as [S H]. split; [exact S|]. intro F. congruence.
Qed.

Lemma requests_carry_session_witness :
  exists tr,
    trace (step env_online world_abc (AClick (mkMouse 100 50 0)))
      = trace world_abc ++ tr
    /\ Forall (fun r => session_id r = sessionId world_abc
                        /\ (falsy (sessionId world_abc) = true ->
                            exists n, body r = NavigateAction n))
              (requests tr).
Proof.
  apply (requests_carry_session env_online world_abc (AClick (mkMouse 100 50 0))).
  exact reachable_world_abc.
Defined.

(** ** The session guard *)

Lemma with_trace_nil (w : World) : with_trace (trace w ++ []) w = w.
Proof. rewrite app_nil_r. destruct w; reflexivity. Qed.

(** X2.  Without a session identifier, a handler that has the guard leaves
    the component exactly as it was: nothing is sent, nothing is scheduled,
    no state changes; the only thing the context-menu, wheel and submit
    handlers do is suppress the browser's default action. *)
Theorem guarded_handlers_inert (env : Env) (w : World) (a : Action) :
  is_guarded a = true ->
  falsy (sessionId w) = true ->
  step env w a
  = with_trace (trace w ++ if prevents_default a then [PreventDefault] else []) w.
Proof.
  intros G H.
  destruct a; try discriminate G; clear G; simpl prevents_default;
    rewrite ?with_trace_nil;
    unfold_m; simpl;
    repeat (simpl; rewrite ?H; simpl;
            match goal with
            | |- context [match ?x with _ => _ end] => destruct x eqn:?
            end);
    simpl; rewrite ?H; simpl; reflexivity.
Qed.

Lemma guarded_handlers_inert_witness :
  step env_online (initial_world 0) (AWheel (mkWheel 120))
  = with_trace (trace (initial_world 0)
                  ++ if prevents_default (AWheel (mkWheel 120))
                     then [PreventDefault] else [])
               (initial_world 0).
Proof.
  apply (guarded_handlers_inert env_online (initial_world 0) (AWheel (mkWheel 120)));
    reflexivity.
Defined.

(** ** Pointer events *)

Lemma pointer_handlers_spec (env : Env) (w : World) (e : MouseEv) (rect : DOMRect) :
  falsy (sessionId w) = false ->
  video env = Some rect ->
  let x := to_virtual (fsub (clientX e) (rect_left rect)) 1280 (rect_width rect) in
  let y := to_virtual (fsub (clientY e) (rect_top rect)) 720 (rect_height rect) in
  handleMouseMove e env w
    = (Normal tt,
       with_trace (trace w ++ sent_and_logged env (mkRequest (sessionId w) (MouseMove x y))
                                "Failed to send mouse event:") w)
  /\ handleClick e env w
    = (Normal tt,
       with_trace (trace w ++ sent_and_logged env
                                (mkRequest (sessionId w) (MouseClick x y (button e)))
                                "Failed to send click event:") w)
  /\ handleContextMenu e env w
    = (Normal tt,
       with_trace (trace w ++ PreventDefault
                     :: sent_and_logged env (mkRequest (sessionId w) (MouseClick x y 2))
                          "Failed to send right-click event:") w).
Proof.
  intros H V x y. subst x y. unfold sent_and_logged.
  repeat split; unfold_m; simpl; rewrite V, H; simpl;
    match goal with
    | |- context [fetch env ?r] => destruct (fetch env r)
    end; simpl; unfold with_trace; simpl; rewrite <- ?app_assoc; reflexivity.
Qed.

(** X3.  With a session, on a surface of positive size, a mouse move, a
    click or a context-menu event at a position on the surface sends
    exactly one mouse request, and its coordinates are in
    [[0,1280] x [0,720]]; the component's state does not change. *)
Theorem pointer_on_surface_in_range
        (env : Env) (w : World) (e : MouseEv) (rect : DOMRect) (a : Action) :
  falsy (sessionId w) = false ->
  video env = Some rect ->
  (0 < rect_width rect)%Q -> (0 < rect_height rect)%Q ->
  on_surface e rect ->
  a = AMouseMove e \/ a = AClick e \/ a = AContextMenu e ->
  exists r tr,
    step env w a = with_trace (trace w ++ tr) w
    /\ requests tr = [r]
    /\ session_id r = sessionId w
    /\ in_virtual_range r.
Proof.
  intros H V Hw Hh [L [R [T B]]] A.
  destruct (offset_on_surface _ _ _ L R) as [X0 X1].
  destruct (offset_on_surface _ _ _ T B) as [Y0 Y1].
  destruct (to_virtual_in_range _ _ 1280 Hw ltac:(lia) X0 X1) as [X [EX RX]].
  destruct (to_virtual_in_range _ _ 720 Hh ltac:(lia) Y0 Y1) as [Y [EY RY]].
  change (inject_Z 1280) with 1280%Q in EX. change (inject_Z 720) with 720%Q in EY.
  destruct (pointer_handlers_spec env w e rect H V) as [Mv [Ck Cm]].
  rewrite EX, EY in Mv, Ck, Cm.
  unfold step. destruct A as [A|[A|A]]; subst a; simpl dispatch.
  - rewrite Mv.
    exists (mkRequest (sessionId w) (MouseMove (Some X) (Some Y))).
    eexists. split; [reflexivity|].
    split; [apply requests_sent_and_logged|].
    repeat split; apply RX || apply RY.
  - rewrite Ck.
    exists (mkRequest (sessionId w) (MouseClick (Some X) (Some Y) (button e))).
    eexists. split; [reflexivity|].
    split; [apply requests_sent_and_logged|].
    repeat split; apply RX || apply RY.
  - rewrite Cm.
    exists (mkRequest (sessionId w) (MouseClick (Some X) (Some Y) 2)).
    eexists. split; [reflexivity|].
    split; [simpl; apply requests_sent_and_logged|].
    repeat split; apply RX || apply RY.
Qed.

Lemma pointer_on_surface_in_range_witness :
  exists r tr,
    step env_online world_abc (AClick (mkMouse 100 50 0))
      = with_trace (trace world_abc ++ tr) world_abc
    /\ requests tr = [r]
    /\ session_id r = sessionId world_abc
    /\ in_virtual_range r.
Proof.
  apply (pointer_on_surface_in_range env_online world_abc (mkMouse 100 50 0)
           (mkRect 0 0 200 100) (AClick (mkMouse 100 50 0))).
  - reflexivity.
  - reflexivity.
  - reflexivity.
  - reflexivity.
  - unfold on_surface. simpl. repeat split; discriminate.
  - right. left. reflexivity.
Defined.

(** ** Which handlers can throw *)

Lemma nt_ret {A} (a : A) : never_throws (ret a).
Proof. intros env w. exists a. reflexivity. Qed.

Lemma nt_read {A} (f : World -> A) : never_throws (read f).
Proof. intros env w. eexists. reflexivity. Qed.

Lemma nt_ask {A} (f : Env -> A) : never_throws (ask f).
Proof. intros env w. eexists. reflexivity. Qed.

Lemma nt_update (f : World -> World) : never_throws (update f).
Proof. intros env w. exists tt. reflexivity. Qed.

Lemma nt_emit (e : Effect) : never_throws (emit e).
Proof. apply nt_update. Qed.

Lemma nt_setTimeout (r : Request) (delay : Z) : never_throws (setTimeout r delay).
Proof. intros env w. eexists. reflexivity. Qed.

Lemma nt_bind {A B} (m : M A) (k : A -> M B) :
  never_throws m -> (forall a, never_throws (k a)) -> never_throws (bind m k).
Proof.
  intros Hm Hk env w. unfold bind. destruct (Hm env w) as [a Ea].
  destruct (m env w) as [c w1]. simpl in Ea. subst c. apply Hk.
Qed.

(** A handler whose [catch] block cannot throw swallows every exception. *)
Lemma nt_try_catch {A} (m h : M A) : never_throws h -> never_throws (try_catch m h).
Proof.
  intros Hh env w. unfold try_catch. destruct (m env w) as [[a|] w1].
  - exists a. reflexivity.
  - apply Hh.
Qed.

Lemma nt_try_finally {A} (m : M A) (f : M unit) :
  never_throws m -> never_throws f -> never_throws (try_finally m f).
Proof.
  intros Hm Hf env w. unfold try_finally. destruct (Hm env w) as [a Ea].
  destruct (m env w) as [c w1]. simpl in Ea. subst c.
  destruct (Hf env w1) as [u Eu]. destruct (f env w1) as [c w2]. simpl in Eu. subst c.
  exists a. reflexivity.
Qed.

Lemma nt_run_timers (tms : list Timer) : never_throws (run_timers tms).
Proof.
  induction tms as [|tm tms IH]; simpl.
  - apply nt_ret.
  - apply nt_bind; [|intros _; exact IH].
    apply nt_try_catch, nt_emit.
Qed.

Ltac nt_step :=
  first
    [ apply nt_ret | apply nt_read | apply nt_ask | apply nt_emit
    | apply nt_update | apply nt_setTimeout | apply nt_run_timers
    | apply nt_try_catch
    | apply nt_try_finally
    | apply nt_bind; [|intro]
    | match goal with
      | |- never_throws (match ?x with _ => _ end) => destruct x
      end ].

Ltac nt_auto :=
  unfold handleMouseMove, handleClick, handleContextMenu, handleWheelEvent,
    handleKeyDown, handleKeyPress, onReloadClick, onUrlChange, setSessionId,
    scroll_effect_cleanup, advance, navigate, copy_from_remote, paste_to_remote,
    send_keyboard, clearTimeout, setIsLoading, setUrl, preventDefault,
    console_error;
  repeat nt_step.

Lemma navigate_never_throws (u : jsstring) : never_throws (navigate u).
Proof. nt_auto. Qed.

Lemma caught_handlers_never_throw (a : Action) :
  match a with
  | ASubmit | ABack | AForward => False
  | _ => True
  end ->
  never_throws (dispatch a).
Proof. intro G. destruct a; try destruct G; simpl; nt_auto. Qed.

(** The back and forward buttons send their request and do nothing else;
    a failure of the request is neither caught nor logged. *)
Lemma nav_button_spec (env : Env) (w : World) (n : NavAction) :
  let r := mkRequest (sessionId w) (NavigateAction n) in
  dispatch (match n with back => ABack | forward => AForward end) env w
  = (match fetch env r with
     | Rejects => Throws
     | Resolves _ => Normal tt
     end,
     with_trace (trace w ++ [FetchEvent r]) w).
Proof.
  intro r. subst r. destruct n; unfold_m; simpl;
    match goal with
    | |- context [fetch env ?r] => destruct (fetch env r)
    end; reflexivity.
Qed.

(** X4.  An exception escapes a handler in two cases only: the back or the
    forward button when its request fails, and a submit of a text that is
    not a URL and cannot be percent-encoded.  Every other failure (of a
    request, of the clipboard) is caught inside the handler. *)
Theorem uncaught_exceptions (env : Env) (w : World) (a : Action) :
  fst (dispatch a env w) = Throws
  <-> (a = ABack /\ fetch env (mkRequest (sessionId w) (NavigateAction back)) = Rejects)
      \/ (a = AForward
          /\ fetch env (mkRequest (sessionId w) (NavigateAction forward)) = Rejects)
      \/ (a = ASubmit
          /\ matches url_pattern (trim (url w)) = false
          /\ encodeURIComponent (trim (url w)) = None).
Proof.
  assert (N : forall a', match a' with
                         | ASubmit | ABack | AForward => False
                         | _ => True
                         end ->
              (fst (dispatch a' env w) = Throws <-> False)).
  { intros a' G. destruct (caught_handlers_never_throw a' G env w) as [u E].
    rewrite E. split; [discriminate | intros []]. }
  destruct a;
    try (match goal with
         | |- fst (dispatch ?a' _ _) = _ <-> _ => rewrite (N a' Logic.I)
         end;
         split; [intros [] |];
         intros [[E _]|[[E _]|[E _]]]; discriminate E).
  - (* submit *)
    change (dispatch ASubmit) with handleSubmit. rewrite handleSubmit_spec.
    destruct (matches url_pattern (trim (url w))) eqn:Mt.
    + destruct (navigate_never_throws
                  (if startsWith (trim (url w)) (js "http") then trim (url w)
                   else js "https://" ++ trim (url w))
                  env (with_trace (trace w ++ [PreventDefault]) w)) as [u E].
      rewrite E. split; [discriminate|].
      intros [[E' _]|[[E' _]|[_ [E' _]]]]; discriminate E'.
    + destruct (encodeURIComponent (trim (url w))) as [q|] eqn:Enc.
      * destruct (navigate_never_throws (search_prefix ++ q)
                    env (with_trace (trace w ++ [PreventDefault]) w)) as [u E].
        rewrite E. split; [discriminate|].
        intros [[E' _]|[[E' _]|[_ [_ E']]]]; discriminate E'.
      * simpl. split; [intros _; right; right; repeat split | reflexivity].
  - (* back *)
    rewrite (nav_button_spec env w back). simpl.
    destruct (fetch env _) eqn:F; simpl.
    + split; [intros _; left; split; reflexivity | reflexivity].
    + split; [discriminate|].
      intros [[_ E]|[[E _]|[E _]]]; discriminate E.
  - (* forward *)
    rewrite (nav_button_spec env w forward). simpl.
    destruct (fetch env _) eqn:F; simpl.
    + split; [intros _; right; left; split; reflexivity | reflexivity].
    + split; [discriminate|].
      intros [[E _]|[[_ E]|[E _]]]; discriminate E.
Qed.

(** ** Submit disambiguation: which texts are URLs *)

Lemma navigate_requests (env : Env) (w : World) (t : jsstring) :
  falsy (sessionId w) = false ->
  requests (trace (snd (navigate t env w)))
  = requests (trace w) ++ [mkRequest (sessionId w) (Navigate t)].
Proof.
  intro H. rewrite (navigate_with_session env w t H). simpl.
  destruct (fetch env _); simpl; rewrite requests_app; reflexivity.
Qed.

Lemma lang_chr_dot_inv (s : jsstring) : lang (Chr ".") s -> s = [46%N].
Proof.
  intro H. apply lang_cls_inv in H. destruct H as [c [E P]]. subst s.
  unfold cu_eqb in P. apply N.eqb_eq in P. simpl in P. subst c. reflexivity.
Qed.

(** Every text the pattern accepts contains a dot. *)
Lemma url_pattern_has_dot (s : jsstring) :
  matches url_pattern s = true -> In 46%N s.
Proof.
  intro H. apply matches_lang in H. unfold url_pattern, Plus in H.
  apply lang_seq_inv in H. destruct H as [s1 [s2 [E [_ H]]]]. subst s.
  apply lang_seq_inv in H. destruct H as [s3 [s4 [E [H _]]]]. subst s2.
  apply lang_seq_inv in H. destruct H as [s5 [s6 [E [H _]]]]. subst s3.
  apply lang_seq_inv in H. destruct H as [s7 [s8 [E [_ H]]]]. subst s5.
  apply lang_chr_dot_inv in H. subst s8.
  apply in_or_app. right. apply in_or_app. left. apply in_or_app. left.
  apply in_or_app. right. left. reflexivity.
Qed.

(** X5.  A text without a dot is never taken for a URL: with a session,
    submitting it navigates to the search URL of its percent-encoding. *)
Theorem dotless_text_is_searched (env : Env) (w : World) (q : jsstring) :
  falsy (sessionId w) = false ->
  ~ In 46%N (trim (url w)) ->
  encodeURIComponent (trim (url w)) = Some q ->
  requests (trace (step env w ASubmit))
  = requests (trace w) ++ [mkRequest (sessionId w) (Navigate (search_prefix ++ q))].
Proof.
  intros H D Q. unfold step. change (dispatch ASubmit) with handleSubmit.
  rewrite handleSubmit_spec.
  destruct (matches url_pattern (trim (url w))) eqn:Mt.
  - exfalso. apply D, url_pattern_has_dot, Mt.
  - rewrite Q. rewrite navigate_requests by exact H. simpl.
    rewrite requests_app. simpl. rewrite app_nil_r. reflexivity.
Qed.

Lemma dotless_text_is_searched_witness :
  requests (trace (step env_online (with_url (js "buy milk") world_abc) ASubmit))
  = requests (trace (with_url (js "buy milk") world_abc))
      ++ [mkRequest (sessionId (with_url (js "buy milk") world_abc))
            (Navigate (search_prefix ++ js "buy%20milk"))].
Proof.
  apply (dotless_text_is_searched env_online (with_url (js "buy milk") world_abc)
           (js "buy%20milk")).
  - reflexivity.
  - vm_compute. intuition discriminate.
  - reflexivity.
Defined.

Lemma lang_plus_cls (p : N -> bool) (l : jsstring) :
  l <> [] -> Forall (fun c => p c = true) l -> lang (Plus (Cls p)) l.
Proof.
  intros N F. destruct l as [|c l]; [contradiction N; reflexivity|]. clear N.
  inversion F as [|c' l' Pc Fl]; subst.
  change (c :: l) with ([c] ++ l). apply lang_seq; [constructor; exact Pc|].
  clear Pc F. induction l as [|d l IH]; [constructor|].
  inversion Fl as [|d' l' Pd Fl']; subst.
  change (d :: l) with ([d] ++ l). apply lang_star_app; [constructor; exact Pd|].
  apply IH. exact Fl'.
Qed.

Lemma lang_opt_nil (r : regex) : lang (Opt r) [].
Proof. apply lang_alt_r. constructor. Qed.

(** After the first label, any number of further labels: the dots in
    between close the repeated group, the last label ends the host. *)
Lemma lang_host_tail (r : regex) (first : jsstring) (rest : list jsstring) :
  is_label first -> Forall is_label rest ->
  lang (Seq (Star (Seq (Plus (Cls is_label_char)) (Chr ".")))
            (Seq (Plus (Cls is_label_char)) (Opt r)))
       (hostname first rest).
Proof.
  revert first. induction rest as [|l rest IH]; intros first [N F] Fr; simpl.
  - change first with ([] ++ first). apply lang_seq; [constructor|].
    rewrite <- (app_nil_r first). apply lang_seq; [|apply lang_opt_nil].
    apply lang_plus_cls; assumption.
  - inversion Fr as [|l' rest' Hl Frest]; subst.
    specialize (IH l Hl Frest). apply lang_seq_inv in IH.
    destruct IH as [s1 [s2 [E [H1 H2]]]]. rewrite E.
    replace (first ++ 46%N :: s1 ++ s2) with (((first ++ [46%N]) ++ s1) ++ s2)
      by (rewrite <- !app_assoc; reflexivity).
    apply lang_seq; [|exact H2].
    apply lang_star_app; [|exact H1].
    apply lang_seq; [apply lang_plus_cls; assumption|].
    constructor. reflexivity.
Qed.

(** Two or more labels joined by dots are accepted by the pattern. *)
Lemma hostname_matches (first second : jsstring) (rest : list jsstring) :
  is_label first -> is_label second -> Forall is_label rest ->
  matches url_pattern (hostname first (second :: rest)) = true.
Proof.
  intros [N F] Hs Fr. apply matches_lang. unfold url_pattern.
  change (hostname first (second :: rest))
    with ([] ++ hostname first (second :: rest)).
  apply lang_seq; [apply lang_opt_nil|].
  pose proof (lang_host_tail (Seq (Chr "/") (Star (Cls is_path_char)))
                second rest Hs Fr) as T.
  apply lang_seq_inv in T. destruct T as [s1 [s2 [E [H1 H2]]]].
  simpl hostname. rewrite E.
  replace (first ++ 46%N :: s1 ++ s2) with (((first ++ [46%N]) ++ s1) ++ s2)
    by (rewrite <- !app_assoc; reflexivity).
  apply lang_seq; [|exact H2].
  unfold Plus at 1. apply lang_seq; [|exact H1].
  apply lang_seq; [apply lang_plus_cls; assumption|].
  constructor. reflexivity.
Qed.

(** X6.  A text that, once trimmed, is two or more labels of [[\w-]]
    characters joined by dots is taken for a URL: with a session,
    submitting it navigates to it, with [https://] in front unless it
    starts with the letters [http]. *)
Theorem hostname_is_navigated
        (env : Env) (w : World) (first second : jsstring) (rest : list jsstring) :
  falsy (sessionId w) = false ->
  is_label first -> is_label second -> Forall is_label rest ->
  trim (url w) = hostname first (second :: rest) ->
  let h := hostname first (second :: rest) in
  requests (trace (step env w ASubmit))
  = requests (trace w)
      ++ [mkRequest (sessionId w)
            (Navigate (if startsWith h (js "http") then h else js "https://" ++ h))].
Proof.
  intros H F S R T h. unfold step. change (dispatch ASubmit) with handleSubmit.
  rewrite handleSubmit_spec, T. fold h.
  unfold h at 1. rewrite hostname_matches by assumption.
  rewrite navigate_requests by exact H. simpl.
  rewrite requests_app. simpl. rewrite app_nil_r. reflexivity.
Qed.

Lemma hostname_is_navigated_witness :
  let w := with_url (js "  www.example.com ") world_abc in
  let h := hostname (js "www") [js "example"; js "com"] in
  requests (trace (step env_online w ASubmit))
  = requests (trace w)
      ++ [mkRequest (sessionId w)
            (Navigate (if startsWith h (js "http") then h else js "https://" ++ h))].
Proof.
  apply (hostname_is_navigated env_online
           (with_url (js "  www.example.com ") world_abc)
           (js "www") (js "example") [js "com"]).
  - reflexivity.
  - split; [discriminate | repeat constructor].
  - split; [discriminate | repeat constructor].
  - repeat constructor; discriminate.
  - reflexivity.
Defined.

(** ** Percent-encoding *)

(** Turn the comparisons of a character class into arithmetic. *)
Ltac class_arith :=
  unfold is_uri_unreserved, is_high_surrogate, is_low_surrogate, is_word,
    is_label_char, is_path_char, is_js_whitespace in *;
  repeat match goal with
         | H : _ && _ = true |- _ => apply andb_true_iff in H; destruct H
         | H : _ || _ = true |- _ => apply orb_true_iff in H; destruct H
         | H : _ && _ = false |- _ => apply andb_false_iff in H; destruct H
         | H : _ || _ = false |- _ => apply orb_false_iff in H; destruct H
         | H : (_ <=? _)%N = true |- _ => apply N.leb_le in H
         | H : (_ <=? _)%N = false |- _ => apply N.leb_gt in H
         | H : (_ <? _)%N = true |- _ => apply N.ltb_lt in H
         | H : (_ <? _)%N = false |- _ => apply N.ltb_ge in H
         | H : (_ =? _)%N = true |- _ => apply N.eqb_eq in H
         | H : (_ =? _)%N = false |- _ => apply N.eqb_neq in H
         end.

Lemma surrogate_not_unreserved (c : N) :
  is_high_surrogate c = true \/ is_low_surrogate c = true ->
  is_uri_unreserved c = false.
Proof.
  intro H. destruct (is_uri_unreserved c) eqn:U; [|reflexivity].
  exfalso. destruct H as [H|H]; class_arith; lia.
Qed.

Lemma high_not_low (c : N) : is_high_surrogate c = true -> is_low_surrogate c = false.
Proof.
  intro H. destruct (is_low_surrogate c) eqn:L; [|reflexivity].
  exfalso. class_arith; lia.
Qed.

(** On well-formed text [encodeURIComponent] returns. *)
Lemma encodeURIComponent_total (s : jsstring) :
  well_formed s -> exists q, encodeURIComponent s = Some q.
Proof.
  induction 1 as [|c s Hh Hl W [q IH]|h l s Hh Hl W [q IH]].
  - exists []. reflexivity.
  - simpl. rewrite Hh, Hl, IH.
    destruct (is_uri_unreserved c); eexists; reflexivity.
  - simpl. rewrite (surrogate_not_unreserved h (or_introl Hh)).
    rewrite (high_not_low h Hh), Hh, Hl, IH. eexists. reflexivity.
Qed.

(** X7.  With a session, submitting a text that is well-formed UTF-16 never
    throws and sends exactly one navigate request. *)
Theorem submit_always_navigates (env : Env) (w : World) :
  falsy (sessionId w) = false ->
  well_formed (trim (url w)) ->
  exists target,
    fst (dispatch ASubmit env w) = Normal tt
    /\ requests (trace (step env w ASubmit))
       = requests (trace w) ++ [mkRequest (sessionId w) (Navigate target)].
Proof.
  intros H W. unfold step. change (dispatch ASubmit) with handleSubmit.
  rewrite handleSubmit_spec.
  set (w1 := with_trace (trace w ++ [PreventDefault]) w).
  assert (H1 : falsy (sessionId w1) = false) by exact H.
  assert (R1 : requests (trace w1) = requests (trace w)).
  { unfold w1. simpl. rewrite requests_app. simpl. apply app_nil_r. }
  destruct (matches url_pattern (trim (url w))).
  - eexists. rewrite (navigate_requests env w1 _ H1), R1.
    rewrite (navigate_with_session env w1 _ H1). split; reflexivity.
  - destruct (encodeURIComponent_total _ W) as [q Q]. rewrite Q.
    eexists. rewrite (navigate_requests env w1 _ H1), R1.
    rewrite (navigate_with_session env w1 _ H1). split; reflexivity.
Qed.

Lemma submit_always_navigates_witness :
  exists target,
    fst (dispatch ASubmit env_offline (with_url (js "buy milk") world_abc)) = Normal tt
    /\ requests (trace (step env_offline (with_url (js "buy milk") world_abc) ASubmit))
       = requests (trace (with_url (js "buy milk") world_abc))
           ++ [mkRequest (sessionId (with_url (js "buy milk") world_abc))
                 (Navigate target)].
Proof.
  apply (submit_always_navigates env_offline (with_url (js "buy milk") world_abc)).
  - reflexivity.
  - vm_compute. repeat (apply wf_unit; [reflexivity | reflexivity |]). apply wf_nil.
Defined.

Lemma hex_digit_unreserved (n : N) : (n < 16)%N -> is_uri_unreserved (hex_digit n) = true.
Proof.
  intro H. unfold hex_digit. destruct (n <? 10)%N eqn:E.
  - apply N.ltb_lt in E. unfold is_uri_unreserved.
    replace ((48 <=? 48 + n) && (48 + n <=? 57))%N with true; [reflexivity|].
    symmetry. apply andb_true_iff. split; apply N.leb_le; lia.
  - apply N.ltb_ge in E. unfold is_uri_unreserved.
    replace ((65 <=? 55 + n) && (55 + n <=? 90))%N with true;
      [rewrite orb_true_r; reflexivity|].
    symmetry. apply andb_true_iff. split; apply N.leb_le; lia.
Qed.

Lemma percent_byte_safe (b : N) : (b < 256)%N -> Forall is_query_safe (percent_byte b).
Proof.
  intro H. unfold percent_byte.
  apply Forall_cons; [|apply Forall_cons; [|apply Forall_cons; [|apply Forall_nil]]].
  - right. reflexivity.
  - left. apply hex_digit_unreserved. apply N.Div0.div_lt_upper_bound. lia.
  - left. apply hex_digit_unreserved. apply N.mod_lt. discriminate.
Qed.

Lemma utf8_bytes (cp : N) : (cp < 1114112)%N -> Forall (fun b => (b < 256)%N) (utf8 cp).
Proof.
  intro H. unfold utf8.
  assert (M : forall a, (128 + a mod 64 < 256)%N).
  { intro a. pose proof (N.mod_lt a 64). lia. }
  destruct (cp <? 128)%N eqn:E1; [apply N.ltb_lt in E1; repeat constructor; lia|].
  destruct (cp <? 2048)%N eqn:E2.
  { apply N.ltb_lt in E2. repeat constructor; [|apply M].
    assert (cp / 64 < 32)%N by (apply N.Div0.div_lt_upper_bound; lia). lia. }
  destruct (cp <? 65536)%N eqn:E3.
  { apply N.ltb_lt in E3. repeat constructor; try apply M.
    assert (cp / 4096 < 16)%N by (apply N.Div0.div_lt_upper_bound; lia). lia. }
  repeat constructor; try apply M.
  assert (cp / 262144 < 16)%N by (apply N.Div0.div_lt_upper_bound; lia). lia.
Qed.

Lemma escape_safe (cp : N) :
  (cp < 1114112)%N -> Forall is_query_safe (flat_map percent_byte (utf8 cp)).
Proof.
  intro H. pose proof (utf8_bytes cp H) as B.
  induction B as [|b bs Hb _ IH]; [constructor|].
  change (flat_map percent_byte (b :: bs))
    with (percent_byte b ++ flat_map percent_byte bs).
  apply Forall_app. split; [apply percent_byte_safe; exact Hb | exact IH].
Qed.

Lemma encodeURIComponent_safe (n : nat) :
  forall s q,
    (List.length s <= n)%nat ->
    Forall (fun c => (c < 65536)%N) s ->
    encodeURIComponent s = Some q ->
    Forall is_query_safe q.
Proof.
  induction n as [|n IH]; intros s q L F E.
  - destruct s; [|simpl in L; lia]. inversion E. constructor.
  - destruct s as [|c s]; [inversion E; constructor|].
    inversion F as [|c' s' Hc Fs]; subst. simpl in L, E.
    destruct (is_uri_unreserved c) eqn:U.
    { destruct (encodeURIComponent s) as [q'|] eqn:E'; [|discriminate E].
      inversion E; subst. constructor; [left; exact U|].
      apply (IH s q'); [lia | exact Fs | exact E']. }
    destruct (is_low_surrogate c) eqn:Lo; [discriminate E|].
    destruct (is_high_surrogate c) eqn:Hi.
    { destruct s as [|d s]; [discriminate E|].
      destruct (is_low_surrogate d) eqn:Ld; [|discriminate E].
      destruct (encodeURIComponent s) as [q'|] eqn:E'; [|discriminate E].
      inversion E; subst. apply Forall_app. split.
      - apply escape_safe. class_arith; lia.
      - inversion Fs; subst. simpl in L. apply (IH s q'); [lia | assumption | exact E']. }
    destruct (encodeURIComponent s) as [q'|] eqn:E'; [|discriminate E].
    inversion E; subst. apply Forall_app. split.
    + apply escape_safe. lia.
    + apply (IH s q'); [lia | exact Fs | exact E'].
Qed.

Lemma trimStart_incl (s : jsstring) (c : N) : In c (trimStart s) -> In c s.
Proof.
  induction s as [|d s IH]; simpl; [auto|].
  destruct (is_js_whitespace d); [intro H; right; apply IH; exact H | auto].
Qed.

Lemma trim_incl (s : jsstring) (c : N) : In c (trim s) -> In c s.
Proof.
  unfold trim. intro H. apply in_rev in H. apply trimStart_incl in H.
  apply in_rev in H. apply trimStart_incl in H. exact H.
Qed.

(** X8.  When a text is submitted as a search query, what is put after
    [q=] consists of unreserved characters and percent escapes only:
    nothing in the text can add a parameter or a fragment to the search
    URL.  (When the text cannot be encoded, nothing is sent.) *)
Theorem search_query_is_escaped (env : Env) (w : World) :
  falsy (sessionId w) = false ->
  Forall (fun c => (c < 65536)%N) (url w) ->
  matches url_pattern (trim (url w)) = false ->
  match encodeURIComponent (trim (url w)) with
  | Some q =>
      requests (trace (step env w ASubmit))
      = requests (trace w)
          ++ [mkRequest (sessionId w) (Navigate (search_prefix ++ q))]
      /\ Forall is_query_safe q
  | None => requests (trace (step env w ASubmit)) = requests (trace w)
  end.
Proof.
  intros H F Mt. unfold step. change (dispatch ASubmit) with handleSubmit.
  rewrite handleSubmit_spec, Mt.
  destruct (encodeURIComponent (trim (url w))) as [q|] eqn:Q.
  - rewrite navigate_requests by exact H. simpl.
    rewrite requests_app. simpl. rewrite app_nil_r. split; [reflexivity|].
    apply (encodeURIComponent_safe (List.length (trim (url w))) (trim (url w)) q);
      [lia | | exact Q].
    rewrite Forall_forall in *. intros c J'. apply F, trim_incl, J'.
  - simpl. rewrite requests_app. simpl. rewrite app_nil_r. reflexivity.
Qed.

Lemma search_query_is_escaped_witness :
  match encodeURIComponent (trim (url (with_url (js "a&b=c #d") world_abc))) with
  | Some q =>
      requests (trace (step env_online (with_url (js "a&b=c #d") world_abc) ASubmit))
      = requests (trace (with_url (js "a&b=c #d") world_abc))
          ++ [mkRequest (sessionId (with_url (js "a&b=c #d") world_abc))
                (Navigate (search_prefix ++ q))]
      /\ Forall is_query_safe q
  | None =>
      requests (trace (step env_online (with_url (js "a&b=c #d") world_abc) ASubmit))
      = requests (trace (with_url (js "a&b=c #d") world_abc))
  end.
Proof.
  apply (search_query_is_escaped env_online (with_url (js "a&b=c #d") world_abc)).
  - reflexivity.
  - vm_compute. repeat constructor.
  - reflexivity.
Defined.

(** ** Trimming *)

Lemma trimStart_clean (s : jsstring) : starts_clean (trimStart s).
Proof.
  induction s as [|c s IH]; simpl; [exact I|].
  destruct (is_js_whitespace c) eqn:E; [exact IH | exact E].
Qed.

Lemma trimStart_fixed (s : jsstring) : starts_clean s -> trimStart s = s.
Proof. destruct s as [|c s]; simpl; [reflexivity|]. intro H. rewrite H. reflexivity. Qed.

Lemma trimStart_suffix (s : jsstring) : exists ws, s = ws ++ trimStart s.
Proof.
  induction s as [|c s [ws IH]]; simpl; [exists []; reflexivity|].
  destruct (is_js_whitespace c).
  - exists (c :: ws). simpl. f_equal. exact IH.
  - exists []. reflexivity.
Qed.

Lemma starts_clean_app (a b : jsstring) : starts_clean (a ++ b) -> starts_clean a.
Proof. destruct a; simpl; auto. Qed.

Lemma starts_clean_app_l (a b : jsstring) : a <> [] -> starts_clean a -> starts_clean (a ++ b).
Proof. destruct a; simpl; [intro N; contradiction N; reflexivity | auto]. Qed.

(** What [trim] returns has no white space at either end. *)
Lemma trim_clean (s : jsstring) : starts_clean (trim s) /\ starts_clean (rev (trim s)).
Proof.
  unfold trim. split.
  - destruct (trimStart_suffix (rev (trimStart s))) as [ws E].
    apply (f_equal (@rev N)) in E. rewrite rev_involutive, rev_app_distr in E.
    apply (starts_clean_app _ (rev ws)). rewrite <- E. apply trimStart_clean.
  - rewrite rev_involutive. apply trimStart_clean.
Qed.

Lemma trim_fixed (s : jsstring) : starts_clean s -> starts_clean (rev s) -> trim s = s.
Proof.
  intros A B. unfold trim. rewrite (trimStart_fixed s A), (trimStart_fixed _ B).
  apply rev_involutive.
Qed.

Lemma trim_idempotent (s : jsstring) : trim (trim s) = trim s.
Proof. destruct (trim_clean s) as [A B]. apply trim_fixed; assumption. Qed.

(** ** Submitting twice *)

Lemma navigate_without_session_eq (env : Env) (w : World) (t : jsstring) :
  falsy (sessionId w) = true ->
  snd (navigate t env w) = w /\ fst (navigate t env w) = Normal tt.
Proof.
  intro H. unfold navigate, bind, read, ret. rewrite H. split; reflexivity.
Qed.


Lemma lang_lit_inv (p s : jsstring) : lang (Lit p) s -> s = p.
Proof.
  revert s. induction p as [|c p IH]; intros s H; simpl in H.
  - apply lang_eps_inv. exact H.
  - apply lang_seq_inv in H. destruct H as [s1 [s2 [E [H1 H2]]]]. subst s.
    apply lang_cls_inv in H1. destruct H1 as [d [E P]]. subst s1.
    unfold cu_eqb in P. apply N.eqb_eq in P. subst d.
    rewrite (IH s2 H2). reflexivity.
Qed.

(** A text the pattern accepts either starts with [http] or is accepted
    again with [https://] in front. *)
Lemma url_with_scheme_matches (s : jsstring) :
  matches url_pattern s = true ->
  startsWith s (js "http") = false ->
  matches url_pattern (js "https://" ++ s) = true.
Proof.
  intros Mt St. apply matches_lang in Mt. apply matches_lang.
  unfold url_pattern in *.
  apply lang_seq_inv in Mt. destruct Mt as [s1 [s2 [E [H1 H2]]]]. subst s.
  apply lang_alt_inv in H1. destruct H1 as [H1|H1].
  - exfalso. apply lang_seq_inv in H1. destruct H1 as [a [b [E [Ha _]]]].
    apply lang_lit_inv in Ha. subst a s1.
    rewrite <- app_assoc in St. simpl in St. destruct (b ++ s2); discriminate St.
  - apply lang_eps_inv in H1. subst s1. simpl app at 2.
    apply lang_seq; [|exact H2].
    apply lang_alt_l. apply matches_lang. reflexivity.
Qed.

Lemma submit_target_fixed (s : jsstring) :
  starts_clean s -> starts_clean (rev s) ->
  matches url_pattern s = true ->
  let t := if startsWith s (js "http") then s else js "https://" ++ s in
  trim t = t /\ matches url_pattern t = true /\ startsWith t (js "http") = true.
Proof.
  intros A B Mt t. subst t. destruct (startsWith s (js "http")) eqn:St.
  - split; [apply trim_fixed; assumption | split; assumption].
  - split; [|split; [apply url_with_scheme_matches; assumption | reflexivity]].
    apply trim_fixed; [reflexivity|].
    rewrite rev_app_distr. apply starts_clean_app_l; [|exact B].
    intro E. apply (f_equal (@rev N)) in E. rewrite rev_involutive in E. simpl in E.
    subst s. discriminate Mt.
Qed.

(** X9.  Submitting is idempotent on URLs: when a text is taken for a URL
    and the navigation request is answered, the address bar holds the
    target, and submitting again navigates to the very same target. *)
Theorem submit_url_twice (env : Env) (w : World) (resp : Response) :
  falsy (sessionId w) = false ->
  matches url_pattern (trim (url w)) = true ->
  let input := trim (url w) in
  let t := if startsWith input (js "http") then input else js "https://" ++ input in
  fetch env (mkRequest (sessionId w) (Navigate t)) = Resolves resp ->
  url (step env w ASubmit) = t
  /\ requests (trace (run env w [ASubmit; ASubmit]))
     = requests (trace w)
         ++ [mkRequest (sessionId w) (Navigate t); mkRequest (sessionId w) (Navigate t)].
Proof.
  intros H Mt input t F. subst input.
  destruct (trim_clean (url w)) as [A B].
  destruct (submit_target_fixed (trim (url w)) A B Mt) as [Tt [Mt' St']].
  fold t in Tt, Mt', St'.
  assert (E1 : step env w ASubmit
               = with_isLoading false
                   (with_url t
                      (with_trace (trace w ++ [PreventDefault; SetIsLoading true;
                                               FetchEvent (mkRequest (sessionId w) (Navigate t));
                                               SetUrl t; SetIsLoading false]) w))).
  { unfold step. change (dispatch ASubmit) with handleSubmit.
    rewrite handleSubmit_spec. rewrite Mt. fold t.
    rewrite navigate_with_session by exact H. simpl. rewrite F.
    unfold with_isLoading, with_url, with_trace. simpl.
    rewrite <- app_assoc. reflexivity. }
  split; [rewrite E1; reflexivity|].
  unfold run. simpl fold_left. rewrite E1.
  set (w' := with_isLoading false _).
  unfold step. change (dispatch ASubmit) with handleSubmit.
  rewrite handleSubmit_spec.
  change (url w') with t. rewrite Tt, Mt', St'.
  rewrite navigate_requests by exact H. simpl.
  rewrite !requests_app. simpl. rewrite <- !app_assoc. reflexivity.
Qed.

Lemma submit_url_twice_witness :
  let w := with_url (js " example.com ") world_abc in
  let input := trim (url w) in
  let t := if startsWith input (js "http") then input else js "https://" ++ input in
  url (step env_online w ASubmit) = t
  /\ requests (trace (run env_online w [ASubmit; ASubmit]))
     = requests (trace w)
         ++ [mkRequest (sessionId w) (Navigate t); mkRequest (sessionId w) (Navigate t)].
Proof.
  apply (submit_url_twice env_online (with_url (js " example.com ") world_abc)
           (Json (Some (js "remote")))); reflexivity.
Defined.

(** X10.  White space around the text in the address bar makes no
    difference to what a submit sends. *)
Theorem submit_ignores_surrounding_space (env : Env) (w : World) :
  requests (trace (step env (with_url (trim (url w)) w) ASubmit))
  = requests (trace (step env w ASubmit)).
Proof.
  unfold step. change (dispatch ASubmit) with handleSubmit.
  rewrite !handleSubmit_spec. change (url (with_url (trim (url w)) w)) with (trim (url w)).
  rewrite trim_idempotent.
  set (w1 := with_trace (trace w ++ [PreventDefault]) w).
  set (w2 := with_trace _ (with_url _ w)).
  assert (N : forall t, requests (trace (snd (navigate t env w2)))
                        = requests (trace (snd (navigate t env w1)))).
  { intro t. destruct (falsy (sessionId w)) eqn:H.
    - destruct (navigate_without_session_eq env w1 t H) as [E1 _].
      destruct (navigate_without_session_eq env w2 t H) as [E2 _].
      rewrite E1, E2. reflexivity.
    - rewrite (navigate_requests env w1 t H), (navigate_requests env w2 t H).
      reflexivity. }
  destruct (matches url_pattern (trim (url w))); [apply N|].
  destruct (encodeURIComponent (trim (url w))); [apply N | reflexivity].
Qed.

(** X11.  The reload button sends the text of the address bar as it is:
    what has been typed there is navigated to without trimming and without
    the URL-or-search disambiguation of a submit. *)
Theorem reload_sends_raw_text (env : Env) (w : World) (value : jsstring) :
  falsy (sessionId w) = false ->
  isLoading w = false ->
  requests (trace (run env w [AUrlChange value; AReload]))
  = requests (trace w) ++ [mkRequest (sessionId w) (Navigate value)].
Proof.
  intros H L. unfold run. simpl fold_left.
  assert (E : step env w (AUrlChange value)
              = with_url value (with_trace (trace w ++ [SetUrl value]) w))
    by reflexivity.
  rewrite E. set (w1 := with_url value _).
  unfold step. simpl dispatch. unfold onReloadClick, bind, read.
  change (isLoading w1) with (isLoading w). rewrite L.
  change (url w1) with value.
  rewrite (navigate_requests env w1 value H). unfold w1. simpl.
  rewrite requests_app. simpl. rewrite app_nil_r. reflexivity.
Qed.

Lemma reload_sends_raw_text_witness :
  requests (trace (run env_online world_abc [AUrlChange (js " buy milk"); AReload]))
  = requests (trace world_abc)
      ++ [mkRequest (sessionId world_abc) (Navigate (js " buy milk"))].
Proof.
  apply (reload_sends_raw_text env_online world_abc (js " buy milk")); reflexivity.
Defined.

(** ** What each handler leaves alone *)

Section Frame.

Variable R : World -> World -> Prop.
Hypothesis R_refl : forall w, R w w.
Hypothesis R_trans : forall w1 w2 w3, R w1 w2 -> R w2 w3 -> R w1 w3.

Lemma respects_ret {A} (a : A) : respects R (ret a).
Proof. intros env w. apply R_refl. Qed.

Lemma respects_throw {A} : respects R (@throw A).
Proof. intros env w. apply R_refl. Qed.

Lemma respects_read {A} (f : World -> A) : respects R (read f).
Proof. intros env w. apply R_refl. Qed.

Lemma respects_ask {A} (f : Env -> A) : respects R (ask f).
Proof. intros env w. apply R_refl. Qed.

Lemma respects_update (f : World -> World) :
  (forall w, R w (f w)) -> respects R (update f).
Proof. intros H env w. apply H. Qed.

Lemma respects_bind {A B} (m : M A) (k : A -> M B) :
  respects R m -> (forall a, respects R (k a)) -> respects R (bind m k).
Proof.
  intros Hm Hk env w. unfold bind.
  specialize (Hm env w). destruct (m env w) as [[a|] w1]; simpl in Hm.
  - apply (R_trans _ _ _ Hm). apply Hk.
  - exact Hm.
Qed.

Lemma respects_try_catch {A} (m h : M A) :
  respects R m -> respects R h -> respects R (try_catch m h).
Proof.
  intros Hm Hh env w. unfold try_catch.
  specialize (Hm env w). destruct (m env w) as [[a|] w1]; simpl in Hm.
  - exact Hm.
  - apply (R_trans _ _ _ Hm). apply Hh.
Qed.

Lemma respects_try_finally {A} (m : M A) (f : M unit) :
  respects R m -> respects R f -> respects R (try_finally m f).
Proof.
  intros Hm Hf env w. unfold try_finally.
  specialize (Hm env w). destruct (m env w) as [c w1]; simpl in Hm.
  specialize (Hf env w1). destruct (f env w1) as [[[]|] w2]; simpl in *;
    apply (R_trans _ _ _ Hm Hf).
Qed.

End Frame.

Lemma same_navigation_refl (w : World) : same_navigation w w.
Proof. split; reflexivity. Qed.

Lemma same_navigation_trans (w1 w2 w3 : World) :
  same_navigation w1 w2 -> same_navigation w2 w3 -> same_navigation w1 w3.
Proof. intros [A B] [C D]. split; congruence. Qed.

Lemma same_scrolling_refl (w : World) : same_scrolling w w.
Proof. repeat split. Qed.

Lemma same_scrolling_trans (w1 w2 w3 : World) :
  same_scrolling w1 w2 -> same_scrolling w2 w3 -> same_scrolling w1 w3.
Proof.
  intros [A [B [C [D E]]]] [A' [B' [C' [D' E']]]]. repeat split; congruence.
Qed.

Ltac respects_step R Rrefl Rtrans :=
  first
    [ apply (respects_ret R Rrefl) | apply (respects_throw R Rrefl)
    | apply (respects_read R Rrefl) | apply (respects_ask R Rrefl)
    | apply (respects_update R); intro; repeat split
    | apply (respects_bind R Rtrans); [|intro]
    | apply (respects_try_catch R Rtrans)
    | apply (respects_try_finally R Rtrans)
    | match goal with
      | |- respects _ (match ?x with _ => _ end) => destruct x
      end ].

Ltac respects_auto R Rrefl Rtrans :=
  unfold handleMouseMove, handleClick, handleContextMenu, handleWheelEvent,
    handleKeyDown, handleKeyPress, handleSubmit, onReloadClick, onBackClick,
    onForwardClick, onUrlChange, setSessionId, scroll_effect_cleanup,
    navigate, copy_from_remote, paste_to_remote, send_keyboard,
    clipboardReadText, clipboardWriteText, response_text, fetchEvent,
    clearTimeout, setIsLoading, setUrl, preventDefault, console_error, emit;
  repeat respects_step R Rrefl Rtrans.

Lemma setTimeout_same_navigation (r : Request) (delay : Z) :
  respects same_navigation (setTimeout r delay).
Proof. intros env w. split; reflexivity. Qed.

Lemma run_timers_same_navigation (tms : list Timer) :
  respects same_navigation (run_timers tms).
Proof.
  intros env w. destruct (run_timers_spec env tms w) as [tr [E _]]. rewrite E.
  split; reflexivity.
Qed.

Lemma scrolling_frame (env : Env) (w : World) (a : Action) :
  match a with
  | AWheel _ | ASession _ | ATime _ => True
  | _ => same_scrolling w (step env w a)
  end.
Proof.
  assert (T : respects same_scrolling
                (match a with
                 | AWheel _ | ASession _ | ATime _ => ret tt
                 | _ => dispatch a
                 end)).
  { destruct a; simpl;
      try apply (respects_ret _ same_scrolling_refl);
      respects_auto same_scrolling same_scrolling_refl same_scrolling_trans. }
  destruct a; try exact Logic.I; exact (T env w).
Qed.

(** X12.  The parts of the component keep to themselves.  Only a submit, a
    reload and typing in the address bar change the URL or the loading
    flag; only a wheel event, the arrival of the session identifier and the
    passing of time change the timers, the clock and what the coalescer
    remembers; only the arrival of the session identifier changes the
    session identifier. *)
Theorem handlers_keep_to_themselves (env : Env) (w : World) (a : Action) :
  (match a with
   | ASubmit | AReload | AUrlChange _ => True
   | _ => same_navigation w (step env w a)
   end)
  /\ (match a with
      | AWheel _ | ASession _ | ATime _ => True
      | _ => same_scrolling w (step env w a)
      end)
  /\ (match a with
      | ASession _ => True
      | _ => sessionId (step env w a) = sessionId w
      end).
Proof.
  split; [|split].
  - assert (T : respects same_navigation
                  (match a with
                   | ASubmit | AReload | AUrlChange _ => ret tt
                   | _ => dispatch a
                   end)).
    { destruct a; simpl;
        try apply (respects_ret _ same_navigation_refl);
        respects_auto same_navigation same_navigation_refl same_navigation_trans;
        try apply setTimeout_same_navigation.
      unfold advance.
      respects_auto same_navigation same_navigation_refl same_navigation_trans.
      apply run_timers_same_navigation. }
    destruct a; try exact Logic.I; exact (T env w).
  - apply scrolling_frame.
  - destruct a; try exact Logic.I;
      try (match goal with
           | |- sessionId (step env w ?a') = _ =>
               destruct (handlers_extending (sessionId w) a' Logic.I env w eq_refl)
                 as [S _]; exact S
           end).
    destruct (advance_spec env w t) as [tr [E _]]. rewrite E. reflexivity.
Qed.

(** ** More on the scroll coalescer *)

(** X13.  When the session identifier changes, the cleanup of the wheel
    effect cancels the pending emission: no timer is left, and whatever
    time passes afterwards nothing is sent. *)
Theorem session_change_cancels_emission
        (env : Env) (w : World) (sid : option jsstring) (T : Z) :
  reachable w ->
  timers (step env w (ASession sid)) = []
  /\ requests (trace (run env w [ASession sid; ATime T])) = requests (trace w).
Proof.
  intro R.
  assert (E : timers (step env w (ASession sid)) = []
              /\ requests (trace (step env w (ASession sid))) = requests (trace w)).
  { unfold step, dispatch, setSessionId, scroll_effect_cleanup. unfold_m. simpl.
    pose proof (cancel_pending w (reachable_one_pending w R)) as C.
    destruct (scrollTimeout w); simpl; split; try exact C; try reflexivity.
    rewrite requests_app. simpl. apply app_nil_r. }
  destruct E as [Tm Rq]. split; [exact Tm|].
  unfold run. simpl fold_left.
  destruct (advance_spec env (step env w (ASession sid)) T) as [tr [E R']].
  rewrite E. simpl. rewrite requests_app, R', Tm, Rq. simpl. apply app_nil_r.
Qed.

Lemma session_change_cancels_emission_witness :
  timers (step env_online
            (run env_online world_abc [ATime 1000; AWheel (mkWheel 120)])
            (ASession None)) = []
  /\ requests (trace (run env_online
                        (run env_online world_abc [ATime 1000; AWheel (mkWheel 120)])
                        [ASession None; ATime 2000]))
     = requests (trace (run env_online world_abc [ATime 1000; AWheel (mkWheel 120)])).
Proof.
  apply (session_change_cancels_emission env_online
           (run env_online world_abc [ATime 1000; AWheel (mkWheel 120)]) None 2000).
  unfold run. simpl fold_left.
  apply reachable_step, reachable_step, reachable_world_abc.
Defined.

Lemma timers_on_schedule_step (env : Env) (w : World) (a : Action) :
  one_pending w -> timers_on_schedule w -> timers_on_schedule (step env w a).
Proof.
  intros I T.
  pose proof (scrolling_frame env w a) as F.
  destruct a;
    try (lazymatch type of F with
         | same_scrolling _ _ =>
             destruct F as [Tm [_ [L _]]]; unfold timers_on_schedule;
             rewrite Tm, L; exact T
         end).
  - (* wheel *)
    unfold step, dispatch. destruct (falsy (sessionId w)) eqn:H.
    + rewrite handleWheelEvent_no_session by exact H. exact T.
    + rewrite handleWheelEvent_session by exact H. unfold timers_on_schedule. simpl.
      rewrite (cancel_pending w I). simpl. constructor; [|constructor].
      split; [reflexivity|]. eexists; eexists; reflexivity.
  - (* the session identifier arrives *)
    unfold timers_on_schedule, step, dispatch, setSessionId, scroll_effect_cleanup.
    unfold_m. simpl. pose proof (cancel_pending w I) as C.
    destruct (scrollTimeout w); simpl; rewrite C; constructor.
  - (* time passes *)
    destruct (advance_spec env w t) as [tr [E _]]. rewrite E.
    unfold timers_on_schedule in *. simpl.
    apply Forall_forall. intros tm J. apply filter_In in J. destruct J as [J _].
    rewrite Forall_forall in T. apply T, J.
Qed.

Lemma reachable_on_schedule (w : World) : reachable w -> timers_on_schedule w.
Proof.
  induction 1 as [t0|env w a R IH].
  - constructor.
  - apply timers_on_schedule_step; [apply reachable_one_pending; exact R | exact IH].
Qed.

(** X14.  The passing of time sends at most one request, and only a scroll
    request, and only once 16 ms have passed since the last wheel event. *)
Theorem emission_after_quiet_period (env : Env) (w : World) (t : Z) :
  reachable w ->
  exists sent,
    requests (trace (step env w (ATime t))) = requests (trace w) ++ sent
    /\ (List.length sent <= 1)%nat
    /\ Forall (fun r => exists d b, body r = Scroll d b) sent
    /\ (sent <> [] -> lastScrollTime w + 16 <= t).
Proof.
  intro R.
  destruct (advance_spec env w t) as [tr [E Rq]]. rewrite E. simpl.
  exists (map timer_request (filter (is_due t) (timers w))).
  rewrite requests_app, Rq. split; [reflexivity|].
  pose proof (reachable_on_schedule w R) as S. unfold timers_on_schedule in S.
  destruct (reachable_one_pending w R) as [N|[tm [N _]]]; rewrite N in *; simpl.
  - repeat split; [lia | constructor | intro C; contradiction C; reflexivity].
  - inversion S as [|tm' l' [D B] _]; subst.
    unfold is_due. destruct (timer_due tm <=? t) eqn:L; simpl.
    + repeat split; [lia | constructor; [exact B | constructor] |].
      intros _. apply Z.leb_le in L. lia.
    + repeat split; [lia | constructor | intro C; contradiction C; reflexivity].
Qed.

Lemma emission_after_quiet_period_witness :
  exists sent,
    requests (trace (step env_online
                       (run env_online world_abc [ATime 1000; AWheel (mkWheel 120)])
                       (ATime 1016)))
      = requests (trace (run env_online world_abc [ATime 1000; AWheel (mkWheel 120)]))
          ++ sent
    /\ (List.length sent <= 1)%nat
    /\ Forall (fun r => exists d b, body r = Scroll d b) sent
    /\ (sent <> [] ->
        lastScrollTime (run env_online world_abc [ATime 1000; AWheel (mkWheel 120)]) + 16
        <= 1016).
Proof.
  apply (emission_after_quiet_period env_online
           (run env_online world_abc [ATime 1000; AWheel (mkWheel 120)]) 1016).
  unfold run. simpl fold_left.
  apply reachable_step, reachable_step, reachable_world_abc.
Defined.

Lemma multiplier_of_bounds (isTrackpad : bool) (timeDiff : Z) :
  (3 <= multiplier_of isTrackpad timeDiff /\ multiplier_of isTrackpad timeDiff <= 12)%Q.
Proof.
  unfold multiplier_of. destruct isTrackpad, (timeDiff <? 100);
    split; vm_compute; discriminate.
Qed.

Lemma Qmult_le_l_nonneg (a x y : Q) : (0 <= a)%Q -> (x <= y)%Q -> (a * x <= a * y)%Q.
Proof.
  intros A L. rewrite (Qmult_comm a x), (Qmult_comm a y).
  apply Qmult_le_compat_r; assumption.
Qed.

(** X15.  Scaling keeps the direction of the scroll and multiplies its
    size by a factor between 3 and 12, up to the rounding of the product:
    with a session, the emission a wheel event schedules has a delta of
    the same sign as the raw delta, at least [3 * (1 - 2^-53)] and at most
    [12 * (1 + 2^-53)] times as large; for a raw delta that is an integer
    below [2^49] in size the product is not rounded and the factor is
    between 3 and 12. *)
Theorem scroll_direction_and_size (env : Env) (w : World) (e : WheelEv) :
  falsy (sessionId w) = false ->
  exists scaled isTrackpad,
    timers (step env w (AWheel e))
    = match scrollTimeout w with
      | Some old => filter (fun tm => negb (Pos.eqb (timer_id tm) old)) (timers w)
      | None => timers w
      end ++ [mkTimer (next_timer_id w) (clock w + 16)
                (mkRequest (sessionId w) (Scroll scaled isTrackpad))]
    /\ (0 < deltaY e -> 0 < scaled)%Q
    /\ (deltaY e < 0 -> scaled < 0)%Q
    /\ (3 * Qabs (deltaY e) * (1 - unit_roundoff) <= Qabs scaled)%Q
    /\ (Qabs scaled <= 12 * Qabs (deltaY e) * (1 + unit_roundoff))%Q
    /\ (forall z, (deltaY e == inject_Z z)%Q -> Z.abs z < 2 ^ 49 ->
                  (3 * Qabs (deltaY e) <= Qabs scaled
                   /\ Qabs scaled <= 12 * Qabs (deltaY e))%Q).
Proof.
  intro H. unfold step, dispatch. rewrite handleWheelEvent_session by exact H.
  set (t := clock w - lastScrollTime w).
  destruct (multiplier_of_bounds (isTrackpad_of e) t) as [Lo Hi].
  exists (fmul (deltaY e) (multiplier_of (isTrackpad_of e) t)), (isTrackpad_of e).
  split; [reflexivity|].
  pose proof (fun z => scaled_exact (deltaY e) z (isTrackpad_of e) t) as Ex.
  set (m := multiplier_of (isTrackpad_of e) t) in *.
  assert (Pm : (0 < m)%Q) by (eapply Qlt_le_trans; [|exact Lo]; reflexivity).
  assert (Ab : (Qabs (deltaY e * m) == Qabs (deltaY e) * m)%Q).
  { rewrite Qabs_Qmult, (Qabs_pos m); [reflexivity | apply Qlt_le_weak, Pm]. }
  destruct (fl_sign (deltaY e * m)) as (Ps & Ng & _).
  destruct (fl_abs_bounds (deltaY e * m)) as [BL BH].
  rewrite Ab in BL, BH. fold (fmul (deltaY e) m) in Ps, Ng, BL, BH.
  destruct unit_roundoff_small as [U0 U1].
  pose proof (Qabs_nonneg (deltaY e)) as A0.
  assert (M3 : (3 * Qabs (deltaY e) <= Qabs (deltaY e) * m)%Q).
  { rewrite (Qmult_comm 3). apply Qmult_le_l_nonneg; assumption. }
  assert (M12 : (Qabs (deltaY e) * m <= 12 * Qabs (deltaY e))%Q).
  { rewrite (Qmult_comm 12). apply Qmult_le_l_nonneg; assumption. }
  split.
  { intro P. apply Ps. apply Qmult_lt_0_compat; assumption. }
  split.
  { intro N. apply Ng. setoid_replace 0%Q with (0 * m)%Q by ring.
    apply Qmult_lt_compat_r; assumption. }
  split.
  { eapply Qle_trans; [|exact BL]. apply Qmult_le_compat_r; [exact M3 | lra]. }
  split.
  { eapply Qle_trans; [exact BH|]. apply Qmult_le_compat_r; [exact M12 | lra]. }
  intros z E B. rewrite (Ex z E B), Ab. split; assumption.
Qed.

Lemma scroll_direction_and_size_witness :
  exists scaled isTrackpad,
    timers (step env_online world_abc (AWheel (mkWheel (-120))))
    = match scrollTimeout world_abc with
      | Some old => filter (fun tm => negb (Pos.eqb (timer_id tm) old)) (timers world_abc)
      | None => timers world_abc
      end ++ [mkTimer (next_timer_id world_abc) (clock world_abc + 16)
                (mkRequest (sessionId world_abc) (Scroll scaled isTrackpad))]
    /\ (0 < deltaY (mkWheel (-120)) -> 0 < scaled)%Q
    /\ (deltaY (mkWheel (-120)) < 0 -> scaled < 0)%Q
    /\ (3 * Qabs (deltaY (mkWheel (-120))) * (1 - unit_roundoff) <= Qabs scaled)%Q
    /\ (Qabs scaled <= 12 * Qabs (deltaY (mkWheel (-120))) * (1 + unit_roundoff))%Q
    /\ (forall z, (deltaY (mkWheel (-120)) == inject_Z z)%Q -> Z.abs z < 2 ^ 49 ->
                  (3 * Qabs (deltaY (mkWheel (-120))) <= Qabs scaled
                   /\ Qabs scaled <= 12 * Qabs (deltaY (mkWheel (-120))))%Q).
Proof.
  apply (scroll_direction_and_size env_online world_abc (mkWheel (-120))).
  reflexivity.
Defined.

(** ** Keyboard *)

Lemma jsstring_eqb_eq (a b : jsstring) : jsstring_eqb a b = true <-> a = b.
Proof.
  revert b. induction a as [|x a IH]; intros [|y b]; simpl;
    try (split; [discriminate | discriminate]); try (split; reflexivity).
  rewrite andb_true_iff, IH. unfold cu_eqb. rewrite N.eqb_eq.
  split; [intros [A B]; subst; reflexivity | intro E; inversion E; auto].
Qed.

Lemma handleKeyDown_keyboard (env : Env) (w : World) (e : KeyEv) :
  falsy (sessionId w) = false ->
  ctrlKey e || metaKey e = false \/ (key e <> js "c" /\ key e <> js "v") ->
  handleKeyDown e env w
  = (Normal tt,
     with_trace
       (trace w ++ sent_and_logged env
                     (mkRequest (sessionId w)
                        (Keyboard (key e) (ctrlKey e) (altKey e) (shiftKey e) (metaKey e)))
                     "Failed to send keyboard event:") w).
Proof.
  intros H C. unfold handleKeyDown, bind, read. rewrite H. simpl.
  assert (E : (if ctrlKey e || metaKey e
               then if jsstring_eqb (key e) (js "c") then copy_from_remote (sessionId w)
                    else if jsstring_eqb (key e) (js "v")
                         then paste_to_remote (sessionId w)
                         else send_keyboard (sessionId w) e
               else send_keyboard (sessionId w) e)
              = send_keyboard (sessionId w) e).
  { destruct C as [C|[Nc Nv]]; [rewrite C; reflexivity|].
    destruct (ctrlKey e || metaKey e); [|reflexivity].
    destruct (jsstring_eqb (key e) (js "c")) eqn:Ec;
      [apply jsstring_eqb_eq in Ec; contradiction|].
    destruct (jsstring_eqb (key e) (js "v")) eqn:Ev;
      [apply jsstring_eqb_eq in Ev; contradiction|].
    reflexivity. }
  rewrite E. unfold send_keyboard. apply try_send.
Qed.

Lemma handleKeyPress_spec (env : Env) (w : World) (e : KeyEv) :
  falsy (sessionId w) = false ->
  handleKeyPress e env w
  = (Normal tt,
     with_trace
       (trace w ++ sent_and_logged env (mkRequest (sessionId w) (TextInput (key e)))
                     "Failed to send keyboard event:") w).
Proof.
  intro H. unfold handleKeyPress, bind, read. rewrite H. simpl. apply try_send.
Qed.

(** X16.  With a session, a key-down that is not a clipboard shortcut (no
    ctrl or meta, or a key other than [c] and [v]) sends exactly one
    keyboard request, with the key and the four modifier flags as the
    event has them, and changes nothing in the component. *)
Theorem keydown_is_forwarded (env : Env) (w : World) (e : KeyEv) :
  falsy (sessionId w) = false ->
  ctrlKey e || metaKey e = false \/ (key e <> js "c" /\ key e <> js "v") ->
  exists tr,
    step env w (AKeyDown e) = with_trace (trace w ++ tr) w
    /\ requests tr
       = [mkRequest (sessionId w)
            (Keyboard (key e) (ctrlKey e) (altKey e) (shiftKey e) (metaKey e))].
Proof.
  intros H C. unfold step, dispatch. rewrite handleKeyDown_keyboard by assumption.
  eexists. split; [reflexivity | apply requests_sent_and_logged].
Qed.

Lemma keydown_is_forwarded_witness :
  exists tr,
    step env_online world_abc (AKeyDown (mkKey (js "C") true false true false))
      = with_trace (trace world_abc ++ tr) world_abc
    /\ requests tr
       = [mkRequest (sessionId world_abc) (Keyboard (js "C") true false true false)].
Proof.
  apply (keydown_is_forwarded env_online world_abc (mkKey (js "C") true false true false)).
  - reflexivity.
  - right. split; discriminate.
Defined.

(** X17.  A character typed without ctrl or meta reaches the backend
    twice: its key-down is sent as a keyboard request and its key-press as
    a text request, in this order. *)
Theorem typed_character_sent_twice (env : Env) (w : World) (e : KeyEv) :
  falsy (sessionId w) = false ->
  ctrlKey e = false -> metaKey e = false ->
  requests (trace (run env w [AKeyDown e; AKeyPress e]))
  = requests (trace w)
      ++ [mkRequest (sessionId w)
            (Keyboard (key e) false (altKey e) (shiftKey e) false);
          mkRequest (sessionId w) (TextInput (key e))].
Proof.
  intros H C Mk. unfold run. simpl fold_left. unfold step, dispatch.
  rewrite handleKeyDown_keyboard; [|exact H | left; rewrite C, Mk; reflexivity].
  simpl snd. rewrite handleKeyPress_spec by exact H. simpl.
  rewrite !requests_app, !requests_sent_and_logged, C, Mk, <- app_assoc. reflexivity.
Qed.

Lemma typed_character_sent_twice_witness :
  requests (trace (run env_online world_abc
                     [AKeyDown (mkKey (js "a") false false false false);
                      AKeyPress (mkKey (js "a") false false false false)]))
  = requests (trace world_abc)
      ++ [mkRequest (sessionId world_abc) (Keyboard (js "a") false false false false);
          mkRequest (sessionId world_abc) (TextInput (js "a"))].
Proof.
  apply (typed_character_sent_twice env_online world_abc
           (mkKey (js "a") false false false false)); reflexivity.
Defined.

(** ** Signaling client *)

Ltac unfold_sig :=
  unfold initBrowser, close_on_unmount, onconnectionstatechange, notify,
    on_world, setIsConnected, setError, set_peerConnection, await, attempt,
    sig_emit, hcatch, hbind, hthrow, hret in *.

(** X18.  When every step of the handshake succeeds, the steps are taken
    once each and in order; the offer that is posted is the one
    [createOffer] returned, the description that is applied is the answer
    the backend sent, the session identifier is the one in that answer, and
    no error is set. *)
Theorem handshake_success
        (henv : HandshakeEnv) (env : Env) (c : Client)
        (offer : Description) (resp : OfferResponse) (a : OfferAnswer) :
  new_RTCPeerConnection henv = None ->
  createOffer henv = inr offer ->
  setLocalDescription henv offer = None ->
  fetch_offer henv offer = inr resp ->
  response_ok resp = true ->
  response_json resp = inr a ->
  setRemoteDescription henv (answer a) = None ->
  let c' := snd (initBrowser henv env c) in
  sig_trace c'
  = sig_trace c ++ [NewPeerConnection; CreateOffer; SetLocalDescription offer;
                    PostOffer offer; SetRemoteDescription (answer a); LogEstablished]
  /\ sessionId (world c') = answer_session_id a
  /\ error c' = error c
  /\ peerConnection c' = Some peer_open.
Proof.
  intros N O L F K J R c'. subst c'. unfold_sig. simpl.
  rewrite N. simpl. rewrite O. simpl. rewrite L. simpl. rewrite F. simpl.
  rewrite K. simpl. rewrite J. simpl. rewrite R. simpl.
  rewrite <- !app_assoc. simpl. repeat split.
  unfold setSessionId, scroll_effect_cleanup. unfold_m. simpl.
  destruct (scrollTimeout (world c)); reflexivity.
Qed.

Lemma handshake_success_witness :
  let d := mkDescription (js "v=0") (js "answer") in
  let offer := mkDescription (js "v=0") (js "offer") in
  let c' := snd (initBrowser (handshake_ok d (Some (js "abc"))) env_online
                   (initial_client 0)) in
  sig_trace c'
  = sig_trace (initial_client 0)
      ++ [NewPeerConnection; CreateOffer; SetLocalDescription offer;
          PostOffer offer;
          SetRemoteDescription (answer (mkOfferAnswer d (Some (js "abc"))));
          LogEstablished]
  /\ sessionId (world c') = answer_session_id (mkOfferAnswer d (Some (js "abc")))
  /\ error c' = error (initial_client 0)
  /\ peerConnection c' = Some peer_open.
Proof.
  apply (handshake_success
           (handshake_ok (mkDescription (js "v=0") (js "answer")) (Some (js "abc")))
           env_online (initial_client 0)
           (mkDescription (js "v=0") (js "offer"))
           (mkOfferResponse true
              (inr (mkOfferAnswer (mkDescription (js "v=0") (js "answer"))
                      (Some (js "abc")))))
           (mkOfferAnswer (mkDescription (js "v=0") (js "answer")) (Some (js "abc"))));
    reflexivity.
Defined.

(** X19.  The handshake never throws and is never retried.  Either it ran
    to its end, logged that the connection is established and left [error]
    alone, or it stopped at the first step that failed, logged the failure
    and set [error] to a message.  The offer is posted at most once. *)
Theorem handshake_outcome (henv : HandshakeEnv) (env : Env) (c : Client) :
  let c' := snd (initBrowser henv env c) in
  fst (initBrowser henv env c) = inr tt
  /\ exists tr,
       sig_trace c' = sig_trace c ++ tr
       /\ (List.length (filter (fun e => match e with PostOffer _ => true | _ => false end) tr)
           <= 1)%nat
       /\ ((last tr NewPeerConnection = LogEstablished /\ error c' = error c)
           \/ (last tr NewPeerConnection = LogInitFailure
               /\ exists e, error c' = Some (message_of e))).
Proof.
  unfold_sig. simpl.
  destruct (new_RTCPeerConnection henv) as [e|]; simpl.
  { split; [reflexivity|]. eexists. rewrite <- app_assoc. split; [reflexivity|].
    simpl. split; [lia|]. right. split; [reflexivity | exists e; reflexivity]. }
  destruct (createOffer henv) as [e|offer]; simpl.
  { split; [reflexivity|]. eexists. rewrite <- !app_assoc. split; [reflexivity|].
    simpl. split; [lia|]. right. split; [reflexivity | exists e; reflexivity]. }
  destruct (setLocalDescription henv offer) as [e|]; simpl.
  { split; [reflexivity|]. eexists. rewrite <- !app_assoc. split; [reflexivity|].
    simpl. split; [lia|]. right. split; [reflexivity | exists e; reflexivity]. }
  destruct (fetch_offer henv offer) as [e|resp]; simpl.
  { split; [reflexivity|]. eexists. rewrite <- !app_assoc. split; [reflexivity|].
    simpl. split; [lia|]. right. split; [reflexivity | exists e; reflexivity]. }
  destruct (response_ok resp); simpl.
  2:{ split; [reflexivity|]. eexists. rewrite <- !app_assoc. split; [reflexivity|].
      simpl. split; [lia|]. right. split; [reflexivity|].
      exists (ErrorObject "Failed to send offer"). reflexivity. }
  destruct (response_json resp) as [e|a]; simpl.
  { split; [reflexivity|]. eexists. rewrite <- !app_assoc. split; [reflexivity|].
    simpl. split; [lia|]. right. split; [reflexivity | exists e; reflexivity]. }
  destruct (setRemoteDescription henv (answer a)) as [e|]; simpl.
  { split; [reflexivity|]. eexists. rewrite <- !app_assoc. split; [reflexivity|].
    simpl. split; [lia|]. right. split; [reflexivity | exists e; reflexivity]. }
  split; [reflexivity|]. eexists. rewrite <- !app_assoc. split; [reflexivity|].
  simpl. split; [lia|]. left. split; reflexivity.
Qed.

(** X20.  A response to the offer with a status outside 2xx is a hard
    failure: [error] becomes [Failed to send offer], the body of the
    response is not looked at, no session identifier is stored and no
    remote description is applied. *)
Theorem handshake_rejected_status
        (henv : HandshakeEnv) (env : Env) (c : Client)
        (offer : Description) (resp : OfferResponse) :
  new_RTCPeerConnection henv = None ->
  createOffer henv = inr offer ->
  setLocalDescription henv offer = None ->
  fetch_offer henv offer = inr resp ->
  response_ok resp = false ->
  let c' := snd (initBrowser henv env c) in
  error c' = Some "Failed to send offer"%string
  /\ world c' = world c
  /\ sig_trace c'
     = sig_trace c ++ [NewPeerConnection; CreateOffer; SetLocalDescription offer;
                       PostOffer offer; LogInitFailure].
Proof.
  intros N O L F K c'. subst c'. unfold_sig. simpl.
  rewrite N. simpl. rewrite O. simpl. rewrite L. simpl. rewrite F. simpl.
  rewrite K. simpl. rewrite <- !app_assoc. repeat split.
Qed.

Lemma handshake_rejected_status_witness :
  let henv := mkHandshakeEnv None (inr (mkDescription (js "v=0") (js "offer")))
                (fun _ => None)
                (fun _ => inr (mkOfferResponse false (inl OtherValue)))
                (fun _ => None) in
  let c' := snd (initBrowser henv env_online (initial_client 0)) in
  error c' = Some "Failed to send offer"%string
  /\ world c' = world (initial_client 0)
  /\ sig_trace c'
     = sig_trace (initial_client 0)
         ++ [NewPeerConnection; CreateOffer;
             SetLocalDescription (mkDescription (js "v=0") (js "offer"));
             PostOffer (mkDescription (js "v=0") (js "offer")); LogInitFailure].
Proof.
  apply (handshake_rejected_status
           (mkHandshakeEnv None (inr (mkDescription (js "v=0") (js "offer")))
              (fun _ => None)
              (fun _ => inr (mkOfferResponse false (inl OtherValue)))
              (fun _ => None))
           env_online (initial_client 0)
           (mkDescription (js "v=0") (js "offer"))
           (mkOfferResponse false (inl OtherValue)));
    reflexivity.
Defined.

(** X21.  The session identifier is stored before the answer is applied:
    when only [setRemoteDescription] fails, the component ends up with an
    error and with the session identifier of the answer. *)
Theorem session_stored_before_answer_applied
        (henv : HandshakeEnv) (env : Env) (c : Client)
        (offer : Description) (resp : OfferResponse) (a : OfferAnswer) (e : JsError) :
  new_RTCPeerConnection henv = None ->
  createOffer henv = inr offer ->
  setLocalDescription henv offer = None ->
  fetch_offer henv offer = inr resp ->
  response_ok resp = true ->
  response_json resp = inr a ->
  setRemoteDescription henv (answer a) = Some e ->
  let c' := snd (initBrowser henv env c) in
  sessionId (world c') = answer_session_id a
  /\ error c' = Some (message_of e).
Proof.
  intros N O L F K J R c'. subst c'. unfold_sig. simpl.
  rewrite N. simpl. rewrite O. simpl. rewrite L. simpl. rewrite F. simpl.
  rewrite K. simpl. rewrite J. simpl. rewrite R. simpl. split; [|reflexivity].
  unfold setSessionId, scroll_effect_cleanup. unfold_m. simpl.
  destruct (scrollTimeout (world c)); reflexivity.
Qed.

Lemma session_stored_before_answer_applied_witness :
  let d := mkDescription (js "v=0") (js "bogus") in
  let henv := mkHandshakeEnv None (inr (mkDescription (js "v=0") (js "offer")))
                (fun _ => None)
                (fun _ => inr (mkOfferResponse true
                                 (inr (mkOfferAnswer d (Some (js "abc"))))))
                (fun _ => Some (ErrorObject "Invalid description")) in
  let c' := snd (initBrowser henv env_online (initial_client 0)) in
  sessionId (world c') = answer_session_id (mkOfferAnswer d (Some (js "abc")))
  /\ error c' = Some (message_of (ErrorObject "Invalid description")).
Proof.
  apply (session_stored_before_answer_applied
           (mkHandshakeEnv None (inr (mkDescription (js "v=0") (js "offer")))
              (fun _ => None)
              (fun _ => inr (mkOfferResponse true
                               (inr (mkOfferAnswer (mkDescription (js "v=0") (js "bogus"))
                                       (Some (js "abc"))))))
              (fun _ => Some (ErrorObject "Invalid description")))
           env_online (initial_client 0)
           (mkDescription (js "v=0") (js "offer"))
           (mkOfferResponse true
              (inr (mkOfferAnswer (mkDescription (js "v=0") (js "bogus"))
                      (Some (js "abc")))))
           (mkOfferAnswer (mkDescription (js "v=0") (js "bogus")) (Some (js "abc")))
           (ErrorObject "Invalid description"));
    reflexivity.
Defined.

(** X22.  Creation and closure of the peer connection are paired: after
    the handshake, however it went, an unmount closes the connection when
    one was created, and does nothing when the constructor itself threw. *)
Theorem connection_closed_on_unmount (henv : HandshakeEnv) (env : Env) (t0 : Z) :
  let c1 := snd (initBrowser henv env (initial_client t0)) in
  let c2 := snd (close_on_unmount c1) in
  match new_RTCPeerConnection henv with
  | None =>
      peerConnection c1 = Some peer_open
      /\ peerConnection c2 = Some peer_closed
      /\ sig_trace c2 = sig_trace c1 ++ [ClosePeerConnection]
  | Some _ =>
      peerConnection c1 = None /\ c2 = c1
  end.
Proof.
  unfold_sig. simpl.
  destruct (new_RTCPeerConnection henv) as [e|]; simpl; [split; reflexivity|].
  destruct (createOffer henv) as [e|offer]; simpl; [repeat split|].
  destruct (setLocalDescription henv offer) as [e|]; simpl; [repeat split|].
  destruct (fetch_offer henv offer) as [e|resp]; simpl; [repeat split|].
  destruct (response_ok resp); simpl; [|repeat split].
  destruct (response_json resp) as [e|a]; simpl; [repeat split|].
  destruct (setRemoteDescription henv (answer a)) as [e|]; simpl; repeat split.
Qed.

(** ** What is on the screen *)

(** X23.  Exactly one of three things is shown below the navigation bar:
    the error message, the video, or the connecting layer over a hidden
    video.  The video is visible exactly when there is no error and the
    connection is established. *)
Theorem one_thing_on_screen (c : Client) :
  match surface (render c), connecting_overlay (render c) with
  | ErrorMessage msg, false => error c = Some msg /\ msg <> EmptyString
  | Video true, false => has_error c = false /\ isConnected c = true
  | Video false, true => has_error c = false /\ isConnected c = false
  | _, _ => False
  end.
Proof.
  unfold render, has_error. simpl.
  destruct (error c) as [[|ch msg]|], (isConnected c); simpl;
    repeat split; discriminate.
Qed.

Lemma notify_all_last (c : Client) (sts : list ConnectionState) (st : ConnectionState) :
  fold_left notify (sts ++ [st]) c
  = mkClient (world c) (peerConnection c) (error c)
             (match st with cs_connected => true | _ => false end) (sig_trace c).
Proof.
  rewrite fold_left_app. simpl.
  assert (G : forall l c0, world (fold_left notify l c0) = world c0
                           /\ peerConnection (fold_left notify l c0) = peerConnection c0
                           /\ error (fold_left notify l c0) = error c0
                           /\ sig_trace (fold_left notify l c0) = sig_trace c0).
  { induction l as [|s l IH]; intro c0; simpl; [repeat split|].
    destruct (IH (notify c0 s)) as [A [B [C D]]]. repeat split; assumption. }
  destruct (G sts c) as [A [B [C D]]].
  remember (fold_left notify sts c) as c1 eqn:E1. clear E1 G.
  unfold notify, onconnectionstatechange, setIsConnected. simpl.
  rewrite A, B, C, D. reflexivity.
Qed.

(** X24.  Only the latest notification of the connection state counts:
    after any sequence of notifications the video is visible exactly when
    the last state notified is [connected] and there is no error; every
    other state, [disconnected] and [failed] included, shows the
    connecting layer. *)
Theorem visible_iff_connected
        (c : Client) (sts : list ConnectionState) (st : ConnectionState) :
  has_error c = false ->
  let c' := fold_left notify (sts ++ [st]) c in
  (surface (render c') = Video true <-> st = cs_connected)
  /\ (connecting_overlay (render c') = true <-> st <> cs_connected).
Proof.
  intros E c'. subst c'. rewrite notify_all_last.
  unfold render, has_error in *. simpl. rewrite E. simpl.
  destruct st; simpl; split; split; intro X;
    try reflexivity; try discriminate X;
    try (exfalso; apply X; reflexivity); try (intro Y; discriminate Y).
Qed.

Lemma visible_iff_connected_witness :
  let c' := fold_left notify ([cs_connecting; cs_connected] ++ [cs_disconnected])
                      (initial_client 0) in
  (surface (render c') = Video true <-> cs_disconnected = cs_connected)
  /\ (connecting_overlay (render c') = true <-> cs_disconnected <> cs_connected).
Proof.
  apply (visible_iff_connected (initial_client 0) [cs_connecting; cs_connected]
           cs_disconnected).
  reflexivity.
Defined.

(** ** End to end *)

(** X25.  After a handshake in which the backend answered the offer with a
    non-empty session identifier, a click at a position on the surface is
    sent under that identifier, with coordinates in the virtual
    resolution. *)
Theorem click_after_handshake
        (henv : HandshakeEnv) (env : Env) (t0 : Z)
        (offer : Description) (resp : OfferResponse) (a : OfferAnswer)
        (e : MouseEv) (rect : DOMRect) :
  new_RTCPeerConnection henv = None ->
  createOffer henv = inr offer ->
  setLocalDescription henv offer = None ->
  fetch_offer henv offer = inr resp ->
  response_ok resp = true ->
  response_json resp = inr a ->
  falsy (answer_session_id a) = false ->
  video env = Some rect ->
  (0 < rect_width rect)%Q -> (0 < rect_height rect)%Q ->
  on_surface e rect ->
  let w := world (snd (initBrowser henv env (initial_client t0))) in
  exists x y,
    requests (trace (step env w (AClick e)))
    = [mkRequest (answer_session_id a) (MouseClick (Some x) (Some y) (button e))]
    /\ 0 <= x <= 1280 /\ 0 <= y <= 720.
Proof.
  intros N O L F K J S V Hw Hh [Lx [Rx [Ty By]]] w.
  assert (W : sessionId w = answer_session_id a /\ trace w = []).
  { subst w. unfold_sig. simpl.
    rewrite N. simpl. rewrite O. simpl. rewrite L. simpl. rewrite F. simpl.
    rewrite K. simpl. rewrite J. simpl.
    destruct (setRemoteDescription henv (answer a)); simpl; split; reflexivity. }
  destruct W as [Ws Wt].
  assert (Sw : falsy (sessionId w) = false) by (rewrite Ws; exact S).
  destruct (offset_on_surface _ _ _ Lx Rx) as [X0 X1].
  destruct (offset_on_surface _ _ _ Ty By) as [Y0 Y1].
  destruct (to_virtual_in_range _ _ 1280 Hw ltac:(lia) X0 X1) as [X [EX RX]].
  destruct (to_virtual_in_range _ _ 720 Hh ltac:(lia) Y0 Y1) as [Y [EY RY]].
  change (inject_Z 1280) with 1280%Q in EX. change (inject_Z 720) with 720%Q in EY.
  destruct (pointer_handlers_spec env w e rect Sw V) as [_ [Ck _]].
  rewrite EX, EY in Ck.
  exists X, Y. unfold step, dispatch. rewrite Ck. simpl.
  rewrite requests_app, requests_sent_and_logged, Wt, Ws. simpl.
  repeat split; apply RX || apply RY.
Qed.

Lemma click_after_handshake_witness :
  let w := world (snd (initBrowser
                         (handshake_ok (mkDescription (js "v=0") (js "answer"))
                                       (Some (js "abc")))
                         env_online (initial_client 0))) in
  exists x y,
    requests (trace (step env_online w (AClick (mkMouse 100 50 0))))
    = [mkRequest (answer_session_id
                    (mkOfferAnswer (mkDescription (js "v=0") (js "answer"))
                                   (Some (js "abc"))))
         (MouseClick (Some x) (Some y) (button (mkMouse 100 50 0)))]
    /\ 0 <= x <= 1280 /\ 0 <= y <= 720.
Proof.
  apply (click_after_handshake
           (handshake_ok (mkDescription (js "v=0") (js "answer")) (Some (js "abc")))
           env_online 0
           (mkDescription (js "v=0") (js "offer"))
           (mkOfferResponse true
              (inr (mkOfferAnswer (mkDescription (js "v=0") (js "answer"))
                      (Some (js "abc")))))
           (mkOfferAnswer (mkDescription (js "v=0") (js "answer")) (Some (js "abc")))
           (mkMouse 100 50 0) (mkRect 0 0 200 100));
    try reflexivity.
  unfold on_surface. simpl. repeat split; discriminate.
Defined.

(** ** Submit disambiguation: the alphabet of URLs *)

Lemma lang_within (P : N -> Prop) (r : regex) (s : jsstring) :
  lang r s -> classes_within P r -> Forall P s.
Proof.
  induction 1 as [|p c Hp|r1 r2 s1 s2 _ IH1 _ IH2|r1 r2 s0 _ IH|r1 r2 s0 _ IH
                 |r0|r0 s1 s2 _ IH1 _ IH2]; simpl; intro W.
  - constructor.
  - constructor; [apply W; exact Hp | constructor].
  - destruct W as [W1 W2]. apply Forall_app. split; [apply IH1 | apply IH2]; assumption.
  - apply IH, W.
  - apply IH, W.
  - constructor.
  - apply Forall_app. split; [apply IH1 | apply IH2]; exact W.
Qed.

Lemma label_char_is_url_char (c : N) : is_label_char c = true -> is_url_char c.
Proof.
  intro H. left. unfold is_label_char in H. unfold is_path_char.
  apply orb_true_iff in H. destruct H as [H|H]; rewrite H; simpl;
    rewrite ?orb_true_r; reflexivity.
Qed.

Lemma chr_within (P : N -> Prop) (k : N) : P k -> classes_within P (Cls (cu_eqb k)).
Proof.
  intros H c E. unfold cu_eqb in E. apply N.eqb_eq in E. subst c. exact H.
Qed.

Lemma url_pattern_within : classes_within is_url_char url_pattern.
Proof.
  unfold url_pattern, Opt, Plus. cbn [classes_within].
  assert (L : classes_within is_url_char (Cls is_label_char))
    by (intros c H; apply label_char_is_url_char; exact H).
  repeat split; try exact L; try exact I;
    try (apply (chr_within is_url_char);
         first [ left; reflexivity | right; reflexivity ]).
  intros c H. left. exact H.
Qed.

(** X26.  A text with a character outside [[\w- ./?%&=]] and the colon (a
    [#], an [@], a letter outside ASCII) is never taken for a URL: with a
    session, submitting it navigates to the search URL of its
    percent-encoding. *)
Theorem text_outside_alphabet_is_searched
        (env : Env) (w : World) (c : N) (q : jsstring) :
  falsy (sessionId w) = false ->
  In c (trim (url w)) ->
  is_path_char c = false -> c <> 58%N ->
  encodeURIComponent (trim (url w)) = Some q ->
  requests (trace (step env w ASubmit))
  = requests (trace w) ++ [mkRequest (sessionId w) (Navigate (search_prefix ++ q))].
Proof.
  intros H J Np Nc Q. unfold step. change (dispatch ASubmit) with handleSubmit.
  rewrite handleSubmit_spec.
  destruct (matches url_pattern (trim (url w))) eqn:Mt.
  - exfalso. apply matches_lang in Mt.
    pose proof (lang_within is_url_char _ _ Mt url_pattern_within) as F.
    rewrite Forall_forall in F. destruct (F c J) as [P|E]; [congruence | contradiction].
  - rewrite Q. rewrite navigate_requests by exact H. simpl.
    rewrite requests_app. simpl. rewrite app_nil_r. reflexivity.
Qed.

Lemma text_outside_alphabet_is_searched_witness :
  requests (trace (step env_online (with_url (js "example.com/#top") world_abc) ASubmit))
  = requests (trace (with_url (js "example.com/#top") world_abc))
      ++ [mkRequest (sessionId (with_url (js "example.com/#top") world_abc))
            (Navigate (search_prefix ++ js "example.com%2F%23top"))].
Proof.
  apply (text_outside_alphabet_is_searched env_online
           (with_url (js "example.com/#top") world_abc) 35%N
           (js "example.com%2F%23top")).
  - reflexivity.
  - vm_compute. do 12 right. left. reflexivity.
  - reflexivity.
  - discriminate.
  - reflexivity.
Defined.
